(** * smell-baron: the supervision state machine of [main.c]

    A shallow embedding of the process supervisor.  The operating system is
    an oracle: what [getpid], [fork], [waitpid] and [sigaction] return, and
    where the signal handlers run, is given by a [world]; every system call
    the supervisor makes is appended to a log.

    The definitions come first: the watched-exit loop, the process and its
    system calls, the command line, [main], and the notions of the
    specification the theorems compare them with.  The theorems follow: the
    exit-code policy of the loop, the derivation of the watched commands, the
    order of the phases of [main], its exit status, and the usage errors. *)

From Stdlib Require Import ZArith Bool String Ascii List Lia Permutation Sorted.
Import ListNotations.
Open Scope Z_scope.

(** ** Constants of the C environment *)

Definition INT_MAX : Z := 2147483647.
Definition WAIT_FOR_PROC_DEATH_TIMEOUT : Z := 10.
Definition SEP : string := "---"%string.

Definition ECHILD : Z := 10.

(** <sys/wait.h>: the status word filled in by [waitpid]. *)
Definition WIFEXITED (status : Z) : bool := Z.land status 127 =? 0.
Definition WEXITSTATUS (status : Z) : Z := Z.shiftr (Z.land status 65280) 8.

(** ** Data model *)

(** [args] points into [argv]: it is the offset of the first word of the
    command, [None] for the null pointer [calloc] leaves behind. *)
Record Cmd := mkCmd {
  args : option nat;
  watch : bool;
  configuring : bool;
  pid : Z
}.

Record Opts := mkOpts { signal_everything : bool }.

(** What [calloc] hands out. *)
Definition zero_cmd : Cmd := mkCmd None false false 0.

Definition set_pid (c : Cmd) (p : Z) : Cmd :=
  mkCmd (args c) (watch c) (configuring c) p.
Definition set_watch (c : Cmd) (b : bool) : Cmd :=
  mkCmd (args c) b (configuring c) (pid c).
Definition set_configuring (c : Cmd) (b : bool) : Cmd :=
  mkCmd (args c) (watch c) b (pid c).
Definition set_args (c : Cmd) (a : option nat) : Cmd :=
  mkCmd a (watch c) (configuring c) (pid c).

(** One return of [waitpid(-1, &status, 0)]: the value returned, the status
    word (whatever [status] holds when the call failed) and [errno]. *)
Record wait_ret := mkWait {
  w_ret : Z;
  w_status : Z;
  w_errno : Z
}.

(** One turn of the watched-exit loop as the operating system drives it:
    either a termination signal was handled before the check of line 58, or
    [waitpid] was called and returned [r]; [sig] tells whether [on_signal]
    ran between the checks of lines 58 and 68. *)
Inductive tick :=
| Interrupted
| Waited (r : wait_ret) (sig : bool).

Definition quiet (r : wait_ret) : tick := Waited r false.

(** ** The watched-exit loop (lines 50-97) *)

Record loop_state := mkLoop {
  cmds_left : Z;
  error_code : Z;
  error_code_idx : Z
}.

(** [watch_cmds] holds pointers into [cmds]; a pointer is the index. *)
Definition pid_of (cmds : list Cmd) (w : nat) : Z := pid (nth w cmds zero_cmd).

(** Lines 73-80: the exit status of the command found at index [i]. *)
Definition record_status (i status : Z) (ls : loop_state) : loop_state :=
  if WIFEXITED status then
    let exit_status := WEXITSTATUS status in
    if negb (exit_status =? 0) && (i <? error_code_idx ls)
    then mkLoop (cmds_left ls) exit_status i
    else ls
  else ls.

(** Lines 71-93: the scan for [waited_pid] from index [i] on.  The boolean
    is true when the function returns from inside the scan (line 86). *)
Fixpoint scan_watch (cmds : list Cmd) (waited_pid status : Z) (i : Z)
    (ws : list nat) (ls : loop_state) : loop_state * bool :=
  match ws with
  | [] => (ls, false)
  | w :: ws' =>
      if pid_of cmds w =? waited_pid then
        let ls1 := record_status i status ls in
        let ls2 := mkLoop (cmds_left ls1 - 1) (error_code ls1) (error_code_idx ls1) in
        (ls2, cmds_left ls2 =? 0)
      else scan_watch cmds waited_pid status (i + 1) ws' ls
  end.

(** Where the loop returned. *)
Inductive exit_path :=
| AllExited          (* line 86 *)
| StoppedBeforeWait  (* line 58 *)
| StoppedAfterWait.  (* line 68 *)

(** [ret_seen] lists the [waitpid] returns that reached the scan, oldest
    first; [ret_rest] is what the loop left unread. *)
Record loop_return := mkReturn {
  ret_code : Z;
  ret_path : exit_path;
  ret_seen : list wait_ret;
  ret_rest : list tick
}.

(** The [for (;;)] of lines 55-94.  [None]: the loop is still blocked in
    [waitpid] when the ticks run out. *)
Fixpoint supervise (cmds : list Cmd) (watch_cmds : list nat) (ls : loop_state)
    (running : bool) (seen : list wait_ret) (ticks : list tick)
    : option loop_return :=
  if negb running then Some (mkReturn (error_code ls) StoppedBeforeWait seen ticks)
  else
    match ticks with
    | [] => None
    | Interrupted :: rest =>
        Some (mkReturn (error_code ls) StoppedBeforeWait seen rest)
    | Waited r sig :: rest =>
        if sig then Some (mkReturn (error_code ls) StoppedAfterWait seen rest)
        else
          let '(ls', done) := scan_watch cmds (w_ret r) (w_status r) 0 watch_cmds ls in
          if done then Some (mkReturn (error_code ls') AllExited (seen ++ [r]) rest)
          else supervise cmds watch_cmds ls' true (seen ++ [r]) rest
    end.

Definition wait_for_requested_commands_to_exit (cmds : list Cmd)
    (watch_cmds : list nat) (running : bool) (ticks : list tick)
    : option loop_return :=
  let n_watch_cmds := Z.of_nat (length watch_cmds) in
  supervise cmds watch_cmds (mkLoop n_watch_cmds 0 INT_MAX) running [] ticks.

(** ** The exit-code policy in the words of the specification *)

(** [waitpid] really reaped a process. *)
Definition reaped (r : wait_ret) : bool := negb (w_ret r =? -1).



(** The exit [r] belongs to a watched command. *)
Definition is_watched (cmds : list Cmd) (watch_cmds : list nat) (r : wait_ret) : bool :=
  existsb (fun w => pid_of cmds w =? w_ret r) watch_cmds.

Definition watched_exits (cmds : list Cmd) (watch_cmds : list nat)
    (rs : list wait_ret) : nat :=
  length (filter (is_watched cmds watch_cmds) rs).

(** Every watched command was launched: [fork] gave it a process id. *)
Definition launched (cmds : list Cmd) (watch_cmds : list nat) : Prop :=
  Forall (fun w => pid_of cmds w <> -1) watch_cmds.


(** The state after the scans of [rs], one after the other. *)
Definition run_scans (cmds : list Cmd) (ws : list nat) (ls : loop_state) (rs : list wait_ret) : loop_state :=
  fold_left (fun st r => fst (scan_watch cmds (w_ret r) (w_status r) 0 ws st)) rs ls.


(** [r] is the normal, nonzero exit of a watched command. *)
Definition reports_failure (cmds : list Cmd) (watch_cmds : list nat) (r : wait_ret) : bool :=
  is_watched cmds watch_cmds r && WIFEXITED (w_status r)
  && negb (WEXITSTATUS (w_status r) =? 0).

(** The exit status of the first watched command, by reap order, to
    report a nonzero normal exit, or 0: the first-to-report reading of the
    tie-break. *)
Definition first_reported (cmds : list Cmd) (watch_cmds : list nat)
    (rs : list wait_ret) : Z :=
  match find (reports_failure cmds watch_cmds) rs with
  | Some r => WEXITSTATUS (w_status r)
  | None => 0
  end.

(** The index at which the scan of lines 71-93 finds process [p]. *)
Fixpoint watch_index (cmds : list Cmd) (ws : list nat) (p : Z) (i : Z) : option Z :=
  match ws with
  | [] => None
  | w :: ws' => if pid_of cmds w =? p then Some i else watch_index cmds ws' p (i + 1)
  end.



(** ** The process and its operating system *)

Inductive signal := SIGINT | SIGTERM | SIGALRM.

Inductive handler := SIG_DFL | SIG_IGN | on_signal | on_alarm.

(** The system calls of the supervisor, as they are logged. *)
Inductive action :=
| Sigaction (s : signal) (h : handler) (failed : bool)
| Fork (argv : option nat) (ret : Z)
| Waitpid (r : wait_ret)
| Alarm (seconds : Z)
| Kill (target : Z) (s : signal).

(** One turn of the final drain: a return of [waitpid], or the delivery of
    SIGALRM while the drain waits. *)
Inductive drain_tick :=
| DrainWait (r : wait_ret)
| AlarmFires.

(** What the operating system will answer, in the order it is asked.
    [sigaction_fails s]: [sigaction] refuses the signal [s] (it fails on the
    signal number, whatever the handler).  [forks]: the successive returns of
    [fork].  [configure_signal]: a termination signal is handled between the
    installation of the handlers and the check of line 297. *)
Record world := mkWorld {
  my_pid : Z;
  sigaction_fails : signal -> bool;
  forks : list Z;
  configure_waits : list wait_ret;
  configure_signal : bool;
  main_ticks : list tick;
  drain_ticks : list drain_tick
}.

Definition set_forks (w : world) (l : list Z) : world :=
  mkWorld (my_pid w) (sigaction_fails w) l (configure_waits w)
          (configure_signal w) (main_ticks w) (drain_ticks w).
Definition set_configure_waits (w : world) (l : list wait_ret) : world :=
  mkWorld (my_pid w) (sigaction_fails w) (forks w) l
          (configure_signal w) (main_ticks w) (drain_ticks w).
Definition set_main_ticks (w : world) (l : list tick) : world :=
  mkWorld (my_pid w) (sigaction_fails w) (forks w) (configure_waits w)
          (configure_signal w) l (drain_ticks w).
Definition set_drain_ticks (w : world) (l : list drain_tick) : world :=
  mkWorld (my_pid w) (sigaction_fails w) (forks w) (configure_waits w)
          (configure_signal w) (main_ticks w) l.

(** The two static variables of [main.c], the log and the world. *)
Record proc := mkProc {
  running : bool;
  alarm_exit_code : Z;
  trace : list action;
  os : world
}.

Definition init_proc (w : world) : proc := mkProc true 0 [] w.

Definition log (a : action) (st : proc) : proc :=
  mkProc (running st) (alarm_exit_code st) (trace st ++ [a]) (os st).
Definition set_running (b : bool) (st : proc) : proc :=
  mkProc b (alarm_exit_code st) (trace st) (os st).
Definition set_alarm_exit_code (c : Z) (st : proc) : proc :=
  mkProc (running st) c (trace st) (os st).
Definition set_os (w : world) (st : proc) : proc :=
  mkProc (running st) (alarm_exit_code st) (trace st) w.

(** How a piece of the program ends: it returns, the process exits, the
    process turns out to be the forked child (which goes on to [execvp]), or
    it is still blocked in [waitpid] when the world has no more to say. *)
Inductive outcome (A : Type) :=
| Ret (a : A)
| Exit (code : Z)
| Child (argv : option nat)
| Pending.
Arguments Ret {A} a.
Arguments Exit {A} code.
Arguments Child {A} argv.
Arguments Pending {A}.

Definition M (A : Type) : Type := proc -> outcome A * proc.

Definition ret {A} (a : A) : M A := fun st => (Ret a, st).

Definition bind {A B} (m : M A) (k : A -> M B) : M B :=
  fun st =>
    match m st with
    | (Ret a, st') => k a st'
    | (Exit c, st') => (Exit c, st')
    | (Child a, st') => (Child a, st')
    | (Pending, st') => (Pending, st')
    end.

Notation "x <- m ;; k" := (bind m (fun x => k))
  (at level 61, m at next level, right associativity).
Notation "m ;;; k" := (bind m (fun _ => k))
  (at level 61, right associativity).

Definition exit {A} (code : Z) : M A := fun st => (Exit code, st).

(** The value of an [int] that may never have been assigned. *)
Inductive int_value := Int (z : Z) | Indeterminate.

(** The exit status of the process, when it has one. *)
Definition exit_status (o : outcome int_value) : option int_value :=
  match o with
  | Ret v => Some v
  | Exit c => Some (Int c)
  | Child _ => None
  | Pending => None
  end.

(** *** System calls *)

(** [sigaction(s, &sa, NULL)]: nonzero (true) when it fails. *)
Definition sigaction (s : signal) (h : handler) : M bool :=
  fun st =>
    let failed := sigaction_fails (os st) s in
    (Ret failed, log (Sigaction s h failed) st).

(** [fork()], seen from this process: a failure when the world gives no
    further process id. *)
Definition fork : M Z :=
  fun st =>
    match forks (os st) with
    | [] => (Ret (-1), st)
    | p :: rest => (Ret p, set_os (set_forks (os st) rest) st)
    end.

Definition alarm (seconds : Z) : M unit :=
  fun st => (Ret tt, log (Alarm seconds) st).

Definition kill (target : Z) (s : signal) : M unit :=
  fun st => (Ret tt, log (Kill target s) st).

(** *** The functions of [main.c] *)

(** Lines 109-117.  In the child [execvp] replaces the program (or the
    child exits 1): the model stops there. *)
Definition run_proc (argv : option nat) : M Z :=
  pid <- fork ;;
  if negb (pid =? 0) then
    fun st => (Ret pid, log (Fork argv pid) st)
  else
    fun st => (Child argv, st).

(** Lines 129-132. *)
Definition perror_die {A} : M A := exit 1.

(** Lines 134-149. *)
Definition install_term_and_int_handlers : M unit :=
  f1 <- sigaction SIGINT on_signal ;;
  (if f1 then perror_die else ret tt) ;;;
  f2 <- sigaction SIGTERM on_signal ;;
  (if f2 then perror_die else ret tt) ;;;
  f3 <- sigaction SIGALRM on_alarm ;;
  (if f3 then perror_die else ret tt).

(** Lines 151-160. *)
Definition remove_term_and_int_handlers : M unit :=
  f1 <- sigaction SIGINT SIG_IGN ;;
  if f1 then ret tt
  else
    f2 <- sigaction SIGTERM SIG_IGN ;;
    if f2 then ret tt else ret tt.

(** Lines 167-173: the commands marked configuring are started in order;
    the result is the array with their process ids and the count. *)
Fixpoint start_configure_cmds (cmds : list Cmd) (run_configure_cmds : Z)
    : M (list Cmd * Z) :=
  match cmds with
  | [] => ret ([], run_configure_cmds)
  | c :: cs =>
      if negb (configuring c) then
        r <- start_configure_cmds cs run_configure_cmds ;;
        ret (c :: fst r, snd r)
      else
        p <- run_proc (args c) ;;
        r <- start_configure_cmds cs (run_configure_cmds + 1) ;;
        ret (set_pid c p :: fst r, snd r)
  end.

(** The [for (;;)] of lines 178-181, over the returns of [waitpid] still
    to come; there is no way out but "no child left". *)
Fixpoint wait_until_no_children (ws : list wait_ret) (st : proc)
    : outcome unit * list wait_ret * proc :=
  match ws with
  | [] => (Pending, [], st)
  | r :: rest =>
      let st' := log (Waitpid r) st in
      if (w_ret r =? -1) && (w_errno r =? ECHILD) then (Ret tt, rest, st')
      else wait_until_no_children rest st'
  end.

(** Lines 165-184. *)
Definition run_configure_cmds (cmds : list Cmd) : M (list Cmd) :=
  r <- start_configure_cmds cmds 0 ;;
  if negb (snd r =? 0) then
    fun st =>
      let '(o, rest, st') := wait_until_no_children (configure_waits (os st)) st in
      match o with
      | Ret _ => (Ret (fst r), set_os (set_configure_waits (os st') rest) st')
      | _ => (Pending, set_os (set_configure_waits (os st') rest) st')
      end
  else ret (fst r).

(** Lines 186-191. *)
Fixpoint run_cmds (cmds : list Cmd) : M (list Cmd) :=
  match cmds with
  | [] => ret []
  | c :: cs =>
      if negb (configuring c) then
        p <- run_proc (args c) ;;
        cs' <- run_cmds cs ;;
        ret (set_pid c p :: cs')
      else
        cs' <- run_cmds cs ;;
        ret (c :: cs')
  end.

(** The returns of [waitpid] among the ticks the loop has read. *)
Fixpoint tick_waits (ticks : list tick) : list wait_ret :=
  match ticks with
  | [] => []
  | Interrupted :: rest => tick_waits rest
  | Waited r _ :: rest => r :: tick_waits rest
  end.

(** Lines 50-97 run by the process: the ticks come from the world, the
    [waitpid] calls go to the log, and [running] is false afterwards when
    [on_signal] made the loop return. *)
Definition wait_for_requested_commands (cmds : list Cmd) (watch_cmds : list nat)
    : M Z :=
  fun st =>
    let ticks := main_ticks (os st) in
    match wait_for_requested_commands_to_exit cmds watch_cmds (running st) ticks with
    | None =>
        (Pending,
         mkProc (running st) (alarm_exit_code st)
                (trace st ++ map Waitpid (tick_waits ticks))
                (set_main_ticks (os st) []))
    | Some r =>
        let read := firstn (length ticks - length (ret_rest r)) ticks in
        (Ret (ret_code r),
         mkProc (match ret_path r with AllExited => true | _ => false end)
                (alarm_exit_code st)
                (trace st ++ map Waitpid (tick_waits read))
                (set_main_ticks (os st) (ret_rest r)))
    end.

(** Lines 124-127. *)
Definition run_on_alarm {A} : M A :=
  fun st => (Exit (alarm_exit_code st), st).

(** Lines 103-106 with SIGALRM armed: [on_alarm] ends the process when the
    alarm goes off before [waitpid] reports that no child is left. *)
Fixpoint drain (ds : list drain_tick) (st : proc)
    : outcome unit * list drain_tick * proc :=
  match ds with
  | [] => (Pending, [], st)
  | AlarmFires :: rest => (fst (@run_on_alarm unit st), rest, st)
  | DrainWait r :: rest =>
      let st' := log (Waitpid r) st in
      if (w_ret r =? -1) && (w_errno r =? ECHILD) then (Ret tt, rest, st')
      else drain rest st'
  end.

(** Lines 99-107. *)
Definition wait_for_all_processes_to_exit (error_code : Z) : M unit :=
  fun st =>
    let st1 := set_alarm_exit_code error_code st in
    let '(o, rest, st2) := drain (drain_ticks (os st1)) st1 in
    (o, set_os (set_drain_ticks (os st2) rest) st2).

(** *** Lines 267-290 of [main]: the watched commands *)

(** Lines 268-271. *)
Fixpoint count_watch (cmds : list Cmd) (n_watch_cmds : Z) : Z :=
  match cmds with
  | [] => n_watch_cmds
  | c :: cs => count_watch cs (if watch c then n_watch_cmds + 1 else n_watch_cmds)
  end.

(** Lines 275-280. *)
Fixpoint watch_every_command (cmds : list Cmd) (n_watch_cmds : Z) : list Cmd * Z :=
  match cmds with
  | [] => ([], n_watch_cmds)
  | c :: cs =>
      if negb (configuring c) then
        let r := watch_every_command cs (n_watch_cmds + 1) in
        (set_watch c true :: fst r, snd r)
      else
        let r := watch_every_command cs n_watch_cmds in
        (c :: fst r, snd r)
  end.

(** Lines 286-289: [watch_cmds] receives the addresses [child_procs.cmds + i]. *)
Fixpoint fill_watch_cmds (cmds : list Cmd) (i : nat) : list nat :=
  match cmds with
  | [] => []
  | c :: cs => if watch c then i :: fill_watch_cmds cs (S i) else fill_watch_cmds cs (S i)
  end.

Definition select_watch_cmds (cmds : list Cmd) : list Cmd * list nat * Z :=
  let n_watch_cmds := count_watch cmds 0 in
  let r := if 0 =? n_watch_cmds then watch_every_command cmds n_watch_cmds
           else (cmds, n_watch_cmds) in
  (fst r, fill_watch_cmds (fst r) 0, snd r).

(** The indices, in order, of the commands that satisfy [p]. *)
Definition indices_where (p : Cmd -> bool) (cmds : list Cmd) : list nat :=
  filter (fun i => p (nth i cmds zero_cmd)) (seq 0 (length cmds)).

(** ** The command line (lines 193-255) *)

(** [argv] in memory: [parse_argv] overwrites every separator it meets with
    a null pointer. *)
Definition memory := list (option string).

Definition upd {A} (n : nat) (x : A) (l : list A) : list A :=
  firstn n l ++ match skipn n l with [] => [] | _ :: t => x :: t end.

(** How parsing ends: with a result, in [exit(code)], in a null-pointer
    dereference, or with the loop counter of the model used up. *)
Inductive parsed (A : Type) :=
| Parsed (a : A)
| Die (code : Z)
| Fault
| OutOfFuel.
Arguments Parsed {A} a.
Arguments Die {A} code.
Arguments Fault {A}.
Arguments OutOfFuel {A}.

(** One option character as [getopt] returns it under the option string
    ["+acf"]: itself when it is one of [a], [c], [f], and ['?'] otherwise. *)
Definition getopt_char (c : ascii) : ascii :=
  if (Ascii.eqb c "a" || Ascii.eqb c "c" || Ascii.eqb c "f")%bool then c else "?"%char.

(** A word that [getopt] takes for options: a dash followed by something. *)
Definition is_option_word (w : string) : bool :=
  match w with
  | String c cs => Ascii.eqb c "-" && negb (String.eqb cs "")
  | EmptyString => false
  end.

(** The successive returns of [getopt(argc, argv, "+acf")] up to its [-1],
    and the final [optind], over the words [argv[optind .. argc-1]].  The
    leading [+] stops the scan at the first word that is no option; [--] is
    skipped and ends the scan; every character after the dash of an option
    word is returned in turn. *)
Fixpoint getopt_returns (words : list (option string)) (optind : nat)
    : list ascii * nat :=
  match words with
  | [] => ([], optind)
  | None :: _ => ([], optind)
  | Some w :: rest =>
      if is_option_word w then
        if String.eqb w "--" then ([], S optind)
        else
          let r := getopt_returns rest (S optind) in
          (map getopt_char (tl (list_ascii_of_string w)) ++ fst r, snd r)
      else ([], optind)
  end.

(** The [switch] of lines 197-213 over the returns of [getopt]. *)
Fixpoint apply_options (pid : Z) (cs : list ascii) (opts : Opts) (cmd : Cmd)
    : parsed (Opts * Cmd) :=
  match cs with
  | [] => Parsed (opts, cmd)
  | c :: cs' =>
      if Ascii.eqb c "a" then
        if negb (pid =? 1) then Die 1
        else apply_options pid cs' (mkOpts true) cmd
      else if Ascii.eqb c "c" then apply_options pid cs' opts (set_configuring cmd true)
      else if Ascii.eqb c "f" then apply_options pid cs' opts (set_watch cmd true)
      else apply_options pid cs' opts cmd
  end.

(** Lines 193-222.  [getopt] is given [args_end - arg_it] words starting at
    [arg_it - 1]: it reads [arg_it .. args_end - 2]. *)
Definition parse_cmd_args (pid : Z) (opts : Opts) (cmd : Cmd) (mem : memory)
    (arg_it args_end : nat) : parsed (Opts * Cmd) :=
  let r := getopt_returns (firstn (args_end - arg_it - 1) (skipn arg_it mem)) 1 in
  match apply_options pid (fst r) opts cmd with
  | Parsed (opts', cmd') =>
      if configuring cmd' && watch cmd' then Die 1
      else Parsed (opts', set_args cmd' (Some (arg_it + snd r - 1)%nat))
  | Die c => Die c
  | Fault => Fault
  | OutOfFuel => OutOfFuel
  end.

(** Lines 241-254, [fuel] bounding the number of turns. *)
Fixpoint parse_separators (fuel : nat) (pid : Z) (args_end : nat) (mem : memory)
    (cmds : list Cmd) (opts : Opts) (cmd_idx arg_it : nat)
    : parsed (list Cmd * Opts * memory) :=
  match fuel with
  | O => OutOfFuel
  | S fuel' =>
      if (arg_it <? args_end)%nat then
        match nth arg_it mem None with
        | None => Fault
        | Some word =>
            if String.eqb word SEP then
              let mem' := upd arg_it None mem in
              if (arg_it + 1 =? args_end)%nat then Die 1
              else
                let cmd_idx' := S cmd_idx in
                match parse_cmd_args pid opts (nth cmd_idx' cmds zero_cmd) mem'
                        (arg_it + 1) args_end with
                | Parsed (opts', cmd) =>
                    match args cmd with
                    | Some a =>
                        parse_separators fuel' pid args_end mem'
                          (upd cmd_idx' cmd cmds) opts' cmd_idx' (S (a - 1))
                    | None => Fault
                    end
                | Die c => Die c
                | Fault => Fault
                | OutOfFuel => OutOfFuel
                end
            else
              parse_separators fuel' pid args_end mem cmds opts cmd_idx (S arg_it)
        end
      else Parsed (cmds, opts, mem)
  end.

(** Lines 224-255. *)
Definition parse_argv (pid : Z) (argv : list string)
    : parsed (list Cmd * Opts * memory) :=
  let args_end := length argv in
  let n_cmds := S (count_occ string_dec (tl argv) SEP) in
  let cmds := repeat zero_cmd n_cmds in
  let mem := map Some argv in
  match parse_cmd_args pid (mkOpts false) (nth 0 cmds zero_cmd) mem 1 args_end with
  | Parsed (opts, cmd) =>
      match args cmd with
      | Some a =>
          parse_separators (S args_end) pid args_end mem (upd 0 cmd cmds) opts 0 a
      | None => Fault
      end
  | Die c => Die c
  | Fault => Fault
  | OutOfFuel => OutOfFuel
  end.

(** ** [main] (lines 257-311) *)

(** Lines 297-305, entered with [running] true. *)
Definition supervise_and_shut_down (cmds : list Cmd) (watch_cmds : list nat)
    (opts : Opts) : M int_value :=
  cmds' <- run_cmds cmds ;;
  error_code <- wait_for_requested_commands cmds' watch_cmds ;;
  remove_term_and_int_handlers ;;;
  alarm WAIT_FOR_PROC_DEATH_TIMEOUT ;;;
  kill (if signal_everything opts then -1 else 0) SIGTERM ;;;
  wait_for_all_processes_to_exit error_code ;;;
  ret (Int error_code).

(** [on_signal], when the world says a termination signal came in. *)
Definition deliver (signalled : bool) : M unit :=
  fun st => (Ret tt, if signalled then set_running false st else st).

(** Lines 267-310: [main] once the command line is parsed.  [error_code]
    is declared without a value (line 294) and assigned only inside the
    [if (running)] of line 297. *)
Definition run_parsed (cmds : list Cmd) (opts : Opts) : M int_value :=
  let '(cmds, watch_cmds, n_watch_cmds) := select_watch_cmds cmds in
  install_term_and_int_handlers ;;;
  let error_code := Indeterminate in
  cmds' <- run_configure_cmds cmds ;;
  (fun st => deliver (configure_signal (os st)) st) ;;;
  fun st =>
    if running st then supervise_and_shut_down cmds' watch_cmds opts st
    else ret error_code st.

(** Lines 257-266 and the rest.  [parse_argv] ends in [Parsed] or [Die]
    (lemma [parse_argv_ends]); the two other cases are there for the match to
    be complete. *)
Definition main (w : world) (argv : list string) : outcome int_value * proc :=
  let st := init_proc w in
  if (length argv =? 1)%nat then (Ret (Int 1), st)
  else
    match parse_argv (my_pid w) argv with
    | Parsed (cmds, opts, _) => run_parsed cmds opts st
    | Die c => (Exit c, st)
    | Fault => (Pending, st)
    | OutOfFuel => (Pending, st)
    end.

(** ** Reading the log *)

(** The three calls of [install_term_and_int_handlers] when none fails. *)
Definition installs : list action :=
  [Sigaction SIGINT on_signal false; Sigaction SIGTERM on_signal false;
   Sigaction SIGALRM on_alarm false].

(** The start of the shutdown: both handlers reverted to "ignore", the
    alarm armed, the termination signal sent. *)
Definition shutdown (opts : Opts) : list action :=
  [Sigaction SIGINT SIG_IGN false; Sigaction SIGTERM SIG_IGN false;
   Alarm WAIT_FOR_PROC_DEATH_TIMEOUT;
   Kill (if signal_everything opts then -1 else 0) SIGTERM].

(** The launches of [cmds], as logged once their process ids are known. *)
Definition launches (cmds : list Cmd) : list action :=
  map (fun c => Fork (args c) (pid c)) cmds.

(** [waitpid] reports that no child is left. *)
Definition no_child_left (r : wait_ret) : bool :=
  (w_ret r =? -1) && (w_errno r =? ECHILD).

(** A drain that ran to its end: every return but the last leaves
    children, the last one reports that none is left. *)
Definition complete_drain (ws : list wait_ret) : Prop :=
  exists before last,
    ws = before ++ [last] /\
    Forall (fun r => no_child_left r = false) before /\
    no_child_left last = true.

(** The same commands, whatever their process ids and watch flags. *)
Definition same_commands (cmds cmds' : list Cmd) : Prop :=
  Forall2 (fun c c' => args c' = args c /\ configuring c' = configuring c) cmds cmds'.

Definition is_kill (a : action) : bool :=
  match a with Kill _ _ => true | _ => false end.

Definition is_wait (a : action) : bool :=
  match a with Waitpid _ => true | _ => false end.

(** What is logged before the main phase: calls of [sigaction], launches
    of commands marked configuring, and waits. *)
Definition before_main (cmds : list Cmd) (a : action) : Prop :=
  match a with
  | Sigaction _ _ _ => True
  | Fork argv _ => In argv (map args (filter configuring cmds))
  | Waitpid _ => True
  | Alarm _ => False
  | Kill _ _ => False
  end.

(** The world keeps its answers on what does not depend on the time. *)
Definition static_same (w w' : world) : Prop :=
  my_pid w' = my_pid w /\ sigaction_fails w' = sigaction_fails w /\
  configure_signal w' = configure_signal w.

(** [st'] comes after [st]: the log grew by [d], the flag [running] and the
    static part of the world are as they were. *)
Definition extends (st st' : proc) (d : list action) : Prop :=
  trace st' = trace st ++ d /\ running st' = running st /\
  static_same (os st) (os st').

Definition launch_or_wait (a : action) : Prop :=
  match a with
  | Fork _ _ => True
  | Waitpid _ => True
  | _ => False
  end.

(** ** Command lines, as the usage describes them *)

Inductive flag := FlagA | FlagC | FlagF.

Definition flag_char (f : flag) : ascii :=
  match f with FlagA => "a" | FlagC => "c" | FlagF => "f" end%char.

(** The word [-acf...] that carries the flags [fs]. *)
Definition flag_word (fs : list flag) : string :=
  String "-" (string_of_list_ascii (map flag_char fs)).

(** One command group: flag words, then the executable and its arguments. *)
Record group := mkGroup {
  g_flags : list (list flag);
  g_words : list string
}.

Definition render_group (g : group) : list string :=
  map flag_word (g_flags g) ++ g_words g.

(** The groups of a command line, separated by [SEP]. *)
Fixpoint render (gs : list group) : list string :=
  match gs with
  | [] => []
  | g :: gs' =>
      match gs' with
      | [] => render_group g
      | _ :: _ => render_group g ++ SEP :: render gs'
      end
  end.

(** Every flag word carries a flag, the executable is no option word, and
    no word of the command is the separator. *)
Definition well_formed (g : group) : Prop :=
  Forall (fun fs => fs <> []) (g_flags g) /\
  (exists w ws, g_words g = w :: ws /\ is_option_word w = false) /\
  Forall (fun w => w <> SEP) (g_words g).

Definition has_flag (f : flag) (g : group) : Prop := In f (concat (g_flags g)).


(** A group that [parse_cmd_args] must refuse. *)
Definition refused (pid : Z) (g : group) : Prop :=
  (has_flag FlagC g /\ has_flag FlagF g) \/ (pid <> 1 /\ has_flag FlagA g).

(** What follows the words of a group: nothing, or a separator. *)
Definition group_tail (gs : list group) : list string :=
  match gs with [] => [] | _ :: _ => SEP :: render gs end.

(** The commands parsed so far, [0 .. idx], have their [args] in increasing
    order, at most [bound]; a command marked configuring has been parsed; the
    rest of the array is as [calloc] left it. *)
Definition args_ordered (cmds : list Cmd) (idx bound : nat) : Prop :=
  (forall i a, args (nth i cmds zero_cmd) = Some a -> (a <= bound)%nat) /\
  (forall i j a b, (i < j)%nat ->
     args (nth i cmds zero_cmd) = Some a -> args (nth j cmds zero_cmd) = Some b ->
     (a < b)%nat) /\
  (forall i, configuring (nth i cmds zero_cmd) = true ->
     args (nth i cmds zero_cmd) <> None) /\
  (forall i, (idx < i)%nat -> nth i cmds zero_cmd = zero_cmd).

(** ** Further notions used by the theorems *)

(** What a caller of the watched-exit loop gets to know of a return: the
    exit code and the line it came from. *)
Definition verdict (r : loop_return) : Z * exit_path := (ret_code r, ret_path r).

(** The exit [r] is no failure: the process was killed by a signal (or
    stopped), or it exited with status 0. *)
Definition no_failure (r : wait_ret) : Prop :=
  WIFEXITED (w_status r) = false \/ WEXITSTATUS (w_status r) = 0.

Definition is_fork (a : action) : bool :=
  match a with Fork _ _ => true | _ => false end.

Definition is_sigaction (a : action) : bool :=
  match a with Sigaction _ _ _ => true | _ => false end.

(** The commands of the main phase. *)
Definition main_cmd (c : Cmd) : bool := negb (configuring c).

(** The log without its waits. *)
Definition unwaited (l : list action) : list action :=
  filter (fun a => negb (is_wait a)) l.

(** Two states of the process that differ at most in the waits of the log
    and in what [waitpid] returns during the configure phase, apart from
    whether it reports that no child is left. *)
Definition agree (st st' : proc) : Prop :=
  running st = running st' /\
  alarm_exit_code st = alarm_exit_code st' /\
  unwaited (trace st) = unwaited (trace st') /\
  my_pid (os st) = my_pid (os st') /\
  sigaction_fails (os st) = sigaction_fails (os st') /\
  forks (os st) = forks (os st') /\
  map no_child_left (configure_waits (os st))
  = map no_child_left (configure_waits (os st')) /\
  configure_signal (os st) = configure_signal (os st') /\
  main_ticks (os st) = main_ticks (os st') /\
  drain_ticks (os st) = drain_ticks (os st').

(** [m] cannot tell two such states apart. *)
Definition respects {A : Type} (m : M A) : Prop :=
  forall st st', agree st st' ->
    fst (m st) = fst (m st') /\ agree (snd (m st)) (snd (m st')).

(** ** Command lines read back *)

Definition flag_eqb (f g : flag) : bool :=
  match f, g with
  | FlagA, FlagA => true
  | FlagC, FlagC => true
  | FlagF, FlagF => true
  | _, _ => false
  end.

(** The group [g] carries the flag [f]. *)
Definition flagged (f : flag) (g : group) : bool :=
  existsb (flag_eqb f) (concat (g_flags g)).

(** The command of the group whose first word is [argv[start]], as the
    parser should leave it. *)
Definition expected_cmd (start : nat) (g : group) : Cmd :=
  mkCmd (Some (start + length (g_flags g))%nat) (flagged FlagF g) (flagged FlagC g) 0.

Fixpoint expected_cmds (start : nat) (gs : list group) : list Cmd :=
  match gs with
  | [] => []
  | g :: gs' =>
      expected_cmd start g :: expected_cmds (start + length (render_group g) + 1) gs'
  end.

(** The words of the groups in memory, a null pointer in the place of each
    separator. *)
Fixpoint render_mem (gs : list group) : memory :=
  match gs with
  | [] => []
  | g :: gs' =>
      match gs' with
      | [] => map Some (render_group g)
      | _ :: _ => map Some (render_group g) ++ None :: render_mem gs'
      end
  end.

(** What [execvp] reads from a pointer into [argv]: the words up to the
    first null pointer ([argv[argc]] is one). *)
Fixpoint until_null (mem : memory) : list string :=
  match mem with
  | Some w :: rest => w :: until_null rest
  | _ => []
  end.

(** The argument vector line 114 hands to [execvp] for the command [c]. *)
Definition exec_vector (mem : memory) (c : Cmd) : option (list string) :=
  option_map (fun a => until_null (skipn a mem)) (args c).

(** The commands and the options a parse yields, the memory left aside. *)
Definition parsed_cmds (r : parsed (list Cmd * Opts * memory)) : parsed (list Cmd * Opts) :=
  match r with
  | Parsed (cmds, opts, _) => Parsed (cmds, opts)
  | Die c => Die c
  | Fault => Fault
  | OutOfFuel => OutOfFuel
  end.

(** The option characters of the option string ["+acf"]. *)
Definition known_flag (c : ascii) : bool :=
  (Ascii.eqb c "a" || Ascii.eqb c "c" || Ascii.eqb c "f")%bool.
(** Two watched commands A (index 0, process 10) and B (index 1, process
    11); B exits 3 first, then A exits 2. *)
Definition two_cmds : list Cmd :=
  [mkCmd (Some 1%nat) true false 10; mkCmd (Some 3%nat) true false 11].
Definition exit_with (p code : Z) : wait_ret := mkWait p (Z.shiftl code 8) 0.
Definition b_then_a : list tick := [quiet (exit_with 11 3); quiet (exit_with 10 2)].


(** A command line with a configuring, a watched and an unwatched command,
    and a world in which all of them run: [setup] is process 100, [server]
    101 and [worker] 102. *)
Definition demo_argv : list string :=
  ["smell-baron"; "-c"; "setup"; "---"; "-f"; "server"; "---"; "worker"]%string.

Definition no_more_children : wait_ret := mkWait (-1) 0 ECHILD.

Definition demo_world : world :=
  mkWorld 1 (fun _ => false) [100; 101; 102]
    [exit_with 100 0; no_more_children]
    false
    [quiet (exit_with 101 2)]
    [DrainWait (mkWait 102 15 0); DrainWait no_more_children].

(** The same world with a termination signal during the configure phase. *)
Definition signalled_world : world :=
  mkWorld 1 (fun _ => false) [100; 101; 102]
    [exit_with 100 0; no_more_children]
    true
    [quiet (exit_with 101 2)]
    [DrainWait (mkWait 102 15 0); DrainWait no_more_children].


(** The supervisor as process 1, told to signal every process. *)
Definition init_argv : list string := ["smell-baron"; "-a"; "server"]%string.

Definition init_world : world :=
  mkWorld 1 (fun _ => false) [100] [] false
    [quiet (exit_with 100 0)] [DrainWait no_more_children].

(** The groups of [demo_argv]. *)
Definition demo_groups : list group :=
  [mkGroup [[FlagC]] ["setup"%string]; mkGroup [[FlagF]] ["server"%string];
   mkGroup [] ["worker"%string]].
(** * Properties of the watched-exit loop *)

Section ExitCode.

Variable cmds : list Cmd.







Lemma record_status_cmds_left i st ls :
  cmds_left (record_status i st ls) = cmds_left ls.
Proof.
  unfold record_status.
  destruct (WIFEXITED st); [|reflexivity].
  destruct (_ && _); reflexivity.
Qed.



Lemma scan_watch_unwatched ws : forall i r ls,
  existsb (fun w => pid_of cmds w =? w_ret r) ws = false ->
  scan_watch cmds (w_ret r) (w_status r) i ws ls = (ls, false).
Proof.
  induction ws as [|w ws IH]; intros i r ls H; simpl in *; [reflexivity|].
  apply orb_false_iff in H as [H1 H2]. rewrite H1. now apply IH.
Qed.

Lemma scan_watch_watched ws : forall i r ls,
  existsb (fun w => pid_of cmds w =? w_ret r) ws = true ->
  cmds_left (fst (scan_watch cmds (w_ret r) (w_status r) i ws ls)) = cmds_left ls - 1 /\
  snd (scan_watch cmds (w_ret r) (w_status r) i ws ls) = (cmds_left ls - 1 =? 0).
Proof.
  induction ws as [|w ws IH]; intros i r ls H; simpl in *; [discriminate|].
  destruct (pid_of cmds w =? w_ret r); simpl in *.
  - now rewrite record_status_cmds_left.
  - now apply IH.
Qed.

Lemma launched_not_reaped ws r :
  launched cmds ws -> reaped r = false ->
  existsb (fun w => pid_of cmds w =? w_ret r) ws = false.
Proof.
  unfold reaped; intros HL Hr.
  apply negb_false_iff, Z.eqb_eq in Hr.
  induction HL as [|w ws Hw _ IH]; simpl; [reflexivity|].
  rewrite IH, orb_false_r. apply Z.eqb_neq. congruence.
Qed.

Section Loop.

Variable watch_cmds : list nat.
Hypothesis n_watch_cmds_int : Z.of_nat (length watch_cmds) <= INT_MAX.
Hypothesis all_launched : launched cmds watch_cmds.





End Loop.

Lemma watched_exits_cons ws r rs :
  watched_exits cmds ws (r :: rs) =
  ((if is_watched cmds ws r then 1 else 0) + watched_exits cmds ws rs)%nat.
Proof.
  unfold watched_exits; simpl. destruct (is_watched cmds ws r); reflexivity.
Qed.

Lemma watched_exits_app ws rs rs' :
  watched_exits cmds ws (rs ++ rs') =
  (watched_exits cmds ws rs + watched_exits cmds ws rs')%nat.
Proof.
  unfold watched_exits. now rewrite filter_app, length_app.
Qed.


(** As long as the countdown does not reach zero, the loop reads on. *)
Lemma supervise_quiet ws pre : forall ls seen rest,
  cmds_left ls <= 0 \/ Z.of_nat (watched_exits cmds ws pre) < cmds_left ls ->
  supervise cmds ws ls true seen (map quiet pre ++ rest) =
  supervise cmds ws (run_scans cmds ws ls pre) true (seen ++ pre) rest
  /\ cmds_left (run_scans cmds ws ls pre) = cmds_left ls - Z.of_nat (watched_exits cmds ws pre).
Proof.
  induction pre as [|r pre IH]; intros ls seen rest H.
  - simpl. rewrite app_nil_r. split; [reflexivity | unfold watched_exits; simpl; lia].
  - rewrite watched_exits_cons in *.
    replace (seen ++ r :: pre) with ((seen ++ [r]) ++ pre) by now rewrite <- app_assoc.
    cbn [map app supervise negb quiet run_scans fold_left].
    fold (run_scans cmds ws (fst (scan_watch cmds (w_ret r) (w_status r) 0 ws ls)) pre).
    unfold is_watched in *.
    destruct (existsb (fun w => pid_of cmds w =? w_ret r) ws) eqn:Ew.
    + destruct (scan_watch_watched ws 0 r ls Ew) as [Hl Hd].
      destruct (scan_watch cmds (w_ret r) (w_status r) 0 ws ls) as [ls' done].
      simpl in Hl, Hd |- *.
      assert (done = false) as -> by (subst done; apply Z.eqb_neq; lia).
      destruct (IH ls' (seen ++ [r]) rest) as [IH1 IH2]; [lia|].
      split; [exact IH1 | lia].
    + rewrite (scan_watch_unwatched ws 0 r ls Ew). simpl.
      destruct (IH ls (seen ++ [r]) rest) as [IH1 IH2]; [lia|].
      split; [exact IH1 | lia].
Qed.

End ExitCode.




(** What the loop read is what [ret_seen] and [ret_rest] say. *)
Lemma supervise_reads cmds ws ticks : forall ls running seen ret,
  supervise cmds ws ls running seen ticks = Some ret ->
  exists rs, ret_seen ret = seen ++ rs /\
    match ret_path ret with
    | AllExited => running = true /\ ticks = map quiet rs ++ ret_rest ret
    | StoppedBeforeWait =>
        (running = false /\ rs = [] /\ ret_rest ret = ticks) \/
        (running = true /\ ticks = map quiet rs ++ Interrupted :: ret_rest ret)
    | StoppedAfterWait =>
        running = true /\ exists r, ticks = map quiet rs ++ Waited r true :: ret_rest ret
    end.
Proof.
  induction ticks as [|t ticks IH]; intros ls running seen ret H;
    destruct running; simpl in H; try discriminate;
    try (injection H as <-; exists []; rewrite app_nil_r; simpl; now auto).
  destruct t as [|r sig].
  - injection H as <-; exists []; rewrite app_nil_r; simpl; now auto.
  - destruct sig.
    + injection H as <-; exists []; rewrite app_nil_r; simpl. eauto.
    + destruct (scan_watch cmds (w_ret r) (w_status r) 0 ws ls) as [ls' done].
      destruct done.
      * injection H as <-; exists [r]; simpl; now auto.
      * apply IH in H as (rs & Hs & Hp). exists (r :: rs).
        rewrite Hs, <- app_assoc. split; [reflexivity|].
        destruct (ret_path ret); simpl.
        -- destruct Hp as [_ ->]; now auto.
        -- destruct Hp as [(? & _)|[_ ->]]; [discriminate | now auto].
        -- destruct Hp as [_ (r' & ->)]; eauto.
Qed.



(** C2, refuted: the first watched command to report a nonzero exit does
    not keep the recorded exit code; B reports 3 first, A (lower index)
    reports 2 later, and the loop returns 2. *)
Lemma first_reporter_is_overridden :
  ~ (forall cmds watch_cmds ticks ret,
       Z.of_nat (length watch_cmds) <= INT_MAX ->
       launched cmds watch_cmds ->
       wait_for_requested_commands_to_exit cmds watch_cmds true ticks = Some ret ->
       ret_code ret = first_reported cmds watch_cmds (ret_seen ret)).
Proof.
  intros H.
  specialize (H two_cmds [0; 1]%nat b_then_a
                (mkReturn 2 AllExited [exit_with 11 3; exit_with 10 2] [])).
  assert (Hint : Z.of_nat (length [0; 1]%nat) <= INT_MAX) by (vm_compute; discriminate).
  assert (Hl : launched two_cmds [0; 1]%nat)
    by (repeat constructor; vm_compute; discriminate).
  specialize (H Hint Hl eq_refl). vm_compute in H. discriminate H.
Qed.

Lemma scan_watch_index cmds ws : forall i r ls j,
  watch_index cmds ws (w_ret r) i = Some j ->
  fst (scan_watch cmds (w_ret r) (w_status r) i ws ls) =
  let ls1 := record_status j (w_status r) ls in
  mkLoop (cmds_left ls1 - 1) (error_code ls1) (error_code_idx ls1).
Proof.
  induction ws as [|w ws IH]; intros i r ls j H; simpl in *; [discriminate|].
  destruct (pid_of cmds w =? w_ret r).
  - now injection H as <-.
  - now apply IH.
Qed.

(** C2, amended: a nonzero normal exit reported by the watched command of
    index [j] replaces the recorded exit code exactly when [j] is lower than
    the index that supplied the recorded code ([INT_MAX] while none is
    recorded, so the first report is always taken); a later report from a
    higher index never overrides it, one from a lower index always does. *)
Theorem lower_index_overrides_recorded_code cmds watch_cmds r j ls :
  watch_index cmds watch_cmds (w_ret r) 0 = Some j ->
  WIFEXITED (w_status r) = true ->
  WEXITSTATUS (w_status r) <> 0 ->
  (j < error_code_idx ls ->
     error_code (fst (scan_watch cmds (w_ret r) (w_status r) 0 watch_cmds ls))
       = WEXITSTATUS (w_status r) /\
     error_code_idx (fst (scan_watch cmds (w_ret r) (w_status r) 0 watch_cmds ls)) = j) /\
  (error_code_idx ls <= j ->
     error_code (fst (scan_watch cmds (w_ret r) (w_status r) 0 watch_cmds ls))
       = error_code ls /\
     error_code_idx (fst (scan_watch cmds (w_ret r) (w_status r) 0 watch_cmds ls))
       = error_code_idx ls).
Proof.
  intros Hj Hex Hnz.
  rewrite (scan_watch_index cmds watch_cmds 0 r ls j Hj). simpl.
  unfold record_status. rewrite Hex.
  apply Z.eqb_neq in Hnz. rewrite Hnz. simpl.
  split; intros H.
  - apply Z.ltb_lt in H. rewrite H. simpl. now split.
  - assert (E : (j <? error_code_idx ls) = false) by (apply Z.ltb_ge; lia).
    rewrite E. now split.
Qed.

Lemma lower_index_overrides_recorded_code_witness :
  (0 < 1 ->
     error_code (fst (scan_watch two_cmds 10 512 0 [0; 1]%nat (mkLoop 1 3 1))) = 2 /\
     error_code_idx (fst (scan_watch two_cmds 10 512 0 [0; 1]%nat (mkLoop 1 3 1))) = 0) /\
  (1 <= 0 ->
     error_code (fst (scan_watch two_cmds 10 512 0 [0; 1]%nat (mkLoop 1 3 1))) = 3 /\
     error_code_idx (fst (scan_watch two_cmds 10 512 0 [0; 1]%nat (mkLoop 1 3 1))) = 1).
Proof.
  apply (lower_index_overrides_recorded_code two_cmds [0; 1]%nat
           (exit_with 10 2) 0 (mkLoop 1 3 1)).
  - reflexivity.
  - reflexivity.
  - vm_compute; discriminate.
Defined.








(** With no watched command at all the countdown starts at zero and is
    never decremented: as long as [running] stays true the loop keeps
    waiting, whatever exits it reaps. *)
Theorem empty_watch_set_never_returns cmds rs :
  wait_for_requested_commands_to_exit cmds [] true (map quiet rs) = None.
Proof.
  unfold wait_for_requested_commands_to_exit.
  destruct (supervise_quiet cmds [] rs (mkLoop (Z.of_nat (length (@nil nat))) 0 INT_MAX)
              [] []) as [Hq _].
  { left. simpl. lia. }
  rewrite app_nil_r in Hq. rewrite Hq. reflexivity.
Qed.

(** * The watched commands (lines 267-290 of [main]) *)

Lemma count_watch_filter cmds : forall n,
  count_watch cmds n = n + Z.of_nat (length (filter watch cmds)).
Proof.
  induction cmds as [|c cs IH]; intros n; simpl; [lia|].
  rewrite IH. destruct (watch c); simpl length; lia.
Qed.

Lemma no_watch_flag cmds :
  existsb watch cmds = false <-> filter watch cmds = [].
Proof.
  induction cmds as [|c cs IH]; simpl; [tauto|].
  destruct (watch c); simpl; [split; discriminate | exact IH].
Qed.

Lemma fill_watch_cmds_filter cmds : forall i,
  fill_watch_cmds cmds i =
  filter (fun j => watch (nth (j - i) cmds zero_cmd)) (seq i (length cmds)).
Proof.
  induction cmds as [|c cs IH]; intros i; [reflexivity|].
  cbn [fill_watch_cmds length seq filter].
  rewrite Nat.sub_diag. change (nth 0 (c :: cs) zero_cmd) with c.
  assert (E : filter (fun j => watch (nth (j - i) (c :: cs) zero_cmd)) (seq (S i) (length cs))
              = filter (fun j => watch (nth (j - S i) cs zero_cmd)) (seq (S i) (length cs))).
  { apply filter_ext_in. intros j Hj. apply in_seq in Hj.
    replace (j - i)%nat with (S (j - S i)) by lia. reflexivity. }
  rewrite E, <- IH. destruct (watch c); reflexivity.
Qed.

Lemma fill_watch_cmds_indices cmds :
  fill_watch_cmds cmds 0 = indices_where watch cmds.
Proof.
  rewrite fill_watch_cmds_filter. unfold indices_where.
  apply filter_ext. intros j. now rewrite Nat.sub_0_r.
Qed.

(** Lines 275-280 set the flag of exactly the non-configuring commands. *)
Lemma watch_every_command_spec cmds : forall n,
  fst (watch_every_command cmds n)
    = map (fun c => if negb (configuring c) then set_watch c true else c) cmds
  /\ snd (watch_every_command cmds n)
    = n + Z.of_nat (length (filter (fun c => negb (configuring c)) cmds)).
Proof.
  induction cmds as [|c cs IH]; intros n; simpl; [split; [reflexivity | lia]|].
  destruct (configuring c); simpl.
  - destruct (IH n) as [H1 H2]. rewrite H1, H2. split; [reflexivity | lia].
  - destruct (IH (n + 1)) as [H1 H2]. rewrite H1, H2. split; [reflexivity|].
    simpl length. lia.
Qed.

Lemma indices_where_length p cmds :
  length (indices_where p cmds) = length (filter p cmds).
Proof.
  unfold indices_where.
  assert (G : forall l i, length (filter (fun j => p (nth (j - i) l zero_cmd)) (seq i (length l)))
                          = length (filter p l)).
  { induction l as [|c cs IH]; intros i; [reflexivity|].
    cbn [length seq filter].
    rewrite Nat.sub_diag. change (nth 0 (c :: cs) zero_cmd) with c.
    assert (E : filter (fun j => p (nth (j - i) (c :: cs) zero_cmd)) (seq (S i) (length cs))
                = filter (fun j => p (nth (j - S i) cs zero_cmd)) (seq (S i) (length cs))).
    { apply filter_ext_in. intros j Hj. apply in_seq in Hj.
      replace (j - i)%nat with (S (j - S i)) by lia. reflexivity. }
    rewrite E. destruct (p c); simpl; now rewrite IH. }
  rewrite <- (G cmds 0%nat). f_equal. apply filter_ext. intros j. now rewrite Nat.sub_0_r.
Qed.

Lemma indices_where_default cmds :
  existsb watch cmds = false ->
  indices_where watch
    (map (fun c => if negb (configuring c) then set_watch c true else c) cmds)
  = indices_where (fun c => negb (configuring c)) cmds.
Proof.
  intros Hnone. unfold indices_where. rewrite length_map.
  apply filter_ext_in. intros j Hj. apply in_seq in Hj.
  set (f := fun c => if negb (configuring c) then set_watch c true else c).
  rewrite (nth_indep _ zero_cmd (f zero_cmd)) by (rewrite length_map; lia).
  rewrite map_nth. unfold f.
  assert (Hin : In (nth j cmds zero_cmd) cmds) by (apply nth_In; lia).
  destruct (configuring (nth j cmds zero_cmd)) eqn:Ec; simpl; [|reflexivity].
  destruct (watch (nth j cmds zero_cmd)) eqn:Ew; [|reflexivity].
  assert (existsb watch cmds = true) by (apply existsb_exists; eauto).
  congruence.
Qed.

(** C8: when no command is marked watched, the watched commands are
    exactly the non-configuring commands, in the order of the command set;
    when at least one is marked, they are exactly the marked commands; and
    [n_watch_cmds] is their number. *)
Theorem watch_set_derivation cmds :
  snd (fst (select_watch_cmds cmds))
    = (if existsb watch cmds then indices_where watch cmds
       else indices_where (fun c => negb (configuring c)) cmds)
  /\ snd (select_watch_cmds cmds)
    = Z.of_nat (length (snd (fst (select_watch_cmds cmds)))).
Proof.
  unfold select_watch_cmds.
  rewrite count_watch_filter, Z.add_0_l.
  destruct (existsb watch cmds) eqn:Ew.
  - assert (Hne : filter watch cmds <> []).
    { intros H. apply no_watch_flag in H. congruence. }
    assert (E : (0 =? Z.of_nat (length (filter watch cmds))) = false).
    { apply Z.eqb_neq. destruct (filter watch cmds); [congruence | simpl; lia]. }
    rewrite E. cbn [fst snd]. rewrite fill_watch_cmds_indices.
    split; [reflexivity|]. now rewrite indices_where_length.
  - pose proof (proj1 (no_watch_flag cmds) Ew) as Hnil.
    rewrite Hnil. cbn [length Z.of_nat Z.eqb].
    destruct (watch_every_command_spec cmds 0) as [H1 H2].
    rewrite H1, H2, fill_watch_cmds_indices, indices_where_default by exact Ew.
    cbn [fst snd]. split; [reflexivity|]. rewrite indices_where_length. lia.
Qed.

(** The watched commands are listed by increasing index: the order of
    [watch_cmds] is the order of the command set. *)
Lemma seq_increasing n : forall a, StronglySorted lt (seq a n).
Proof.
  induction n as [|n IH]; intros a; simpl; constructor; [apply IH|].
  apply Forall_forall. intros x Hx. apply in_seq in Hx. lia.
Qed.

Lemma filter_increasing (f : nat -> bool) l :
  StronglySorted lt l -> StronglySorted lt (filter f l).
Proof.
  induction 1 as [|a l Hs IH Ha]; simpl; [constructor|].
  destruct (f a); [|exact IH]. constructor; [exact IH|].
  apply Forall_forall. intros x Hx. apply filter_In in Hx as [Hx _].
  rewrite Forall_forall in Ha. now apply Ha.
Qed.

Lemma watch_set_derivation_order cmds :
  snd (fst (select_watch_cmds cmds)) = indices_where watch cmds \/
  snd (fst (select_watch_cmds cmds))
    = indices_where (fun c => negb (configuring c)) cmds.
Proof.
  unfold select_watch_cmds. cbn [fst snd].
  rewrite count_watch_filter, Z.add_0_l.
  destruct (filter watch cmds) as [|c l] eqn:E.
  - right. cbn [length Z.of_nat Z.eqb].
    destruct (watch_every_command_spec cmds 0) as [H1 _].
    rewrite H1, fill_watch_cmds_indices. apply indices_where_default.
    now apply no_watch_flag.
  - left. assert (E0 : (0 =? Z.of_nat (length (c :: l))) = false)
      by (apply Z.eqb_neq; simpl length; lia).
    rewrite E0. apply fill_watch_cmds_indices.
Qed.

Lemma watch_cmds_increasing cmds :
  StronglySorted lt (snd (fst (select_watch_cmds cmds))).
Proof.
  destruct (watch_set_derivation_order cmds) as [-> | ->];
    apply filter_increasing, seq_increasing.
Qed.

(** * The phases of [main] *)

Lemma static_same_refl w : static_same w w.
Proof. repeat split. Qed.

Lemma static_same_trans w1 w2 w3 :
  static_same w1 w2 -> static_same w2 w3 -> static_same w1 w3.
Proof.
  intros (A1 & A2 & A3) (B1 & B2 & B3). repeat split; congruence.
Qed.

Lemma extends_refl st : extends st st [].
Proof.
  split; [now rewrite app_nil_r | split; [reflexivity | apply static_same_refl]].
Qed.

Lemma extends_trans st1 st2 st3 d1 d2 :
  extends st1 st2 d1 -> extends st2 st3 d2 -> extends st1 st3 (d1 ++ d2).
Proof.
  intros (A1 & A2 & A3) (B1 & B2 & B3). split; [|split].
  - now rewrite B1, A1, app_assoc.
  - congruence.
  - eapply static_same_trans; eassumption.
Qed.

Lemma extends_log st a : extends st (log a st) [a].
Proof. repeat split. Qed.

(** An element that is not in the first part of a list lies in the rest. *)
Lemma split_after (A : Type) (P : A -> Prop) (x : A) : forall front rest pre post,
  Forall P front -> ~ P x ->
  front ++ rest = pre ++ x :: post ->
  exists l, pre = front ++ l /\ rest = l ++ x :: post.
Proof.
  induction front as [|a front IH]; intros rest pre post HF Hx E.
  - exists pre. split; [reflexivity | exact E].
  - inversion HF as [|? ? Ha HF']; subst.
    destruct pre as [|b pre]; simpl in E.
    + injection E as -> _. contradiction.
    + injection E as <- E.
      destruct (IH rest pre post HF' Hx E) as (l & -> & ->).
      exists l. split; reflexivity.
Qed.

(** ** Handlers *)

Lemma install_spec st :
  (install_term_and_int_handlers st
     = (Ret tt, mkProc (running st) (alarm_exit_code st) (trace st ++ installs) (os st))
   /\ sigaction_fails (os st) SIGINT = false
   /\ sigaction_fails (os st) SIGTERM = false)
  \/ (exists d, fst (install_term_and_int_handlers st) = Exit 1
        /\ extends st (snd (install_term_and_int_handlers st)) d
        /\ Forall (fun a => exists s h f, a = Sigaction s h f) d).
Proof.
  unfold install_term_and_int_handlers, bind, sigaction, perror_die, exit, ret, log.
  cbn [os]. unfold installs.
  destruct (sigaction_fails (os st) SIGINT) eqn:E1; cbn.
  { right. eexists. split; [reflexivity|]. split; [repeat split|].
    repeat constructor; eauto. }
  destruct (sigaction_fails (os st) SIGTERM) eqn:E2; cbn.
  { right. eexists. split; [reflexivity|]. split.
    - split; [|split; [reflexivity | apply static_same_refl]].
      cbn. rewrite <- app_assoc. reflexivity.
    - repeat constructor; eauto. }
  destruct (sigaction_fails (os st) SIGALRM) eqn:E3; cbn.
  { right. eexists. split; [reflexivity|]. split.
    - split; [|split; [reflexivity | apply static_same_refl]].
      cbn. rewrite <- !app_assoc. reflexivity.
    - repeat constructor; eauto. }
  left. rewrite <- !app_assoc. auto.
Qed.

Lemma remove_spec st :
  sigaction_fails (os st) SIGINT = false ->
  sigaction_fails (os st) SIGTERM = false ->
  remove_term_and_int_handlers st
  = (Ret tt, mkProc (running st) (alarm_exit_code st)
               (trace st ++ [Sigaction SIGINT SIG_IGN false; Sigaction SIGTERM SIG_IGN false])
               (os st)).
Proof.
  intros E1 E2.
  unfold remove_term_and_int_handlers, bind, sigaction, ret, log. cbn [os].
  rewrite E1. cbn. rewrite E2. cbn. now rewrite <- app_assoc.
Qed.

(** ** Launching *)

Lemma run_proc_spec argv st o st' :
  run_proc argv st = (o, st') ->
  alarm_exit_code st' = alarm_exit_code st /\
  configure_waits (os st') = configure_waits (os st) /\
  main_ticks (os st') = main_ticks (os st) /\
  drain_ticks (os st') = drain_ticks (os st) /\
  ((exists p, o = Ret p /\ extends st st' [Fork argv p]) \/
   (o = Child argv /\ extends st st' [])).
Proof.
  unfold run_proc, bind, fork.
  destruct (forks (os st)) as [|p rest] eqn:Ef.
  - cbn. intros H; injection H as <- <-. cbn.
    repeat split; auto. left. eexists; split; [reflexivity | apply extends_log].
  - destruct (p =? 0) eqn:Ep; cbn; intros H; injection H as <- <-; cbn.
    + repeat split; auto. right. split; [reflexivity|].
      split; [now rewrite app_nil_r | repeat split].
    + repeat split; auto. left. eexists; split; [reflexivity|]. repeat split.
Qed.

Lemma same_commands_refl cmds : same_commands cmds cmds.
Proof. induction cmds; constructor; auto. Qed.

Lemma same_commands_trans c1 c2 c3 :
  same_commands c1 c2 -> same_commands c2 c3 -> same_commands c1 c3.
Proof.
  intros H; revert c3. induction H as [|a b l l' [H1 H2] _ IH]; intros c3 H'.
  - inversion H'. constructor.
  - inversion H' as [|? c ? l3 [H3 H4] Hr]; subst. constructor.
    + split; congruence.
    + now apply IH.
Qed.

Lemma same_commands_configuring cmds cmds' :
  same_commands cmds cmds' ->
  map args (filter configuring cmds') = map args (filter configuring cmds).
Proof.
  induction 1 as [|c c' l l' [Ha Hc] _ IH]; simpl; [reflexivity|].
  rewrite Hc. destruct (configuring c); simpl; [rewrite Ha, IH|]; auto.
Qed.

Lemma same_commands_none cmds cmds' :
  same_commands cmds cmds' -> filter configuring cmds = [] -> filter configuring cmds' = [].
Proof.
  intros H E. apply same_commands_configuring in H. rewrite E in H.
  destruct (filter configuring cmds'); [reflexivity | discriminate].
Qed.

Lemma Forall_before_main_cons c cmds d :
  Forall (before_main cmds) d -> Forall (before_main (c :: cmds)) d.
Proof.
  apply Forall_impl. intros [s h f|argv p|r|n|t s]; simpl; auto.
  destruct (configuring c); simpl; auto.
Qed.

(** Lines 167-173 launch the commands marked configuring, in order, and
    nothing else. *)
Lemma start_configure_cmds_spec cmds : forall n st o st',
  start_configure_cmds cmds n st = (o, st') ->
  alarm_exit_code st' = alarm_exit_code st /\
  configure_waits (os st') = configure_waits (os st) /\
  main_ticks (os st') = main_ticks (os st) /\
  drain_ticks (os st') = drain_ticks (os st) /\
  exists d, extends st st' d /\ Forall (before_main cmds) d /\
    ((exists argv, o = Child argv) \/
     (exists cmds', o = Ret (cmds', n + Z.of_nat (length (filter configuring cmds))) /\
        same_commands cmds cmds' /\ d = launches (filter configuring cmds'))).
Proof.
  induction cmds as [|c cs IH]; intros n st o st' H.
  - cbn in H. injection H as <- <-. repeat split; auto.
    exists []. split; [apply extends_refl|]. split; [constructor|].
    right. exists []. cbn. rewrite Z.add_0_r. repeat split. constructor.
  - cbn [start_configure_cmds] in H.
    destruct (configuring c) eqn:Ec; cbn [negb] in H; unfold bind in H.
    + destruct (run_proc (args c) st) as [o1 st1] eqn:E1.
      apply run_proc_spec in E1 as (A1 & A2 & A3 & A4 & A5).
      destruct A5 as [(p & -> & Hext) | (-> & Hext)].
      * destruct (start_configure_cmds cs (n + 1) st1) as [o2 st2] eqn:E2.
        apply IH in E2 as (B1 & B2 & B3 & B4 & d & Hext2 & HF & Hcase).
        assert (HF' : Forall (before_main (c :: cs)) (Fork (args c) p :: d)).
        { constructor; [simpl; rewrite Ec; now left | now apply Forall_before_main_cons]. }
        destruct Hcase as [(argv & ->) | (cmds' & -> & Hsame & Hd)].
        -- injection H as <- <-. repeat split; try congruence.
           exists ([Fork (args c) p] ++ d). split; [eapply extends_trans; eauto|].
           split; [exact HF' | left; eauto].
        -- cbn in H. injection H as <- <-. repeat split; try congruence.
           exists ([Fork (args c) p] ++ d). split; [eapply extends_trans; eauto|].
           split; [exact HF'|]. right.
           exists (set_pid c p :: cmds'). cbn. rewrite Ec. cbn [length].
           split; [f_equal; f_equal; lia|]. split.
           ++ constructor; [split; reflexivity | exact Hsame].
           ++ now rewrite Hd.
      * injection H as <- <-. repeat split; try congruence.
        exists []. split; [exact Hext|]. split; [constructor | left; eauto].
    + destruct (start_configure_cmds cs n st) as [o2 st2] eqn:E2.
      apply IH in E2 as (B1 & B2 & B3 & B4 & d & Hext2 & HF & Hcase).
      destruct Hcase as [(argv & ->) | (cmds' & -> & Hsame & Hd)].
      * injection H as <- <-. repeat split; try congruence.
        exists d. split; [exact Hext2|].
        split; [now apply Forall_before_main_cons | left; eauto].
      * cbn in H. injection H as <- <-. repeat split; try congruence.
        exists d. split; [exact Hext2|].
        split; [now apply Forall_before_main_cons|]. right.
        exists (c :: cmds'). cbn. rewrite Ec.
        split; [reflexivity|]. split; [|exact Hd].
        constructor; [split; reflexivity | exact Hsame].
Qed.

(** ** Waiting until no child is left *)

Lemma wait_until_no_children_spec ws : forall st o rest st',
  wait_until_no_children ws st = (o, rest, st') ->
  running st' = running st /\ alarm_exit_code st' = alarm_exit_code st /\
  os st' = os st /\
  exists seen, ws = seen ++ rest /\ trace st' = trace st ++ map Waitpid seen /\
    ((o = Ret tt /\ complete_drain seen) \/
     (o = Pending /\ rest = [] /\ Forall (fun r => no_child_left r = false) seen)).
Proof.
  induction ws as [|r ws IH]; intros st o rest st' H; cbn in H.
  - injection H as <- <- <-. repeat split; auto.
    exists []. cbn. rewrite app_nil_r. repeat split. right. repeat split. constructor.
  - fold (no_child_left r) in H. destruct (no_child_left r) eqn:Er.
    + injection H as <- <- <-. repeat split; auto.
      exists [r]. repeat split. left. split; [reflexivity|].
      exists [], r. repeat split; auto.
    + apply IH in H as (A1 & A2 & A3 & seen & -> & Ht & Hcase).
      repeat split; auto.
      exists (r :: seen). split; [reflexivity|]. split.
      * rewrite Ht. cbn. now rewrite <- app_assoc.
      * destruct Hcase as [(-> & before & last & -> & HF & Hl) | (-> & -> & HF)].
        -- left. split; [reflexivity|]. exists (r :: before), last.
           repeat split; auto.
        -- right. repeat split; auto.
Qed.

(** ** The configure phase (lines 165-184) *)

Lemma run_configure_cmds_spec cmds st o st' :
  run_configure_cmds cmds st = (o, st') ->
  alarm_exit_code st' = alarm_exit_code st /\
  main_ticks (os st') = main_ticks (os st) /\
  drain_ticks (os st') = drain_ticks (os st) /\
  exists d, extends st st' d /\ Forall (before_main cmds) d /\
    ((exists argv, o = Child argv) \/ o = Pending \/
     (exists cmds' ws, o = Ret cmds' /\ same_commands cmds cmds' /\
        d = launches (filter configuring cmds') ++ map Waitpid ws /\
        (filter configuring cmds = [] -> ws = []) /\
        (filter configuring cmds <> [] -> complete_drain ws))).
Proof.
  unfold run_configure_cmds, bind. intros H.
  destruct (start_configure_cmds cmds 0 st) as [o1 st1] eqn:E1.
  apply start_configure_cmds_spec in E1 as (A1 & A2 & A3 & A4 & d & Hext & HF & Hcase).
  destruct Hcase as [(argv & ->) | (cmds' & -> & Hsame & Hd)].
  { injection H as <- <-. repeat split; auto. exists d. repeat split; try apply Hext; eauto. }
  cbn [fst snd] in H. rewrite Z.add_0_l in H.
  destruct (filter configuring cmds) as [|c0 l0] eqn:Ef.
  - cbn in H. injection H as <- <-. repeat split; auto.
    exists d. split; [exact Hext|]. split; [exact HF|]. right; right.
    exists cmds', []. cbn. rewrite app_nil_r. repeat split; auto. congruence.
  - assert (En : negb (Z.of_nat (length (c0 :: l0)) =? 0) = true).
    { apply negb_true_iff, Z.eqb_neq. cbn [length]. lia. }
    rewrite En in H.
    destruct (wait_until_no_children (configure_waits (os st1)) st1)
      as [[o2 rest] st2] eqn:E2.
    apply wait_until_no_children_spec in E2
      as (B1 & B2 & B3 & seen & Hws & Ht & Hcase).
    assert (Hext2 : forall w, static_same (os st1) w ->
              extends st (set_os w st2) (d ++ map Waitpid seen)).
    { intros w Hw. destruct Hext as (X1 & X2 & X3). split; [|split].
      - cbn. now rewrite Ht, X1, app_assoc.
      - cbn. congruence.
      - cbn. eapply static_same_trans; eauto. }
    assert (Hst : static_same (os st1) (set_configure_waits (os st2) rest)).
    { rewrite B3. repeat split. }
    assert (HF2 : Forall (before_main cmds) (d ++ map Waitpid seen)).
    { apply Forall_app. split; [exact HF|].
      apply Forall_forall. intros a Ha. apply in_map_iff in Ha as (r & <- & _).
      exact I. }
    destruct Hcase as [(-> & Hcd) | (-> & -> & _)].
    + injection H as <- <-.
      split; [cbn; congruence|]. split; [cbn; congruence|]. split; [cbn; congruence|].
      exists (d ++ map Waitpid seen). split; [apply Hext2; exact Hst|].
      split; [exact HF2|]. right; right. exists cmds', seen.
      split; [reflexivity|]. split; [exact Hsame|]. split; [congruence|].
      split; [intros E; discriminate E | intros _; exact Hcd].
    + injection H as <- <-.
      split; [cbn; congruence|]. split; [cbn; congruence|]. split; [cbn; congruence|].
      exists (d ++ map Waitpid seen). split; [apply Hext2; exact Hst|].
      split; [exact HF2|]. right; left. reflexivity.
Qed.

(** ** The main phase *)

Lemma run_cmds_spec cmds : forall st o st',
  run_cmds cmds st = (o, st') ->
  alarm_exit_code st' = alarm_exit_code st /\
  main_ticks (os st') = main_ticks (os st) /\
  drain_ticks (os st') = drain_ticks (os st) /\
  exists d, extends st st' d /\ Forall launch_or_wait d /\
    ((exists argv, o = Child argv) \/ (exists cmds', o = Ret cmds')).
Proof.
  induction cmds as [|c cs IH]; intros st o st' H.
  - cbn in H. injection H as <- <-. repeat split; auto.
    exists []. split; [apply extends_refl|]. split; [constructor | right; eauto].
  - cbn [run_cmds] in H. destruct (configuring c); cbn [negb] in H; unfold bind in H.
    + destruct (run_cmds cs st) as [o2 st2] eqn:E2.
      apply IH in E2 as (B1 & B2 & B3 & d & Hext & HF & Hcase).
      destruct Hcase as [(argv & ->) | (cmds' & ->)]; cbn in H;
        injection H as <- <-; repeat split; auto; exists d; eauto.
    + destruct (run_proc (args c) st) as [o1 st1] eqn:E1.
      apply run_proc_spec in E1 as (A1 & A2 & A3 & A4 & A5).
      destruct A5 as [(p & -> & Hext) | (-> & Hext)].
      * destruct (run_cmds cs st1) as [o2 st2] eqn:E2.
        apply IH in E2 as (B1 & B2 & B3 & d & Hext2 & HF & Hcase).
        assert (HF' : Forall launch_or_wait ([Fork (args c) p] ++ d))
          by (constructor; [exact I | exact HF]).
        destruct Hcase as [(argv & ->) | (cmds' & ->)]; cbn in H;
          injection H as <- <-; (repeat split; try congruence);
          exists ([Fork (args c) p] ++ d);
          (split; [eapply extends_trans; eauto | split; [exact HF' | eauto]]).
      * injection H as <- <-. repeat split; try congruence.
        exists []. split; [exact Hext|]. split; [constructor | left; eauto].
Qed.

Lemma wait_for_requested_commands_spec cmds watch_cmds st o st' :
  wait_for_requested_commands cmds watch_cmds st = (o, st') ->
  alarm_exit_code st' = alarm_exit_code st /\
  drain_ticks (os st') = drain_ticks (os st) /\
  static_same (os st) (os st') /\
  (exists ws, trace st' = trace st ++ map Waitpid ws) /\
  (o = Pending \/
   exists r, o = Ret (ret_code r) /\
     wait_for_requested_commands_to_exit cmds watch_cmds (running st)
       (main_ticks (os st)) = Some r).
Proof.
  unfold wait_for_requested_commands. intros H.
  destruct (wait_for_requested_commands_to_exit cmds watch_cmds (running st)
              (main_ticks (os st))) as [r|] eqn:E;
    injection H as <- <-; cbn; repeat split; eauto.
Qed.

Lemma drain_spec ds : forall st o rest st',
  drain ds st = (o, rest, st') ->
  running st' = running st /\ alarm_exit_code st' = alarm_exit_code st /\
  os st' = os st /\
  exists seen, trace st' = trace st ++ map Waitpid seen /\
    (o = Ret tt \/ o = Pending \/ o = Exit (alarm_exit_code st)).
Proof.
  induction ds as [|t ds IH]; intros st o rest st' H; cbn in H.
  - injection H as <- <- <-. repeat split; auto.
    exists []. cbn. rewrite app_nil_r. auto.
  - destruct t as [r|].
    + destruct ((w_ret r =? -1) && (w_errno r =? ECHILD)).
      * injection H as <- <- <-. repeat split; auto. exists [r]. auto.
      * apply IH in H as (A1 & A2 & A3 & seen & Ht & Hcase).
        repeat split; auto. exists (r :: seen). split; [|exact Hcase].
        rewrite Ht. cbn. now rewrite <- app_assoc.
    + injection H as <- <- <-. repeat split; auto.
      exists []. cbn. rewrite app_nil_r. auto.
Qed.


Lemma wait_for_all_processes_to_exit_spec code st o st' :
  wait_for_all_processes_to_exit code st = (o, st') ->
  exists ws, trace st' = trace st ++ map Waitpid ws.
Proof.
  unfold wait_for_all_processes_to_exit. intros H.
  destruct (drain (drain_ticks (os (set_alarm_exit_code code st)))
              (set_alarm_exit_code code st)) as [[o1 rest] st2] eqn:E.
  injection H as <- <-.
  apply drain_spec in E as (_ & _ & _ & seen & Ht & _).
  exists seen. exact Ht.
Qed.

(** Lines 297-305: launches and waits, then, if the loop returns, the
    shutdown and the waits of the final drain. *)
Lemma supervise_and_shut_down_trace cmds watch_cmds opts st o st' :
  supervise_and_shut_down cmds watch_cmds opts st = (o, st') ->
  sigaction_fails (os st) SIGINT = false ->
  sigaction_fails (os st) SIGTERM = false ->
  exists d, Forall launch_or_wait d /\
    (trace st' = trace st ++ d \/
     exists ws, trace st' = trace st ++ d ++ shutdown opts ++ map Waitpid ws).
Proof.
  unfold supervise_and_shut_down, bind. intros H F1 F2.
  destruct (run_cmds cmds st) as [o1 st1] eqn:E1.
  apply run_cmds_spec in E1 as (_ & _ & _ & d1 & (Ht1 & _ & S1) & HF1 & Hcase).
  destruct Hcase as [(argv & ->) | (cmds' & ->)].
  { injection H as <- <-. exists d1. auto. }
  destruct (wait_for_requested_commands cmds' watch_cmds st1) as [o2 st2] eqn:E2.
  apply wait_for_requested_commands_spec in E2 as (_ & _ & S2 & (ws & Ht2) & Hcase).
  assert (HF2 : Forall launch_or_wait (d1 ++ map Waitpid ws)).
  { apply Forall_app. split; [exact HF1|]. apply Forall_forall.
    intros a Ha. apply in_map_iff in Ha as (r & <- & _). exact I. }
  destruct Hcase as [-> | (r & -> & _)].
  { injection H as <- <-. exists (d1 ++ map Waitpid ws). split; [exact HF2|]. left.
    now rewrite Ht2, Ht1, app_assoc. }
  destruct (static_same_trans _ _ _ S1 S2) as (_ & Sf & _).
  rewrite remove_spec in H by (rewrite Sf; assumption).
  unfold alarm, kill in H. cbn [log running alarm_exit_code trace os] in H.
  match type of H with
  | context [wait_for_all_processes_to_exit ?c ?s] =>
      destruct (wait_for_all_processes_to_exit c s) as [o3 st3] eqn:E3
  end.
  apply wait_for_all_processes_to_exit_spec in E3 as (ws' & Ht3).
  cbn [trace log] in Ht3.
  exists (d1 ++ map Waitpid ws). split; [exact HF2|]. right. exists ws'.
  assert (Ht : trace st3 = trace st ++ (d1 ++ map Waitpid ws) ++ shutdown opts ++ map Waitpid ws').
  { rewrite Ht3, Ht2, Ht1. unfold shutdown. rewrite <- !app_assoc. reflexivity. }
  clear Ht3.
  destruct o3; cbn in H; injection H as <- <-; exact Ht.
Qed.

(** ** [main] after parsing *)

Lemma watch_every_command_same cmds : forall n,
  same_commands cmds (fst (watch_every_command cmds n)).
Proof.
  induction cmds as [|c cs IH]; intros n; cbn; [constructor|].
  destruct (configuring c); cbn; (constructor; [split; reflexivity | apply IH]).
Qed.

Lemma select_watch_cmds_same cmds :
  same_commands cmds (fst (fst (select_watch_cmds cmds))).
Proof.
  unfold select_watch_cmds. cbn [fst].
  destruct (0 =? count_watch cmds 0);
    [apply watch_every_command_same | apply same_commands_refl].
Qed.

Lemma before_main_same cmds cmds' d :
  same_commands cmds cmds' ->
  Forall (before_main cmds') d -> Forall (before_main cmds) d.
Proof.
  intros Hs. apply Forall_impl. intros [s h f|argv p|r|n|t s]; simpl; auto.
  now rewrite (same_commands_configuring _ _ Hs).
Qed.

Lemma before_main_installs cmds : Forall (before_main cmds) installs.
Proof. repeat constructor. Qed.

Lemma before_main_launches cmds cmds' :
  same_commands cmds cmds' ->
  Forall (before_main cmds) (launches (filter configuring cmds')).
Proof.
  intros Hs. apply Forall_forall. intros a Ha.
  apply in_map_iff in Ha as (c & <- & Hc). simpl.
  rewrite <- (same_commands_configuring _ _ Hs). now apply in_map.
Qed.

Lemma before_main_waits cmds ws : Forall (before_main cmds) (map Waitpid ws).
Proof.
  apply Forall_forall. intros a Ha. apply in_map_iff in Ha as (r & <- & _). exact I.
Qed.

(** A run of [main] after parsing either ends before the main phase, with
    nothing in its log but handler installation, launches of commands marked
    configuring and waits, or it completes the configure phase and goes on
    with lines 297-305. *)
Lemma run_parsed_trace cmds opts st o st' :
  run_parsed cmds opts st = (o, st') ->
  (exists d, trace st' = trace st ++ d /\ Forall (before_main cmds) d)
  \/ (exists cmds2 ws st2,
        same_commands cmds cmds2 /\
        trace st2 = trace st ++ installs ++ launches (filter configuring cmds2)
                      ++ map Waitpid ws /\
        (filter configuring cmds = [] -> ws = []) /\
        (filter configuring cmds <> [] -> complete_drain ws) /\
        sigaction_fails (os st2) SIGINT = false /\
        sigaction_fails (os st2) SIGTERM = false /\
        supervise_and_shut_down cmds2 (snd (fst (select_watch_cmds cmds))) opts st2
          = (o, st')).
Proof.
  unfold run_parsed. intros H.
  pose proof (select_watch_cmds_same cmds) as Hsel.
  destruct (select_watch_cmds cmds) as [[cmds1 watch_cmds] n]. cbn [fst snd] in *.
  unfold bind in H.
  destruct (install_spec st) as [(E & F1 & F2) | (d & E1 & Hext & HF)].
  2:{ destruct (install_term_and_int_handlers st) as [o1 st1]. cbn in E1, Hext.
      subst o1. injection H as <- <-. left. exists d. split; [apply Hext|].
      eapply Forall_impl; [|exact HF]. intros a (s & h & f & ->). exact I. }
  rewrite E in H. clear E.
  set (st1 := mkProc (running st) (alarm_exit_code st) (trace st ++ installs) (os st)) in *.
  destruct (run_configure_cmds cmds1 st1) as [o2 st2] eqn:E2.
  apply run_configure_cmds_spec in E2 as (_ & _ & _ & d & (Ht & Hr & Hs) & HF & Hcase).
  subst st1. cbn [trace running os] in Ht, Hr, Hs.
  assert (HF' : Forall (before_main cmds) (installs ++ d)).
  { apply Forall_app. split; [apply before_main_installs|].
    eapply before_main_same; eauto. }
  destruct Hcase as [(argv & ->) | [-> | (cmds2 & ws & -> & Hsame & Hd & Hnone & Hsome)]].
  { injection H as <- <-. left. exists (installs ++ d).
    split; [now rewrite Ht, <- app_assoc | exact HF']. }
  { injection H as <- <-. left. exists (installs ++ d).
    split; [now rewrite Ht, <- app_assoc | exact HF']. }
  unfold deliver in H. cbn [fst snd] in H.
  pose proof (same_commands_trans _ _ _ Hsel Hsame) as Hsame2.
  destruct (configure_signal (os st2)).
  - cbn in H. injection H as <- <-. left. exists (installs ++ d).
    split; [cbn; now rewrite Ht, <- app_assoc | exact HF'].
  - destruct (running st2) eqn:Er.
    + right. exists cmds2, ws, st2. split; [exact Hsame2|].
      split; [rewrite Ht, Hd, <- !app_assoc; reflexivity|].
      split; [intros E; apply Hnone; eapply same_commands_none;
              [exact Hsel | exact E]|].
      split.
      { intros Hne. apply Hsome. intros E. apply Hne.
        pose proof (same_commands_configuring _ _ Hsel) as Hm. rewrite E in Hm.
        destruct (filter configuring cmds); [reflexivity | discriminate]. }
      destruct Hs as (_ & Sf & _). rewrite Sf. auto.
    + cbn in H. injection H as <- <-. left. exists (installs ++ d).
      split; [now rewrite Ht, <- app_assoc | exact HF'].
Qed.

(** * Ordering of the phases *)

Lemma start_configure_cmds_none cmds : forall n st,
  filter configuring cmds = [] ->
  start_configure_cmds cmds n st = (Ret (cmds, n), st).
Proof.
  induction cmds as [|c cs IH]; intros n st H; cbn; [reflexivity|].
  cbn in H. destruct (configuring c); [discriminate|]. cbn.
  unfold bind. now rewrite IH.
Qed.

Lemma run_configure_cmds_none cmds st :
  filter configuring cmds = [] -> run_configure_cmds cmds st = (Ret cmds, st).
Proof.
  intros H. unfold run_configure_cmds, bind.
  now rewrite start_configure_cmds_none.
Qed.

Lemma main_not_parsed w argv :
  (length argv =? 1)%nat = true \/
  (forall r, parse_argv (my_pid w) argv <> Parsed r) ->
  trace (snd (main w argv)) = [].
Proof.
  unfold main. intros [-> | H]; [reflexivity|].
  destruct (length argv =? 1)%nat; [reflexivity|].
  destruct (parse_argv (my_pid w) argv) as [r| | |]; try reflexivity.
  now destruct (H r).
Qed.

Lemma main_parsed w argv cmds opts mem :
  (length argv =? 1)%nat = false ->
  parse_argv (my_pid w) argv = Parsed (cmds, opts, mem) ->
  main w argv = run_parsed cmds opts (init_proc w).
Proof. unfold main. now intros -> ->. Qed.

Lemma before_main_not_kill cmds a : before_main cmds a -> is_kill a = false.
Proof. destruct a; simpl; auto; contradiction. Qed.

Lemma launch_or_wait_not_kill a : launch_or_wait a -> is_kill a = false.
Proof. destruct a; simpl; auto; contradiction. Qed.

(** C9: whenever the termination signal is broadcast, the three calls
    logged just before it are the reverting of the SIGINT handler to
    "ignore", the reverting of the SIGTERM handler to "ignore", both
    successful, and the arming of the alarm; the signal is SIGTERM, sent to
    the process group (0) or to every process (-1) according to [-a]; all
    that follows are waits. *)
Theorem handlers_removed_before_broadcast w argv pre target s post :
  trace (snd (main w argv)) = pre ++ Kill target s :: post ->
  exists l cmds opts mem,
    parse_argv (my_pid w) argv = Parsed (cmds, opts, mem) /\
    pre = l ++ [Sigaction SIGINT SIG_IGN false; Sigaction SIGTERM SIG_IGN false;
                Alarm WAIT_FOR_PROC_DEATH_TIMEOUT] /\
    s = SIGTERM /\
    target = (if signal_everything opts then -1 else 0) /\
    Forall (fun a => is_wait a = true) post.
Proof.
  intros Htrace.
  destruct (length argv =? 1)%nat eqn:Eargc.
  { rewrite main_not_parsed in Htrace by now left. now destruct pre. }
  destruct (parse_argv (my_pid w) argv) as [[[cmds opts] mem]| | |] eqn:Hparse;
    try (rewrite main_not_parsed in Htrace
           by (right; intros r; rewrite Hparse; discriminate);
         now destruct pre).
  rewrite (main_parsed w argv cmds opts mem Eargc Hparse) in Htrace.
  destruct (run_parsed cmds opts (init_proc w)) as [o st'] eqn:Erun.
  cbn [snd] in Htrace.
  apply run_parsed_trace in Erun
    as [(d & Ht & HF) | (cmds2 & ws & st2 & Hsame & Ht2 & _ & _ & F1 & F2 & Hsup)].
  { exfalso. rewrite Ht in Htrace. cbn in Htrace.
    assert (Hin : In (Kill target s) d) by (rewrite Htrace; apply in_elt).
    rewrite Forall_forall in HF. apply HF in Hin. exact Hin. }
  assert (HF0 : Forall (fun a => is_kill a = false)
            (installs ++ launches (filter configuring cmds2) ++ map Waitpid ws)).
  { eapply Forall_impl; [apply (before_main_not_kill cmds)|].
    apply Forall_app. split; [apply before_main_installs|].
    apply Forall_app. split; [now apply before_main_launches | apply before_main_waits]. }
  cbn [trace init_proc] in Ht2. rewrite app_nil_l in Ht2.
  apply supervise_and_shut_down_trace in Hsup as (d & HFd & Hcase); try assumption.
  assert (HFd' : Forall (fun a => is_kill a = false) d).
  { eapply Forall_impl; [apply launch_or_wait_not_kill | exact HFd]. }
  destruct Hcase as [Ht | (ws' & Ht)]; rewrite Ht, Ht2 in Htrace.
  { exfalso.
    assert (Hin : In (Kill target s)
              ((installs ++ launches (filter configuring cmds2) ++ map Waitpid ws) ++ d))
      by (rewrite Htrace; apply in_elt).
    assert (HFall := proj2 (Forall_app _ _ _) (conj HF0 HFd')).
    rewrite Forall_forall in HFall. apply HFall in Hin. discriminate Hin. }
  set (front := (installs ++ launches (filter configuring cmds2) ++ map Waitpid ws) ++ d
                ++ [Sigaction SIGINT SIG_IGN false; Sigaction SIGTERM SIG_IGN false;
                    Alarm WAIT_FOR_PROC_DEATH_TIMEOUT]).
  assert (Hfront : Forall (fun a => is_kill a = false) front).
  { unfold front. apply Forall_app. split; [exact HF0|].
    apply Forall_app. split; [exact HFd' | repeat constructor]. }
  assert (E : front ++ (Kill (if signal_everything opts then -1 else 0) SIGTERM
                          :: map Waitpid ws') = pre ++ Kill target s :: post).
  { rewrite <- Htrace. unfold front, shutdown. rewrite <- !app_assoc. reflexivity. }
  destruct (split_after _ (fun a => is_kill a = false) (Kill target s) _ _ _ _ Hfront
              ltac:(discriminate) E) as (l & Hpre & Hrest).
  destruct l as [|a l]; cbn in Hrest.
  - injection Hrest as <- <- <-.
    exists ((installs ++ launches (filter configuring cmds2) ++ map Waitpid ws) ++ d),
      cmds, opts, mem.
    split; [reflexivity|]. split.
    { rewrite Hpre, app_nil_r. unfold front. now rewrite <- !app_assoc. }
    split; [reflexivity|]. split; [reflexivity|].
    apply Forall_forall. intros a Ha. apply in_map_iff in Ha as (r & <- & _). reflexivity.
  - exfalso. injection Hrest as _ Hrest.
    assert (Hin : In (Kill target s) (map Waitpid ws'))
      by (rewrite Hrest; apply in_elt).
    apply in_map_iff in Hin as (r & Hr & _). discriminate Hr.
Qed.

Lemma handlers_removed_before_broadcast_witness :
  exists l cmds opts mem,
    parse_argv 1 demo_argv = Parsed (cmds, opts, mem) /\
    (installs ++ [Fork (Some 2%nat) 100; Waitpid (exit_with 100 0);
                  Waitpid no_more_children; Fork (Some 5%nat) 101;
                  Fork (Some 7%nat) 102; Waitpid (exit_with 101 2)])
      ++ [Sigaction SIGINT SIG_IGN false; Sigaction SIGTERM SIG_IGN false; Alarm 10]
    = l ++ [Sigaction SIGINT SIG_IGN false; Sigaction SIGTERM SIG_IGN false;
            Alarm WAIT_FOR_PROC_DEATH_TIMEOUT] /\
    SIGTERM = SIGTERM /\
    0 = (if signal_everything opts then -1 else 0) /\
    Forall (fun a => is_wait a = true)
      [Waitpid (mkWait 102 15 0); Waitpid no_more_children].
Proof.
  apply (handlers_removed_before_broadcast demo_world demo_argv
           ((installs ++ [Fork (Some 2%nat) 100; Waitpid (exit_with 100 0);
                          Waitpid no_more_children; Fork (Some 5%nat) 101;
                          Fork (Some 7%nat) 102; Waitpid (exit_with 101 2)])
              ++ [Sigaction SIGINT SIG_IGN false; Sigaction SIGTERM SIG_IGN false;
                  Alarm 10])
           0 SIGTERM [Waitpid (mkWait 102 15 0); Waitpid no_more_children]).
  reflexivity.
Defined.

(** * Exit status *)

Lemma install_returns w st1 :
  install_term_and_int_handlers (init_proc w) = (Ret tt, st1) ->
  st1 = mkProc true 0 installs w /\
  sigaction_fails w SIGINT = false /\ sigaction_fails w SIGTERM = false.
Proof.
  intros H. destruct (install_spec (init_proc w)) as [(E & F1 & F2) | (d & E & _)].
  - rewrite E in H. injection H as <-. auto.
  - rewrite H in E. discriminate E.
Qed.

(** C3: when a termination signal has been handled by the time of the
    check of line 297, [main] does nothing more (the log ends with the
    configure phase: no other command is launched, the watched-exit loop does
    not run, no handler is removed, no alarm is armed, no signal is sent) and
    returns [error_code], which was never assigned: the exit status is
    indeterminate. *)
Theorem signal_before_main_phase_returns_unassigned w argv cmds opts mem cmds2 st1 st2 :
  (length argv =? 1)%nat = false ->
  parse_argv (my_pid w) argv = Parsed (cmds, opts, mem) ->
  install_term_and_int_handlers (init_proc w) = (Ret tt, st1) ->
  run_configure_cmds (fst (fst (select_watch_cmds cmds))) st1 = (Ret cmds2, st2) ->
  configure_signal w = true ->
  main w argv = (Ret Indeterminate, set_running false st2) /\
  exit_status (fst (main w argv)) = Some Indeterminate /\
  exists ws,
    trace (snd (main w argv))
    = installs ++ launches (filter configuring cmds2) ++ map Waitpid ws.
Proof.
  intros Eargc Hparse Hinst Hconf Hsig.
  assert (Hmain : main w argv = (Ret Indeterminate, set_running false st2)).
  { rewrite (main_parsed w argv cmds opts mem Eargc Hparse). unfold run_parsed.
    destruct (select_watch_cmds cmds) as [[cmds1 watch_cmds] n]. cbn [fst] in Hconf.
    unfold bind. rewrite Hinst, Hconf. unfold deliver.
    apply install_returns in Hinst as (-> & _ & _).
    apply run_configure_cmds_spec in Hconf
      as (_ & _ & _ & d & (_ & _ & (_ & _ & Hs)) & _).
    cbn [os] in Hs. rewrite Hs, Hsig. reflexivity. }
  rewrite Hmain. split; [reflexivity|]. split; [reflexivity|].
  apply install_returns in Hinst as (-> & _ & _).
  apply run_configure_cmds_spec in Hconf as (_ & _ & _ & d & (Ht & _) & _ & Hcase).
  destruct Hcase as [(a & E) | [E | (cmds' & ws & E & _ & Hd & _)]]; try discriminate E.
  injection E as <-. exists ws. cbn [snd set_running trace] in *.
  now rewrite Ht, Hd.
Qed.

Lemma signal_before_main_phase_returns_unassigned_witness :
  exit_status (fst (main signalled_world demo_argv)) = Some Indeterminate /\
  exists ws,
    trace (snd (main signalled_world demo_argv))
    = installs ++ launches (filter configuring
                              [mkCmd (Some 2%nat) false true 100;
                               mkCmd (Some 5%nat) true false 0;
                               mkCmd (Some 7%nat) false false 0])
        ++ map Waitpid ws.
Proof.
  refine (proj2 (signal_before_main_phase_returns_unassigned
                   signalled_world demo_argv
                   [mkCmd (Some 2%nat) false true 0; mkCmd (Some 5%nat) true false 0;
                    mkCmd (Some 7%nat) false false 0]
                   (mkOpts false)
                   [Some "smell-baron"; Some "-c"; Some "setup"; None; Some "-f";
                    Some "server"; None; Some "worker"]%string
                   [mkCmd (Some 2%nat) false true 100;
                    mkCmd (Some 5%nat) true false 0;
                    mkCmd (Some 7%nat) false false 0]
                   (mkProc true 0 installs signalled_world)
                   (mkProc true 0
                      (installs ++ [Fork (Some 2%nat) 100; Waitpid (exit_with 100 0);
                                    Waitpid no_more_children])
                      (set_configure_waits
                         (set_forks signalled_world [101; 102]) []))
                   _ _ _ _ _)); reflexivity.
Defined.



(** * The command line *)

Lemma upd_cons_S (A : Type) n (x a : A) l : upd (S n) x (a :: l) = a :: upd n x l.
Proof. reflexivity. Qed.

Lemma nth_upd_neq (A : Type) (x d : A) : forall n l j,
  j <> n -> nth j (upd n x l) d = nth j l d.
Proof.
  induction n as [|n IH]; intros l j Hj.
  - destruct l as [|a l]; [reflexivity|]. destruct j; [congruence | reflexivity].
  - destruct l as [|a l]; [reflexivity|]. rewrite upd_cons_S.
    destruct j; [reflexivity|]. simpl. apply IH. congruence.
Qed.

Lemma upd_app_here (A : Type) (x a : A) pre rest :
  upd (length pre) x (pre ++ a :: rest) = pre ++ x :: rest.
Proof.
  induction pre as [|b pre IH]; [reflexivity|].
  simpl length. simpl app. now rewrite upd_cons_S, IH.
Qed.

(** ** [getopt] *)

Lemma getopt_returns_optind words : forall i,
  (i <= snd (getopt_returns words i) <= i + length words)%nat.
Proof.
  induction words as [|[w|] words IH]; intros i; simpl; try lia.
  destruct (is_option_word w); simpl; [|lia].
  destruct (String.eqb w "--"); simpl; [lia|].
  specialize (IH (S i)). lia.
Qed.

Lemma flag_word_chars fs :
  tl (list_ascii_of_string (flag_word fs)) = map flag_char fs.
Proof.
  unfold flag_word. simpl. apply list_ascii_of_string_of_list_ascii.
Qed.

Lemma getopt_char_flag fs : map getopt_char (map flag_char fs) = map flag_char fs.
Proof.
  induction fs as [|f fs IH]; simpl; [reflexivity|].
  rewrite IH. now destruct f.
Qed.

Lemma flag_word_is_option fs :
  fs <> [] -> is_option_word (flag_word fs) = true /\ String.eqb (flag_word fs) "--" = false.
Proof.
  destruct fs as [|f fs]; [congruence|]. intros _.
  split; destruct f; reflexivity.
Qed.

(** Over the flag words of a group [getopt] returns the flags, one after
    the other, and stops at the executable. *)
Lemma getopt_returns_flags flags : forall rest i,
  Forall (fun fs => fs <> []) flags ->
  rest = [] \/ (exists w tail, rest = Some w :: tail /\ is_option_word w = false) ->
  getopt_returns (map Some (map flag_word flags) ++ rest) i
  = (map flag_char (concat flags), (i + length flags)%nat).
Proof.
  induction flags as [|fs flags IH]; intros rest i HF Hrest.
  - simpl. rewrite Nat.add_0_r.
    destruct Hrest as [-> | (w & tail & -> & Hw)]; simpl; [reflexivity|].
    now rewrite Hw.
  - inversion HF as [|? ? Hfs HF']; subst.
    destruct (flag_word_is_option fs Hfs) as [H1 H2].
    cbn [map app getopt_returns concat length]. rewrite H1, H2.
    rewrite (IH rest (S i) HF' Hrest). cbn [fst snd].
    rewrite flag_word_chars, getopt_char_flag, map_app.
    f_equal. lia.
Qed.

(** ** The options of one command *)

Lemma apply_options_result pid cs : forall opts cmd,
  apply_options pid cs opts cmd = Die 1 \/
  exists opts' cmd', apply_options pid cs opts cmd = Parsed (opts', cmd').
Proof.
  induction cs as [|c cs IH]; intros opts cmd; simpl; [right; eauto|].
  destruct (Ascii.eqb c "a").
  - destruct (negb (pid =? 1)); [now left | apply IH].
  - destruct (Ascii.eqb c "c"); [apply IH|].
    destruct (Ascii.eqb c "f"); apply IH.
Qed.


(** [parse_cmd_args] exits with status 1 or leaves [args] between the
    place it was given and the last word. *)
Lemma parse_cmd_args_result pid opts cmd mem arg_it args_end :
  parse_cmd_args pid opts cmd mem arg_it args_end = Die 1 \/
  exists opts' cmd' k,
    parse_cmd_args pid opts cmd mem arg_it args_end = Parsed (opts', cmd') /\
    args cmd' = Some (arg_it + k)%nat /\ (k <= args_end - arg_it - 1)%nat.
Proof.
  unfold parse_cmd_args.
  set (words := firstn (args_end - arg_it - 1) (skipn arg_it mem)).
  pose proof (getopt_returns_optind words 1) as [Hlo Hhi].
  assert (Hlen : (length words <= args_end - arg_it - 1)%nat)
    by (unfold words; rewrite length_firstn; lia).
  destruct (apply_options_result pid (fst (getopt_returns words 1)) opts cmd)
    as [-> | (opts' & cmd' & ->)]; [now left|].
  destruct (configuring cmd' && watch cmd'); [now left|].
  right. exists opts', (set_args cmd' (Some (arg_it + snd (getopt_returns words 1) - 1)%nat)),
    (snd (getopt_returns words 1) - 1)%nat.
  split; [reflexivity|]. split; [simpl; f_equal; lia | lia].
Qed.

(** ** A separator at the very end *)


Lemma nth_map_Some (argv : list string) j :
  (j < length argv)%nat -> nth j (map Some argv) None = Some (nth j argv ""%string).
Proof.
  intros H. rewrite (nth_indep _ None (Some ""%string)) by (rewrite length_map; lia).
  apply map_nth.
Qed.


(** ** Command groups *)

Lemma skipn_app_length (A : Type) (pre l : list A) : skipn (length pre) (pre ++ l) = l.
Proof. induction pre; simpl; auto. Qed.

Lemma firstn_app_length (A : Type) (l1 l2 : list A) n :
  firstn (length l1 + n) (l1 ++ l2) = l1 ++ firstn n l2.
Proof. induction l1; simpl; [reflexivity | now f_equal]. Qed.

Lemma render_cons g gs : render (g :: gs) = render_group g ++ group_tail gs.
Proof. destruct gs; simpl; [now rewrite app_nil_r | reflexivity]. Qed.

Lemma well_formed_words g :
  well_formed g -> (1 <= length (g_words g))%nat.
Proof. intros (_ & (w & ws & -> & _) & _). simpl. lia. Qed.

Lemma render_length g gs :
  well_formed g -> (1 <= length (render (g :: gs)))%nat.
Proof.
  intros H. rewrite render_cons. unfold render_group.
  rewrite !length_app. apply well_formed_words in H. lia.
Qed.


(** The loop steps over the words of a command. *)
Lemma parse_separators_walk ws : forall fuel pid args_end pre rest cmds opts idx,
  Forall (fun w => w <> SEP) ws ->
  (length pre + length ws <= args_end)%nat ->
  parse_separators (length ws + fuel) pid args_end (pre ++ map Some ws ++ rest)
    cmds opts idx (length pre)
  = parse_separators fuel pid args_end (pre ++ map Some ws ++ rest)
      cmds opts idx (length pre + length ws).
Proof.
  induction ws as [|w ws IH]; intros fuel pid args_end pre rest cmds opts idx HF Hlen.
  - simpl. now rewrite Nat.add_0_r.
  - inversion HF as [|? ? Hw HF']; subst. simpl length in *.
    cbn [Nat.add parse_separators].
    assert (E : (length pre <? args_end)%nat = true) by (apply Nat.ltb_lt; lia).
    rewrite E. cbn [map app]. rewrite nth_middle.
    assert (Es : String.eqb w SEP = false) by now apply String.eqb_neq.
    rewrite Es.
    replace (pre ++ Some w :: map Some ws ++ rest)
      with ((pre ++ [Some w]) ++ map Some ws ++ rest) by now rewrite <- app_assoc.
    replace (S (length pre)) with (length (pre ++ [Some w])) by (rewrite length_app; simpl; lia).
    rewrite IH by (try exact HF'; rewrite length_app; simpl; lia).
    f_equal. rewrite length_app. simpl. lia.
Qed.



(** ** The parser always ends *)

Lemma parse_separators_ends fuel : forall pid args_end mem cmds opts idx arg_it,
  (args_end - arg_it < fuel)%nat ->
  (forall j, (arg_it <= j < args_end)%nat -> nth j mem None <> None) ->
  parse_separators fuel pid args_end mem cmds opts idx arg_it = Die 1 \/
  exists r, parse_separators fuel pid args_end mem cmds opts idx arg_it = Parsed r.
Proof.
  induction fuel as [|fuel IH]; intros pid args_end mem cmds opts idx arg_it Hfuel Hmem;
    [lia|].
  cbn [parse_separators].
  destruct (arg_it <? args_end)%nat eqn:E; [|right; eauto].
  apply Nat.ltb_lt in E.
  destruct (nth arg_it mem None) as [word|] eqn:Eword;
    [|exfalso; apply (Hmem arg_it); [lia | exact Eword]].
  destruct (String.eqb word SEP).
  - destruct (arg_it + 1 =? args_end)%nat; [now left|].
    destruct (parse_cmd_args_result pid opts (nth (S idx) cmds zero_cmd)
                (upd arg_it None mem) (arg_it + 1) args_end)
      as [-> | (opts' & cmd' & k & -> & -> & Hk)]; [now left|].
    apply IH; [lia|].
    intros j Hj. rewrite nth_upd_neq by lia. apply Hmem. lia.
  - apply IH; [lia|]. intros j Hj. apply Hmem. lia.
Qed.

(** [parse_argv] exits with status 1 or yields the commands: the model
    neither runs out of turns nor reads a null pointer. *)
Lemma parse_argv_ends pid argv :
  parse_argv pid argv = Die 1 \/ exists r, parse_argv pid argv = Parsed r.
Proof.
  unfold parse_argv.
  destruct (parse_cmd_args_result pid (mkOpts false)
              (nth 0 (repeat zero_cmd (S (count_occ string_dec (tl argv) SEP))) zero_cmd)
              (map Some argv) 1 (length argv))
    as [-> | (opts' & cmd' & k & -> & -> & Hk)]; [now left|].
  apply parse_separators_ends; [lia|].
  intros j Hj. rewrite nth_map_Some by lia. discriminate.
Qed.

(** ** Where the commands start *)

Lemma nth_upd_same (A : Type) (x d : A) : forall n l,
  nth n (upd n x l) d = x \/ (upd n x l = l /\ nth n l d = d).
Proof.
  induction n as [|n IH]; intros l.
  - destruct l; [right | left]; auto.
  - destruct l as [|a l]; [right; auto|]. rewrite upd_cons_S. simpl.
    destruct (IH l) as [H | [H1 H2]]; [now left | right].
    split; [now rewrite H1 | exact H2].
Qed.

Lemma args_ordered_upd cmds idx bound cmd a :
  args_ordered cmds idx bound ->
  args cmd = Some a -> (bound < a)%nat ->
  args_ordered (upd (S idx) cmd cmds) (S idx) a.
Proof.
  intros (H1 & H2 & H3 & H4) Ha Hlt.
  assert (Hzero : nth (S idx) cmds zero_cmd = zero_cmd) by (apply H4; lia).
  assert (Hold : forall i, i <> S idx ->
            nth i (upd (S idx) cmd cmds) zero_cmd = nth i cmds zero_cmd)
    by (intros i Hi; now apply nth_upd_neq).
  assert (Hnew : forall b, args (nth (S idx) (upd (S idx) cmd cmds) zero_cmd) = Some b ->
            b = a).
  { intros b Hb.
    destruct (nth_upd_same Cmd cmd zero_cmd (S idx) cmds) as [E | [E1 E2]].
    - rewrite E in Hb. congruence.
    - rewrite E1, Hzero in Hb. discriminate. }
  assert (Hbefore : forall i b, (S idx < i)%nat ->
            args (nth i (upd (S idx) cmd cmds) zero_cmd) = Some b -> False).
  { intros i b Hi Hb. rewrite Hold, H4 in Hb by lia. discriminate. }
  repeat split.
  - intros i b Hb. destruct (Nat.eq_dec i (S idx)) as [-> | Hi].
    + apply Hnew in Hb. lia.
    + rewrite Hold in Hb by exact Hi. apply H1 in Hb. lia.
  - intros i j x y Hij Hx Hy.
    destruct (Nat.eq_dec j (S idx)) as [-> | Hj].
    + apply Hnew in Hy. subst y.
      rewrite Hold in Hx by lia. apply H1 in Hx. lia.
    + rewrite Hold in Hy by exact Hj.
      destruct (Nat.eq_dec i (S idx)) as [-> | Hi].
      * exfalso. rewrite H4 in Hy by lia. discriminate.
      * rewrite Hold in Hx by exact Hi. eapply H2; eauto.
  - intros i Hc. destruct (Nat.eq_dec i (S idx)) as [-> | Hi].
    + destruct (nth_upd_same Cmd cmd zero_cmd (S idx) cmds) as [E | [E1 E2]].
      * rewrite E. congruence.
      * rewrite E1, Hzero in Hc. discriminate.
    + rewrite Hold in * by exact Hi. now apply H3.
  - intros i Hi. rewrite Hold by lia. apply H4. lia.
Qed.

Lemma parse_separators_ordered fuel :
  forall pid args_end mem cmds opts idx arg_it bound cmds' opts' mem',
  args_ordered cmds idx bound -> (bound <= arg_it)%nat ->
  parse_separators fuel pid args_end mem cmds opts idx arg_it
    = Parsed (cmds', opts', mem') ->
  exists idx' bound', args_ordered cmds' idx' bound'.
Proof.
  induction fuel as [|fuel IH];
    intros pid args_end mem cmds opts idx arg_it bound cmds' opts' mem' Hord Hb H;
    [discriminate|].
  cbn [parse_separators] in H.
  destruct (arg_it <? args_end)%nat; [|injection H as <- _ _; eauto].
  destruct (nth arg_it mem None) as [word|]; [|discriminate].
  destruct (String.eqb word SEP).
  - destruct (arg_it + 1 =? args_end)%nat; [discriminate|].
    destruct (parse_cmd_args_result pid opts (nth (S idx) cmds zero_cmd)
                (upd arg_it None mem) (arg_it + 1) args_end)
      as [E | (o2 & cmd2 & k & E & Ha & Hk)]; rewrite E in H; [discriminate|].
    rewrite Ha in H.
    eapply IH; [| |exact H].
    + apply (args_ordered_upd cmds idx bound cmd2 (arg_it + 1 + k) Hord Ha). lia.
    + lia.
  - eapply IH; [exact Hord | | exact H]. lia.
Qed.

Lemma args_ordered_init cmd a n :
  args cmd = Some a -> args_ordered (upd 0 cmd (repeat zero_cmd n)) 0 a.
Proof.
  intros Ha.
  assert (Hrest : forall i, (0 < i)%nat ->
            nth i (upd 0 cmd (repeat zero_cmd n)) zero_cmd = zero_cmd).
  { intros i Hi. rewrite nth_upd_neq by lia. apply nth_repeat. }
  assert (Hfirst : forall b, args (nth 0 (upd 0 cmd (repeat zero_cmd n)) zero_cmd) = Some b ->
            b = a).
  { intros b Hb. destruct n; simpl in Hb; [discriminate | congruence]. }
  repeat split.
  - intros i b Hb. destruct i; [apply Hfirst in Hb; lia|].
    rewrite Hrest in Hb by lia. discriminate.
  - intros i j x y Hij _ Hy. rewrite Hrest in Hy by lia. discriminate.
  - intros i Hc. destruct i.
    + destruct n; simpl in *; [discriminate | congruence].
    + rewrite Hrest in Hc by lia. discriminate.
  - exact Hrest.
Qed.

(** After parsing, a command marked configuring and one that is not never
    start at the same word. *)
Lemma parse_argv_args pid argv cmds opts mem c c' :
  parse_argv pid argv = Parsed (cmds, opts, mem) ->
  In c cmds -> In c' cmds ->
  configuring c = true -> configuring c' = false ->
  args c <> args c'.
Proof.
  unfold parse_argv. intros H Hc Hc' Hconf Hnot.
  destruct (parse_cmd_args_result pid (mkOpts false)
              (nth 0 (repeat zero_cmd (S (count_occ string_dec (tl argv) SEP))) zero_cmd)
              (map Some argv) 1 (length argv))
    as [E | (o1 & cmd1 & k & E & Ha & Hk)]; rewrite E in H; [discriminate|].
  rewrite Ha in H.
  apply parse_separators_ordered with (bound := (1 + k)%nat) in H
    as (idx & bound & H1 & H2 & H3 & H4);
    [|now apply args_ordered_init | lia].
  apply (In_nth _ _ zero_cmd) in Hc as (i & _ & Ei).
  apply (In_nth _ _ zero_cmd) in Hc' as (j & _ & Ej).
  pose proof (H3 i) as Hsome. rewrite Ei in Hsome. specialize (Hsome Hconf).
  destruct (args c) as [a|] eqn:Eac; [|congruence].
  destruct (args c') as [b|] eqn:Eac'; [|discriminate].
  intros Heq. injection Heq as ->.
  destruct (Nat.lt_trichotomy i j) as [Hlt | [-> | Hgt]].
  - specialize (H2 i j b b Hlt). rewrite Ei, Ej in H2. specialize (H2 Eac Eac'). lia.
  - congruence.
  - specialize (H2 j i b b Hgt). rewrite Ei, Ej in H2. specialize (H2 Eac' Eac). lia.
Qed.

(** * The configure phase comes first *)

(** C6: a command that is not marked configuring is launched only after
    every command marked configuring has been launched, in the order of the
    command set, and after the configure drain has waited until [waitpid]
    reported that no child is left; with no command marked configuring the
    configure phase launches nothing and waits for nothing. *)
Theorem configure_commands_finish_first w argv cmds opts mem c pre p post :
  parse_argv (my_pid w) argv = Parsed (cmds, opts, mem) ->
  In c cmds -> configuring c = false ->
  trace (snd (main w argv)) = pre ++ Fork (args c) p :: post ->
  (exists cmds2 ws l,
     same_commands cmds cmds2 /\
     pre = installs ++ launches (filter configuring cmds2) ++ map Waitpid ws ++ l /\
     (filter configuring cmds = [] -> ws = []) /\
     (filter configuring cmds <> [] -> complete_drain ws))
  /\ (filter configuring cmds = [] ->
      forall st, run_configure_cmds cmds st = (Ret cmds, st)).
Proof.
  intros Hparse Hc Hconf Htrace.
  split; [|intros E st; now apply run_configure_cmds_none].
  set (argv_c := args c) in *.
  assert (Hnot : ~ In argv_c (map args (filter configuring cmds))).
  { intros Hin. apply in_map_iff in Hin as (c0 & Hargs & Hc0).
    apply filter_In in Hc0 as [Hc0 Hconf0].
    exact (parse_argv_args _ _ _ _ _ c0 c Hparse Hc0 Hc Hconf0 Hconf Hargs). }
  destruct (length argv =? 1)%nat eqn:Eargc.
  { rewrite main_not_parsed in Htrace by now left.
    now destruct pre. }
  rewrite (main_parsed w argv cmds opts mem Eargc Hparse) in Htrace.
  destruct (run_parsed cmds opts (init_proc w)) as [o st'] eqn:Erun.
  cbn [snd] in Htrace.
  apply run_parsed_trace in Erun
    as [(d & Ht & HF) | (cmds2 & ws & st2 & Hsame & Ht2 & Hnone & Hsome & _ & _ & Hsup)].
  - exfalso. rewrite Ht in Htrace. cbn in Htrace.
    assert (Hin : In (Fork argv_c p) d) by (rewrite Htrace; apply in_elt).
    rewrite Forall_forall in HF. apply HF in Hin. contradiction.
  - assert (Hgrow : exists rest, trace st' = trace st2 ++ rest).
    { unfold supervise_and_shut_down, bind in Hsup.
      destruct (run_cmds cmds2 st2) as [o1 st3] eqn:E1.
      apply run_cmds_spec in E1 as (_ & _ & _ & d1 & (Ht1 & _) & _ & Hcase).
      destruct Hcase as [(a & ->) | (cmds3 & ->)].
      { injection Hsup as <- <-. eauto. }
      destruct (wait_for_requested_commands cmds3
                  (snd (fst (select_watch_cmds cmds))) st3) as [o2 st4] eqn:E2.
      apply wait_for_requested_commands_spec in E2
        as (_ & _ & (_ & Sf & _) & (ws2 & Ht4) & Hcase).
      destruct Hcase as [-> | (r & -> & _)].
      { injection Hsup as <- <-. exists (d1 ++ map Waitpid ws2).
        now rewrite Ht4, Ht1, app_assoc. }
      unfold remove_term_and_int_handlers, sigaction, alarm, kill, bind, ret in Hsup.
      destruct (sigaction_fails (os st4) SIGINT);
        [|destruct (sigaction_fails (os (log (Sigaction SIGINT SIG_IGN false) st4)) SIGTERM)];
        match type of Hsup with
        | context [wait_for_all_processes_to_exit ?c ?s] =>
            destruct (wait_for_all_processes_to_exit c s) as [o3 st5] eqn:E3
        end;
        apply wait_for_all_processes_to_exit_spec in E3 as (ws3 & Ht5);
        cbn [trace log] in Ht5;
        (assert (Hst : st' = st5) by (destruct o3; cbn in Hsup; now injection Hsup));
        subst st5; rewrite Ht5, Ht4, Ht1, <- !app_assoc; eauto. }
    destruct Hgrow as (rest & Hrest).
    rewrite Hrest, Ht2 in Htrace. cbn [trace init_proc] in Htrace.
    rewrite app_nil_l, <- !app_assoc in Htrace.
    assert (HF : Forall (before_main cmds)
              (installs ++ launches (filter configuring cmds2) ++ map Waitpid ws)).
    { apply Forall_app. split; [apply before_main_installs|].
      apply Forall_app. split; [now apply before_main_launches | apply before_main_waits]. }
    rewrite !app_assoc in Htrace. rewrite <- (app_assoc installs) in Htrace.
    destruct (split_after _ (before_main cmds) (Fork argv_c p) _ _ _ _ HF Hnot Htrace)
      as (l & Hpre & _).
    exists cmds2, ws, l. rewrite Hpre, <- !app_assoc. auto.
Qed.

Lemma configure_commands_finish_first_witness :
  exists cmds2 ws l,
    same_commands
      [mkCmd (Some 2%nat) false true 0; mkCmd (Some 5%nat) true false 0;
       mkCmd (Some 7%nat) false false 0] cmds2 /\
    installs ++ [Fork (Some 2%nat) 100; Waitpid (exit_with 100 0);
                 Waitpid no_more_children]
      = installs ++ launches (filter configuring cmds2) ++ map Waitpid ws ++ l /\
    complete_drain ws.
Proof.
  destruct (configure_commands_finish_first demo_world demo_argv
              [mkCmd (Some 2%nat) false true 0; mkCmd (Some 5%nat) true false 0;
               mkCmd (Some 7%nat) false false 0]
              (mkOpts false)
              [Some "smell-baron"; Some "-c"; Some "setup"; None; Some "-f";
               Some "server"; None; Some "worker"]%string
              (mkCmd (Some 5%nat) true false 0)
              (installs ++ [Fork (Some 2%nat) 100; Waitpid (exit_with 100 0);
                            Waitpid no_more_children])
              101
              ([Fork (Some 7%nat) 102; Waitpid (exit_with 101 2)]
                 ++ shutdown (mkOpts false)
                 ++ [Waitpid (mkWait 102 15 0); Waitpid no_more_children]))
    as [(cmds2 & ws & l & H1 & H2 & _ & H4) _].
  - reflexivity.
  - right; left; reflexivity.
  - reflexivity.
  - reflexivity.
  - exists cmds2, ws, l. split; [exact H1|]. split; [exact H2|].
    apply H4. discriminate.
Defined.


(** * Usage errors *)




(** * More on the watched-exit loop *)

Lemma supervise_seen cmds ws ticks : forall ls running seen seen',
  option_map verdict (supervise cmds ws ls running seen ticks)
  = option_map verdict (supervise cmds ws ls running seen' ticks).
Proof.
  induction ticks as [|t ticks IH]; intros ls running seen seen';
    destruct running; cbn [supervise negb]; try reflexivity.
  destruct t as [|r sig]; [reflexivity|].
  destruct sig; [reflexivity|].
  destruct (scan_watch cmds (w_ret r) (w_status r) 0 ws ls) as [ls' done].
  destruct done; [reflexivity | apply IH].
Qed.

(** An exit that belongs to no watched command (an unwatched command, a
    grandchild handed over to the supervisor) leaves no mark: with or without
    it, anywhere among the ticks, the loop returns the same exit code from the
    same line, or is still waiting.  A failed [waitpid] is such an exit once
    every watched command has a process id. *)
Theorem unwatched_exit_changes_nothing cmds watch_cmds r running before after :
  is_watched cmds watch_cmds r = false \/ (launched cmds watch_cmds /\ w_ret r = -1) ->
  option_map verdict
    (wait_for_requested_commands_to_exit cmds watch_cmds running
       (before ++ quiet r :: after))
  = option_map verdict
      (wait_for_requested_commands_to_exit cmds watch_cmds running (before ++ after)).
Proof.
  intros H.
  assert (Hw : existsb (fun w => pid_of cmds w =? w_ret r) watch_cmds = false).
  { destruct H as [H | [Hl Hr]]; [exact H|].
    apply launched_not_reaped; [exact Hl|]. unfold reaped. rewrite Hr. reflexivity. }
  unfold wait_for_requested_commands_to_exit.
  generalize (mkLoop (Z.of_nat (length watch_cmds)) 0 INT_MAX) as ls.
  generalize (@nil wait_ret) as seen. revert running.
  induction before as [|t before IH]; intros running seen ls.
  - cbn [app]. destruct running.
    + unfold quiet. cbn [supervise negb].
      rewrite (scan_watch_unwatched cmds watch_cmds 0 r ls Hw).
      apply supervise_seen.
    + destruct after; reflexivity.
  - cbn [app]. destruct running; cbn [supervise negb]; [|reflexivity].
    destruct t as [|r0 sig]; [reflexivity|].
    destruct sig; [reflexivity|].
    destruct (scan_watch cmds (w_ret r0) (w_status r0) 0 watch_cmds ls) as [ls' done].
    destruct done; [reflexivity | apply IH].
Qed.

Lemma unwatched_exit_changes_nothing_witness :
  option_map verdict
    (wait_for_requested_commands_to_exit two_cmds [0; 1]%nat true
       ([quiet (exit_with 11 3)] ++ quiet (exit_with 77 9) :: [quiet (exit_with 10 0)]))
  = Some (3, AllExited).
Proof.
  rewrite (unwatched_exit_changes_nothing two_cmds [0; 1]%nat (exit_with 77 9) true
             [quiet (exit_with 11 3)] [quiet (exit_with 10 0)]).
  - reflexivity.
  - left. reflexivity.
Defined.

(** The countdown: a return from line 86 has seen [cmds_left] more exits of
    watched commands, at least one. *)
Lemma supervise_countdown cmds ws ticks : forall ls running seen ret,
  supervise cmds ws ls running seen ticks = Some ret ->
  ret_path ret = AllExited ->
  Z.of_nat (watched_exits cmds ws (ret_seen ret))
    = Z.of_nat (watched_exits cmds ws seen) + cmds_left ls
  /\ (watched_exits cmds ws seen < watched_exits cmds ws (ret_seen ret))%nat.
Proof.
  induction ticks as [|t ticks IH]; intros ls running seen ret H Hp;
    destruct running; cbn [supervise negb] in H; try discriminate;
    try (injection H as <-; discriminate Hp).
  destruct t as [|r sig]; [injection H as <-; discriminate Hp|].
  destruct sig; [injection H as <-; discriminate Hp|].
  destruct (existsb (fun w => pid_of cmds w =? w_ret r) ws) eqn:Ew.
  - destruct (scan_watch_watched cmds ws 0 r ls Ew) as [Hl Hd].
    destruct (scan_watch cmds (w_ret r) (w_status r) 0 ws ls) as [ls' done].
    cbn [fst snd] in Hl, Hd.
    assert (Hcount : watched_exits cmds ws (seen ++ [r]) = S (watched_exits cmds ws seen)).
    { rewrite watched_exits_app, watched_exits_cons. unfold is_watched. rewrite Ew.
      change (watched_exits cmds ws []) with 0%nat. lia. }
    destruct done.
    + injection H as <-. cbn [ret_seen]. rewrite Hcount.
      symmetry in Hd. apply Z.eqb_eq in Hd. lia.
    + apply IH in H as [H1 H2]; [|exact Hp]. rewrite Hcount in H1, H2. lia.
  - rewrite (scan_watch_unwatched cmds ws 0 r ls Ew) in H.
    assert (Hcount : watched_exits cmds ws (seen ++ [r]) = watched_exits cmds ws seen).
    { rewrite watched_exits_app, watched_exits_cons. unfold is_watched. rewrite Ew.
      change (watched_exits cmds ws []) with 0%nat. lia. }
    apply IH in H as [H1 H2]; [|exact Hp]. rewrite Hcount in H1, H2. lia.
Qed.

(** When the loop returns from line 86 ("all processes exited"), it has
    reaped exactly as many exits of watched commands as there are watched
    commands, and there is at least one watched command: no run returns that
    way early, and none does with an empty watch list. *)
Theorem all_exited_counts_every_watched_command cmds watch_cmds running ticks ret :
  wait_for_requested_commands_to_exit cmds watch_cmds running ticks = Some ret ->
  ret_path ret = AllExited ->
  watched_exits cmds watch_cmds (ret_seen ret) = length watch_cmds /\
  watch_cmds <> [].
Proof.
  unfold wait_for_requested_commands_to_exit. intros H Hp.
  apply supervise_countdown in H as [H1 H2]; [|exact Hp].
  change (watched_exits cmds watch_cmds []) with 0%nat in H1, H2.
  cbn [cmds_left] in H1.
  split; [lia|]. intros ->. cbn [length] in H1. lia.
Qed.

Lemma all_exited_counts_every_watched_command_witness :
  watched_exits two_cmds [0; 1]%nat [exit_with 11 3; exit_with 10 2] = 2%nat /\
  [0; 1]%nat <> [].
Proof.
  exact (all_exited_counts_every_watched_command two_cmds [0; 1]%nat true b_then_a
           (mkReturn 2 AllExited [exit_with 11 3; exit_with 10 2] [])
           eq_refl eq_refl).
Defined.

Lemma scan_watch_no_failure cmds r ws : forall i ls,
  no_failure r ->
  error_code (fst (scan_watch cmds (w_ret r) (w_status r) i ws ls)) = error_code ls.
Proof.
  induction ws as [|w ws IH]; intros i ls H; cbn [scan_watch]; [reflexivity|].
  destruct (pid_of cmds w =? w_ret r); [|now apply IH].
  cbn [fst error_code]. unfold record_status.
  destruct H as [-> | ->]; [reflexivity|].
  destruct (WIFEXITED (w_status r)); reflexivity.
Qed.

Lemma supervise_no_failure cmds ws ticks : forall ls running seen ret,
  supervise cmds ws ls running seen ticks = Some ret ->
  Forall no_failure (ret_seen ret) ->
  ret_code ret = error_code ls.
Proof.
  induction ticks as [|t ticks IH]; intros ls running seen ret H HF;
    destruct running; cbn [supervise negb] in H; try discriminate;
    try (injection H as <-; reflexivity).
  destruct t as [|r sig]; [injection H as <-; reflexivity|].
  destruct sig; [injection H as <-; reflexivity|].
  assert (Hr : no_failure r).
  { destruct (scan_watch cmds (w_ret r) (w_status r) 0 ws ls) as [ls' done].
    destruct done.
    - injection H as <-. cbn [ret_seen] in HF.
      apply Forall_app in HF as [_ HF]. now inversion HF.
    - apply supervise_reads in H as (rs & Hs & _). rewrite Hs in HF.
      apply Forall_app in HF as [HF _]. apply Forall_app in HF as [_ HF].
      now inversion HF. }
  pose proof (scan_watch_no_failure cmds r ws 0 ls Hr) as Hc.
  destruct (scan_watch cmds (w_ret r) (w_status r) 0 ws ls) as [ls' done].
  cbn [fst] in Hc. destruct done.
  - injection H as <-. exact Hc.
  - rewrite <- Hc. now apply IH with (running := true) (seen := seen ++ [r]).
Qed.

(** Only a normal exit with a nonzero status makes the exit code nonzero:
    when every exit the loop took in belongs to a process that was killed by a
    signal or that exited with status 0, the loop returns 0, however many
    watched commands died that way. *)
Theorem killed_commands_leave_exit_code_zero cmds watch_cmds running ticks ret :
  wait_for_requested_commands_to_exit cmds watch_cmds running ticks = Some ret ->
  Forall no_failure (ret_seen ret) ->
  ret_code ret = 0.
Proof.
  unfold wait_for_requested_commands_to_exit. intros H HF.
  now rewrite (supervise_no_failure _ _ _ _ _ _ _ H HF).
Qed.

Lemma killed_commands_leave_exit_code_zero_witness :
  wait_for_requested_commands_to_exit two_cmds [0; 1]%nat true
    [quiet (mkWait 10 9 0); quiet (mkWait 11 139 0)]
  = Some (mkReturn 0 AllExited [mkWait 10 9 0; mkWait 11 139 0] []) /\ 0 = 0.
Proof.
  split; [reflexivity|].
  apply (killed_commands_leave_exit_code_zero two_cmds [0; 1]%nat true
           [quiet (mkWait 10 9 0); quiet (mkWait 11 139 0)]
           (mkReturn 0 AllExited [mkWait 10 9 0; mkWait 11 139 0] [])).
  - reflexivity.
  - repeat constructor.
Defined.

(** ** The range of the exit code *)

Lemma WEXITSTATUS_range status : 0 <= WEXITSTATUS status <= 255.
Proof.
  unfold WEXITSTATUS.
  change 65280 with (Z.shiftl 255 8).
  rewrite Z.shiftr_land, Z.shiftr_shiftl_l by lia.
  change (Z.shiftl 255 (8 - 8)) with (Z.ones 8).
  rewrite Z.land_ones by lia.
  pose proof (Z.mod_pos_bound (Z.shiftr status 8) (2 ^ 8) ltac:(lia)). lia.
Qed.

Lemma scan_watch_range cmds waited_pid status ws : forall i ls,
  0 <= error_code ls <= 255 ->
  0 <= error_code (fst (scan_watch cmds waited_pid status i ws ls)) <= 255.
Proof.
  induction ws as [|w ws IH]; intros i ls H; cbn [scan_watch]; [exact H|].
  destruct (pid_of cmds w =? waited_pid); [|now apply IH].
  cbn [fst error_code]. unfold record_status.
  destruct (WIFEXITED status); [|exact H].
  destruct (_ && _); [apply WEXITSTATUS_range | exact H].
Qed.

Lemma supervise_range cmds ws ticks : forall ls running seen ret,
  supervise cmds ws ls running seen ticks = Some ret ->
  0 <= error_code ls <= 255 ->
  0 <= ret_code ret <= 255.
Proof.
  induction ticks as [|t ticks IH]; intros ls running seen ret H Hr;
    destruct running; cbn [supervise negb] in H; try discriminate;
    try (injection H as <-; exact Hr).
  destruct t as [|r sig]; [injection H as <-; exact Hr|].
  destruct sig; [injection H as <-; exact Hr|].
  pose proof (scan_watch_range cmds (w_ret r) (w_status r) ws 0 ls Hr) as Hr'.
  destruct (scan_watch cmds (w_ret r) (w_status r) 0 ws ls) as [ls' done].
  cbn [fst] in Hr'. destruct done.
  - injection H as <-. exact Hr'.
  - eapply IH; eauto.
Qed.

Lemma loop_code_range cmds watch_cmds running ticks ret :
  wait_for_requested_commands_to_exit cmds watch_cmds running ticks = Some ret ->
  0 <= ret_code ret <= 255.
Proof.
  unfold wait_for_requested_commands_to_exit. intros H.
  eapply supervise_range; [exact H|]. cbn. lia.
Qed.

(** ** A command that was never started *)

(** [run_proc] stores what [fork] returned, also the -1 of a failure, and
    the loop compares it with what [waitpid] returned, also the -1 of an
    error.  When the only watched command could not be started, the first
    failing [waitpid] is taken for its exit: the loop returns at once, and
    its exit code is read from the status word, which [waitpid] did not
    set. *)
Theorem failed_fork_takes_a_failed_wait_for_its_exit cmds i r post :
  pid_of cmds i = -1 -> w_ret r = -1 ->
  wait_for_requested_commands_to_exit cmds [i] true (quiet r :: post)
  = Some (mkReturn (if WIFEXITED (w_status r) then WEXITSTATUS (w_status r) else 0)
            AllExited [r] post).
Proof.
  intros Hpid Hret.
  unfold wait_for_requested_commands_to_exit, quiet.
  cbn [supervise negb length Z.of_nat scan_watch app].
  rewrite Hpid, Hret. cbn [Z.eqb Pos.eqb Z.opp].
  unfold record_status. cbn [error_code_idx cmds_left error_code].
  destruct (WIFEXITED (w_status r)); [|reflexivity].
  destruct (WEXITSTATUS (w_status r) =? 0) eqn:E0.
  - apply Z.eqb_eq in E0. rewrite E0. reflexivity.
  - reflexivity.
Qed.

Lemma failed_fork_takes_a_failed_wait_for_its_exit_witness :
  wait_for_requested_commands_to_exit [mkCmd (Some 1%nat) true false (-1)] [0%nat] true
    [quiet (mkWait (-1) (Z.shiftl 3 8) ECHILD)]
  = Some (mkReturn 3 AllExited [mkWait (-1) (Z.shiftl 3 8) ECHILD] []).
Proof.
  apply (failed_fork_takes_a_failed_wait_for_its_exit
           [mkCmd (Some 1%nat) true false (-1)] 0%nat
           (mkWait (-1) (Z.shiftl 3 8) ECHILD) []); reflexivity.
Defined.

(** * More on the phases of [main] *)

(** ** The main phase launches every other command, once *)

Lemma run_cmds_exact cmds : forall st cmds' st',
  run_cmds cmds st = (Ret cmds', st') ->
  trace st' = trace st ++ launches (filter main_cmd cmds') /\
  Forall2 (fun c c' =>
             args c' = args c /\ configuring c' = configuring c /\ watch c' = watch c /\
             (configuring c = true -> c' = c) /\
             (configuring c = false -> pid c' <> 0)) cmds cmds'.
Proof.
  induction cmds as [|c cs IH]; intros st cmds' st' H.
  - cbn in H. injection H as <- <-. cbn. rewrite app_nil_r. split; [reflexivity | constructor].
  - cbn [run_cmds] in H. destruct (configuring c) eqn:Ec; cbn [negb] in H; unfold bind in H.
    + destruct (run_cmds cs st) as [[cs'| | |] st2] eqn:E2; try discriminate.
      cbn in H. injection H as <- <-.
      apply IH in E2 as [Ht HF]. unfold main_cmd at 1. cbn [filter]. rewrite Ec. cbn [negb].
      split; [exact Ht|]. constructor; [|exact HF].
      repeat split; auto; congruence.
    + destruct (run_proc (args c) st) as [[p| | |] st1] eqn:E1; try discriminate.
      destruct (run_cmds cs st1) as [[cs'| | |] st2] eqn:E2; try discriminate.
      cbn in H. injection H as <- <-.
      apply IH in E2 as [Ht HF].
      assert (Hp : p <> 0 /\ trace st1 = trace st ++ [Fork (args c) p]).
      { unfold run_proc, bind, fork in E1.
        destruct (forks (os st)) as [|q rest].
        - cbn in E1. injection E1 as <- <-. split; [discriminate | reflexivity].
        - destruct (q =? 0) eqn:Eq; cbn in E1; [discriminate|].
          injection E1 as <- <-. apply Z.eqb_neq in Eq. split; [exact Eq | reflexivity]. }
      destruct Hp as [Hp Ht1].
      unfold main_cmd at 1. cbn [filter configuring set_pid]. rewrite Ec. cbn [negb].
      split.
      * rewrite Ht, Ht1, <- app_assoc. reflexivity.
      * constructor; [|exact HF]. cbn. repeat split; auto; congruence.
Qed.

(** [run_cmds] launches the commands that are not marked configuring, each
    once and in the order of the command set, and stores the process id that
    [fork] returned; the commands marked configuring are left as they are, and
    no watch flag changes. *)
Theorem run_cmds_launches_main_commands cmds st cmds' st' :
  run_cmds cmds st = (Ret cmds', st') ->
  trace st' = trace st ++ launches (filter main_cmd cmds') /\
  map args cmds' = map args cmds /\
  map watch cmds' = map watch cmds /\
  filter configuring cmds' = filter configuring cmds /\
  Forall (fun c => pid c <> 0) (filter main_cmd cmds').
Proof.
  intros H. apply run_cmds_exact in H as [Ht HF]. split; [exact Ht|].
  clear Ht. induction HF as [|c c' l l' (Ha & Hc & Hw & Hsame & Hpid) _ IH].
  - repeat split; constructor.
  - destruct IH as (I1 & I2 & I3 & I4). cbn [map filter]. unfold main_cmd at 1.
    rewrite Hc, Ha, Hw, I1, I2.
    destruct (configuring c) eqn:Ec; cbn [negb].
    + rewrite (Hsame eq_refl), I3. repeat split; auto.
    + repeat split; auto.
Qed.

Lemma run_cmds_launches_main_commands_witness :
  trace (snd (run_cmds [mkCmd (Some 2%nat) false true 100; mkCmd (Some 5%nat) true false 0;
                        mkCmd (Some 7%nat) false false 0]
                (mkProc true 0 [] (set_forks demo_world [101; 102]))))
  = [] ++ launches (filter main_cmd
                      [mkCmd (Some 2%nat) false true 100; mkCmd (Some 5%nat) true false 101;
                       mkCmd (Some 7%nat) false false 102]).
Proof.
  exact (proj1 (run_cmds_launches_main_commands
                  [mkCmd (Some 2%nat) false true 100; mkCmd (Some 5%nat) true false 0;
                   mkCmd (Some 7%nat) false false 0]
                  (mkProc true 0 [] (set_forks demo_world [101; 102]))
                  [mkCmd (Some 2%nat) false true 100; mkCmd (Some 5%nat) true false 101;
                   mkCmd (Some 7%nat) false false 102]
                  (mkProc true 0 [Fork (Some 5%nat) 101; Fork (Some 7%nat) 102]
                     (set_forks (set_forks demo_world [101; 102]) []))
                  eq_refl)).
Defined.

(** ** The shape of a run *)

Lemma install_cases st :
  ((forall s, sigaction_fails (os st) s = false) /\
   install_term_and_int_handlers st
   = (Ret tt, mkProc (running st) (alarm_exit_code st) (trace st ++ installs) (os st)))
  \/ ((exists s, sigaction_fails (os st) s = true) /\
      exists d,
        install_term_and_int_handlers st
        = (Exit 1, mkProc (running st) (alarm_exit_code st) (trace st ++ d) (os st)) /\
        Forall (fun a => is_sigaction a = true) d).
Proof.
  unfold install_term_and_int_handlers, bind, sigaction, perror_die, exit, ret, log.
  cbn [os]. unfold installs.
  destruct (sigaction_fails (os st) SIGINT) eqn:E1; cbn.
  { right. split; [eauto|]. eexists. split; [reflexivity|]. repeat constructor. }
  destruct (sigaction_fails (os st) SIGTERM) eqn:E2; cbn.
  { right. split; [eauto|]. eexists. split; [rewrite <- app_assoc; reflexivity|].
    repeat constructor. }
  destruct (sigaction_fails (os st) SIGALRM) eqn:E3; cbn.
  { right. split; [eauto|]. eexists. split; [rewrite <- !app_assoc; reflexivity|].
    repeat constructor. }
  left. split; [intros []; assumption|]. rewrite <- !app_assoc. reflexivity.
Qed.

Lemma drain_returns ds : forall st rest st',
  drain ds st = (Ret tt, rest, st') ->
  exists seen, trace st' = trace st ++ map Waitpid seen /\ complete_drain seen.
Proof.
  induction ds as [|t ds IH]; intros st rest st' H; cbn in H; [discriminate|].
  destruct t as [r|]; [|discriminate].
  destruct ((w_ret r =? -1) && (w_errno r =? ECHILD)) eqn:E.
  - injection H as <- <-. exists [r]. split; [reflexivity|].
    exists [], r. repeat split; [constructor | exact E].
  - apply IH in H as (seen & Ht & before & last & -> & HF & Hlast).
    exists (r :: before ++ [last]). split; [rewrite Ht; cbn; now rewrite <- app_assoc|].
    exists (r :: before), last. repeat split; [constructor; assumption | exact Hlast].
Qed.

Lemma wait_for_all_processes_to_exit_ends code st o st' :
  wait_for_all_processes_to_exit code st = (o, st') ->
  exists ws, trace st' = trace st ++ map Waitpid ws /\
    ((o = Ret tt /\ complete_drain ws) \/ o = Pending \/ o = Exit code).
Proof.
  unfold wait_for_all_processes_to_exit. intros H.
  destruct (drain (drain_ticks (os (set_alarm_exit_code code st)))
              (set_alarm_exit_code code st)) as [[o1 rest] st2] eqn:E.
  injection H as <- <-.
  pose proof (drain_spec _ _ _ _ _ E) as (_ & _ & _ & seen & Ht & Hcase).
  destruct Hcase as [-> | Hcase].
  - apply drain_returns in E as (seen' & Ht' & Hc). exists seen'. auto.
  - exists seen. auto.
Qed.

(** Lines 297-305: either the run stops in the launches or in the loop, or
    the loop returns [r] and the run goes through the shutdown. *)
Lemma supervise_and_shut_down_shape cmds watch_cmds opts st o st' :
  supervise_and_shut_down cmds watch_cmds opts st = (o, st') ->
  sigaction_fails (os st) SIGINT = false ->
  sigaction_fails (os st) SIGTERM = false ->
  (exists d, trace st' = trace st ++ d /\ Forall launch_or_wait d /\
     (o = Pending \/ exists a, o = Child a))
  \/ exists cmds3 st3 r ws ws',
       run_cmds cmds st = (Ret cmds3, st3) /\
       wait_for_requested_commands_to_exit cmds3 watch_cmds (running st3)
         (main_ticks (os st3)) = Some r /\
       trace st' = trace st3 ++ map Waitpid ws ++ shutdown opts ++ map Waitpid ws' /\
       ((o = Ret (Int (ret_code r)) /\ complete_drain ws') \/
        o = Exit (ret_code r) \/ o = Pending).
Proof.
  unfold supervise_and_shut_down, bind. intros H F1 F2.
  destruct (run_cmds cmds st) as [o1 st1] eqn:E1.
  pose proof (run_cmds_spec _ _ _ _ E1) as (_ & _ & _ & d1 & (Ht1 & _ & S1) & HF1 & Hcase).
  destruct Hcase as [(argv & ->) | (cmds' & ->)].
  { injection H as <- <-. left. exists d1. eauto. }
  destruct (wait_for_requested_commands cmds' watch_cmds st1) as [o2 st2] eqn:E2.
  apply wait_for_requested_commands_spec in E2 as (_ & _ & S2 & (ws & Ht2) & Hcase).
  destruct Hcase as [-> | (r & -> & Hr)].
  { injection H as <- <-. left. exists (d1 ++ map Waitpid ws).
    split; [now rewrite Ht2, Ht1, app_assoc|]. split; [|now left].
    apply Forall_app. split; [exact HF1|]. apply Forall_forall.
    intros a Ha. apply in_map_iff in Ha as (x & <- & _). exact I. }
  destruct (static_same_trans _ _ _ S1 S2) as (_ & Sf & _).
  rewrite remove_spec in H by (rewrite Sf; assumption).
  unfold alarm, kill in H. cbn [log running alarm_exit_code trace os] in H.
  match type of H with
  | context [wait_for_all_processes_to_exit ?c ?s] =>
      destruct (wait_for_all_processes_to_exit c s) as [o3 st3] eqn:E3
  end.
  apply wait_for_all_processes_to_exit_ends in E3 as (ws' & Ht3 & Ho3).
  cbn [trace log] in Ht3.
  right. exists cmds', st1, r, ws, ws'. split; [reflexivity|]. split; [exact Hr|].
  assert (Ht : trace st3 = trace st1 ++ map Waitpid ws ++ shutdown opts ++ map Waitpid ws').
  { rewrite Ht3, Ht2. unfold shutdown. rewrite <- !app_assoc. reflexivity. }
  clear Ht3.
  destruct Ho3 as [[-> Hc] | [-> | ->]]; cbn in H; injection H as <- <-; auto.
Qed.

(** [main] after parsing: the installation of a handler fails; or the run
    ends before the main phase; or it goes on with lines 297-305. *)
Lemma run_parsed_shape cmds opts st o st' :
  run_parsed cmds opts st = (o, st') ->
  ((exists s, sigaction_fails (os st) s = true) /\ o = Exit 1 /\
   exists d, trace st' = trace st ++ d /\ Forall (fun a => is_sigaction a = true) d)
  \/ ((forall s, sigaction_fails (os st) s = false) /\
      ((exists d, trace st' = trace st ++ installs ++ d /\ Forall (before_main cmds) d /\
          (o = Ret Indeterminate \/ o = Pending \/ exists a, o = Child a))
       \/ exists cmds2 ws st2,
            same_commands cmds cmds2 /\
            trace st2 = trace st ++ installs ++ launches (filter configuring cmds2)
                          ++ map Waitpid ws /\
            sigaction_fails (os st2) SIGINT = false /\
            sigaction_fails (os st2) SIGTERM = false /\
            supervise_and_shut_down cmds2 (snd (fst (select_watch_cmds cmds))) opts st2
            = (o, st'))).
Proof.
  unfold run_parsed. intros H.
  pose proof (select_watch_cmds_same cmds) as Hsel.
  destruct (select_watch_cmds cmds) as [[cmds1 watch_cmds] n]. cbn [fst snd] in *.
  unfold bind in H.
  destruct (install_cases st) as [(Hall & E) | (Hs & d & E & HF)].
  2:{ rewrite E in H. injection H as <- <-. left. split; [exact Hs|].
      split; [reflexivity|]. exists d. split; [reflexivity | exact HF]. }
  rewrite E in H. clear E. right. split; [exact Hall|].
  set (st1 := mkProc (running st) (alarm_exit_code st) (trace st ++ installs) (os st)) in *.
  destruct (run_configure_cmds cmds1 st1) as [o2 st2] eqn:E2.
  apply run_configure_cmds_spec in E2 as (_ & _ & _ & d & (Ht & Hr & Hs) & HF & Hcase).
  subst st1. cbn [trace running os] in Ht, Hr, Hs.
  assert (HF' : Forall (before_main cmds) d) by (eapply before_main_same; eauto).
  assert (Ht' : trace st2 = trace st ++ installs ++ d) by now rewrite Ht, <- app_assoc.
  destruct Hcase as [(argv & ->) | [-> | (cmds2 & ws & -> & Hsame & Hd & _ & _)]].
  { injection H as <- <-. left. exists d. eauto 6. }
  { injection H as <- <-. left. exists d. eauto 6. }
  unfold deliver in H. cbn [fst snd] in H.
  pose proof (same_commands_trans _ _ _ Hsel Hsame) as Hsame2.
  destruct (configure_signal (os st2)).
  - cbn in H. injection H as <- <-. left. exists d. cbn. eauto 6.
  - destruct (running st2) eqn:Er.
    + right. exists cmds2, ws, st2. split; [exact Hsame2|].
      split; [rewrite Ht', Hd; reflexivity|].
      destruct Hs as (_ & Sf & _). rewrite Sf. auto.
    + cbn in H. injection H as <- <-. left. exists d. eauto 6.
Qed.

(** The runs of [main]: a usage error; a handler that cannot be installed;
    a run that ends before the main phase; one that stops in the main phase;
    one that goes through the shutdown. *)
Lemma main_shape w argv o st' :
  main w argv = (o, st') ->
  (trace st' = [] /\ (o = Ret (Int 1) \/ o = Exit 1))
  \/ exists cmds opts mem,
       (length argv =? 1)%nat = false /\
       parse_argv (my_pid w) argv = Parsed (cmds, opts, mem) /\
       (((exists s, sigaction_fails w s = true) /\ o = Exit 1 /\
         Forall (fun a => is_sigaction a = true) (trace st'))
        \/ ((forall s, sigaction_fails w s = false) /\
            ((exists d, trace st' = installs ++ d /\ Forall (before_main cmds) d /\
                (o = Ret Indeterminate \/ o = Pending \/ exists a, o = Child a))
             \/ (exists cmds2 ws d,
                   same_commands cmds cmds2 /\
                   trace st' = installs ++ launches (filter configuring cmds2)
                                 ++ map Waitpid ws ++ d /\
                   Forall launch_or_wait d /\
                   (o = Pending \/ exists a, o = Child a))
             \/ (exists cmds2 cmds3 st2 st3 r ws ws1 ws2,
                   same_commands cmds cmds2 /\
                   trace st2 = installs ++ launches (filter configuring cmds2)
                                 ++ map Waitpid ws /\
                   run_cmds cmds2 st2 = (Ret cmds3, st3) /\
                   wait_for_requested_commands_to_exit cmds3
                     (snd (fst (select_watch_cmds cmds))) (running st3)
                     (main_ticks (os st3)) = Some r /\
                   trace st' = trace st3 ++ map Waitpid ws1 ++ shutdown opts
                                 ++ map Waitpid ws2 /\
                   ((o = Ret (Int (ret_code r)) /\ complete_drain ws2) \/
                    o = Exit (ret_code r) \/ o = Pending))))).
Proof.
  unfold main. destruct (length argv =? 1)%nat eqn:Eargc.
  { intros H; injection H as <- <-. left. auto. }
  destruct (parse_argv_ends (my_pid w) argv) as [E | ([[cmds opts] mem] & E)]; rewrite E.
  { intros H; injection H as <- <-. left. auto. }
  intros H. right. exists cmds, opts, mem. split; [reflexivity|]. split; [reflexivity|].
  apply run_parsed_shape in H. cbn [init_proc trace os app] in H.
  destruct H as [(Hs & Ho & d & Ht & HF) | (Hall & [Hbefore | Hmain])].
  - left. rewrite Ht. auto.
  - right. split; [exact Hall|]. left. exact Hbefore.
  - right. split; [exact Hall|]. right.
    destruct Hmain as (cmds2 & ws & st2 & Hsame & Ht2 & F1 & F2 & Hsup).
    apply supervise_and_shut_down_shape in Hsup; [|exact F1 | exact F2].
    destruct Hsup as [(d & Ht & HF & Ho) | (cmds3 & st3 & r & ws1 & ws2 & Hrun & Hr & Ht & Ho)].
    + left. exists cmds2, ws, d. split; [exact Hsame|].
      split; [rewrite Ht, Ht2, <- !app_assoc; reflexivity|]. auto.
    + right. exists cmds2, cmds3, st2, st3, r, ws, ws1, ws2. auto 10.
Qed.

(** ** The exit status *)

(** The exit status of the supervisor, whenever [main] returns or exits
    with an assigned value, lies between 0 and 255: it is 1, or a status taken
    out of a status word by [WEXITSTATUS], or 0, so it reaches the parent
    process as it is, with no truncation. *)
Theorem exit_status_fits_a_byte w argv c :
  exit_status (fst (main w argv)) = Some (Int c) -> 0 <= c <= 255.
Proof.
  destruct (main w argv) as [o st'] eqn:E. cbn [fst]. intros Hc.
  apply main_shape in E.
  destruct E as [(_ & [-> | ->]) | (cmds & opts & mem & _ & _ & E)];
    try (cbn in Hc; injection Hc as <-; lia).
  destruct E as [(_ & -> & _) | (_ & [E | [E | E]])].
  - cbn in Hc; injection Hc as <-; lia.
  - destruct E as (d & _ & _ & [-> | [-> | (a & ->)]]); discriminate Hc.
  - destruct E as (cmds2 & ws & d & _ & _ & _ & [-> | (a & ->)]); discriminate Hc.
  - destruct E as (cmds2 & cmds3 & st2 & st3 & r & ws & ws1 & ws2 & _ & _ & _ & Hr & _ & Ho).
    apply loop_code_range in Hr.
    destruct Ho as [[-> _] | [-> | ->]]; try discriminate Hc; cbn in Hc; injection Hc as <-;
      exact Hr.
Qed.

Lemma exit_status_fits_a_byte_witness :
  exit_status (fst (main demo_world demo_argv)) = Some (Int 2) /\ 0 <= 2 <= 255.
Proof.
  split; [reflexivity|].
  apply (exit_status_fits_a_byte demo_world demo_argv 2). reflexivity.
Defined.

(** ** Handlers come first *)

(** Whenever [main] launches a command, the three handlers have been
    installed before: the log starts with the successful [sigaction] calls
    for SIGINT and SIGTERM (handler [on_signal]) and SIGALRM (handler
    [on_alarm]), and every [fork] comes after them. *)
Theorem handlers_installed_before_any_launch w argv pre a p post :
  trace (snd (main w argv)) = pre ++ Fork a p :: post ->
  exists l, pre = installs ++ l.
Proof.
  destruct (main w argv) as [o st'] eqn:E. cbn [snd]. intros Ht.
  assert (Hstart : forall rest, trace st' = installs ++ rest -> exists l, pre = installs ++ l).
  { intros rest Hrest. rewrite Hrest in Ht.
    destruct (split_after action (fun x => is_sigaction x = true) (Fork a p)
                installs rest pre post) as (l & Hl & _).
    - repeat constructor.
    - discriminate.
    - exact Ht.
    - exists l. exact Hl. }
  apply main_shape in E.
  destruct E as [(Hnil & _) | (cmds & opts & mem & _ & _ & E)].
  { rewrite Hnil in Ht. now destruct pre. }
  destruct E as [(_ & _ & HF) | (_ & [E | [E | E]])].
  - rewrite Ht in HF. apply Forall_app in HF as [_ HF].
    inversion HF as [|? ? Hbad _]. discriminate Hbad.
  - destruct E as (d & Hd & _). eauto.
  - destruct E as (cmds2 & ws & d & _ & Hd & _). eauto.
  - destruct E as (cmds2 & cmds3 & st2 & st3 & r & ws & ws1 & ws2 & _ & Ht2 & Hrun & _ & Hd & _).
    apply run_cmds_exact in Hrun as [Ht3 _].
    rewrite Ht3, Ht2, <- !app_assoc in Hd. eauto.
Qed.

Lemma handlers_installed_before_any_launch_witness :
  exists l, installs = installs ++ l.
Proof.
  apply (handlers_installed_before_any_launch demo_world demo_argv installs (Some 2%nat) 100
           [Waitpid (exit_with 100 0); Waitpid no_more_children;
            Fork (Some 5%nat) 101; Fork (Some 7%nat) 102;
            Waitpid (exit_with 101 2);
            Sigaction SIGINT SIG_IGN false; Sigaction SIGTERM SIG_IGN false;
            Alarm 10; Kill 0 SIGTERM;
            Waitpid (mkWait 102 15 0); Waitpid no_more_children]).
  reflexivity.
Defined.

(** A handler that cannot be installed is fatal: when [sigaction] refuses
    one of SIGINT, SIGTERM and SIGALRM, [main] exits with status 1 through
    [perror_die], and nothing but calls of [sigaction] has been made: no
    command was launched. *)
Theorem handler_installation_failure_is_fatal w argv cmds opts mem s :
  (length argv =? 1)%nat = false ->
  parse_argv (my_pid w) argv = Parsed (cmds, opts, mem) ->
  sigaction_fails w s = true ->
  fst (main w argv) = Exit 1 /\
  Forall (fun a => is_sigaction a = true) (trace (snd (main w argv))).
Proof.
  intros Eargc Hparse Hs.
  rewrite (main_parsed w argv cmds opts mem Eargc Hparse).
  destruct (run_parsed cmds opts (init_proc w)) as [o st'] eqn:E. cbn [fst snd].
  apply run_parsed_shape in E. cbn [init_proc trace os app] in E.
  destruct E as [(_ & -> & d & -> & HF) | (Hall & _)]; [auto|].
  rewrite Hall in Hs. discriminate Hs.
Qed.

Lemma handler_installation_failure_is_fatal_witness :
  fst (main (mkWorld 1 (fun s => match s with SIGALRM => true | _ => false end)
               [100; 101; 102] [] false [] []) demo_argv) = Exit 1.
Proof.
  apply (handler_installation_failure_is_fatal
           (mkWorld 1 (fun s => match s with SIGALRM => true | _ => false end)
              [100; 101; 102] [] false [] []) demo_argv
           [mkCmd (Some 2%nat) false true 0; mkCmd (Some 5%nat) true false 0;
            mkCmd (Some 7%nat) false false 0]
           (mkOpts false)
           [Some "smell-baron"; Some "-c"; Some "setup"; None; Some "-f";
            Some "server"; None; Some "worker"]%string
           SIGALRM); reflexivity.
Defined.

(** ** Removing the handlers *)

(** Unlike their installation, the removal of the handlers cannot end
    the process: [remove_term_and_int_handlers] returns whatever [sigaction]
    answers, and when the call for SIGINT fails the one for SIGTERM is not
    made; otherwise both are made, whether or not the second fails. *)
Theorem handler_removal_errors_are_ignored st :
  fst (remove_term_and_int_handlers st) = Ret tt /\
  trace (snd (remove_term_and_int_handlers st))
  = trace st ++
    (if sigaction_fails (os st) SIGINT then [Sigaction SIGINT SIG_IGN true]
     else [Sigaction SIGINT SIG_IGN false;
           Sigaction SIGTERM SIG_IGN (sigaction_fails (os st) SIGTERM)]).
Proof.
  unfold remove_term_and_int_handlers, bind, sigaction, ret, log. cbn [os].
  destruct (sigaction_fails (os st) SIGINT); cbn; [auto|].
  destruct (sigaction_fails (os st) SIGTERM); cbn; rewrite <- app_assoc; auto.
Qed.

(** * More on the command line *)

(** ** What the parser keeps true *)

Lemma length_upd (A : Type) (x : A) : forall n l, length (upd n x l) = length l.
Proof.
  induction n as [|n IH]; intros [|a l]; try reflexivity.
  rewrite upd_cons_S. simpl. now rewrite IH.
Qed.

Lemma Forall_upd (A : Type) (P : A -> Prop) (x : A) : forall n l,
  Forall P l -> P x -> Forall P (upd n x l).
Proof.
  induction n as [|n IH]; intros [|a l] HF Hx; try (constructor; fail).
  - inversion HF; subst. unfold upd. simpl. now constructor.
  - inversion HF; subst. rewrite upd_cons_S. constructor; auto.
Qed.

Lemma apply_options_all mypid cs : forall opts cmd opts' cmd',
  apply_options mypid cs opts cmd = Parsed (opts', cmd') ->
  (signal_everything opts' = true -> signal_everything opts = true \/ mypid = 1) /\
  pid cmd' = pid cmd.
Proof.
  induction cs as [|c cs IH]; intros opts cmd opts' cmd' H; simpl in H.
  - injection H as <- <-. auto.
  - destruct (Ascii.eqb c "a").
    + destruct (mypid =? 1) eqn:Ep; simpl in H; [|discriminate].
      apply Z.eqb_eq in Ep. apply IH in H as [_ H2]. auto.
    + destruct (Ascii.eqb c "c"); [apply IH in H as [H1 H2]; auto|].
      destruct (Ascii.eqb c "f"); apply IH in H as [H1 H2]; auto.
Qed.

Lemma parse_cmd_args_keeps mypid opts cmd mem arg_it args_end opts' cmd' :
  parse_cmd_args mypid opts cmd mem arg_it args_end = Parsed (opts', cmd') ->
  (signal_everything opts' = true -> signal_everything opts = true \/ mypid = 1) /\
  configuring cmd' && watch cmd' = false /\
  pid cmd' = pid cmd.
Proof.
  unfold parse_cmd_args. intros H.
  destruct (apply_options mypid _ opts cmd) as [[opts1 cmd1]| | |] eqn:E; try discriminate.
  destruct (configuring cmd1 && watch cmd1) eqn:Ecw; [discriminate|].
  injection H as <- <-. apply apply_options_all in E as [H1 H2]. auto.
Qed.

(** A property of the options and of the array of commands that every call
    of [parse_cmd_args] keeps is kept by the loop of lines 241-254; the loop
    calls it on a place after a separator and before the end. *)
Lemma parse_separators_invariant (P : Opts -> list Cmd -> Prop) mypid args_end :
  (forall opts cmds idx mem a opts' cmd',
     P opts cmds -> (1 <= a < args_end)%nat ->
     parse_cmd_args mypid opts (nth idx cmds zero_cmd) mem a args_end
     = Parsed (opts', cmd') ->
     P opts' (upd idx cmd' cmds)) ->
  forall fuel mem cmds opts idx arg_it cmds' opts' mem',
    P opts cmds ->
    parse_separators fuel mypid args_end mem cmds opts idx arg_it
    = Parsed (cmds', opts', mem') ->
    P opts' cmds'.
Proof.
  intros Hstep.
  induction fuel as [|fuel IH]; intros mem cmds opts idx arg_it cmds' opts' mem' HP H;
    [discriminate|].
  cbn [parse_separators] in H.
  destruct (arg_it <? args_end)%nat eqn:Elt; [|injection H as <- <- <-; exact HP].
  apply Nat.ltb_lt in Elt.
  destruct (nth arg_it mem None) as [word|]; [|discriminate].
  destruct (String.eqb word SEP).
  - destruct (arg_it + 1 =? args_end)%nat eqn:Eend; [discriminate|].
    apply Nat.eqb_neq in Eend.
    destruct (parse_cmd_args mypid opts (nth (S idx) cmds zero_cmd) (upd arg_it None mem)
                (arg_it + 1) args_end) as [[opts1 cmd1]| | |] eqn:E; try discriminate.
    destruct (args cmd1); [|discriminate].
    eapply IH; [|exact H]. eapply Hstep; [exact HP | | exact E]. lia.
  - eapply IH; [exact HP | exact H].
Qed.

Lemma parse_argv_invariant (P : Opts -> list Cmd -> Prop) mypid argv cmds opts mem :
  (forall opts cmds idx mem a e opts' cmd',
     P opts cmds ->
     parse_cmd_args mypid opts (nth idx cmds zero_cmd) mem a e = Parsed (opts', cmd') ->
     P opts' (upd idx cmd' cmds)) ->
  P (mkOpts false) (repeat zero_cmd (S (count_occ string_dec (tl argv) SEP))) ->
  parse_argv mypid argv = Parsed (cmds, opts, mem) ->
  P opts cmds.
Proof.
  intros Hstep H0. unfold parse_argv.
  destruct (parse_cmd_args mypid (mkOpts false) _ (map Some argv) 1 (length argv))
    as [[opts1 cmd1]| | |] eqn:E; try discriminate.
  destruct (args cmd1); [|discriminate].
  apply parse_separators_invariant.
  - intros o c i m a o' c' HP _. now apply Hstep.
  - eapply Hstep; [exact H0 | exact E].
Qed.

(** After parsing: [-a] was accepted only from process 1; no command is
    both configuring and watched; no process id is set; the array has one
    command more than there are separators. *)
Lemma parse_argv_keeps mypid argv cmds opts mem :
  parse_argv mypid argv = Parsed (cmds, opts, mem) ->
  (signal_everything opts = true -> mypid = 1) /\
  Forall (fun c => configuring c && watch c = false /\ pid c = 0) cmds /\
  length cmds = S (count_occ string_dec (tl argv) SEP).
Proof.
  apply (parse_argv_invariant
           (fun opts cmds =>
              (signal_everything opts = true -> mypid = 1) /\
              Forall (fun c => configuring c && watch c = false /\ pid c = 0) cmds /\
              length cmds = S (count_occ string_dec (tl argv) SEP))).
  - intros opts0 cmds0 idx mem0 a e opts' cmd' (H1 & H2 & H3) E.
    apply parse_cmd_args_keeps in E as (E1 & E2 & E3).
    split; [intros Hs; destruct (E1 Hs); auto|].
    split; [|now rewrite length_upd].
    apply Forall_upd; [exact H2|]. split; [exact E2|]. rewrite E3.
    destruct (Nat.lt_ge_cases idx (length cmds0)) as [Hlt | Hge].
    + rewrite Forall_forall in H2. apply H2, nth_In, Hlt.
    + now rewrite nth_overflow.
  - split; [discriminate|]. split; [|now rewrite repeat_length].
    apply Forall_forall. intros c Hc. apply repeat_spec in Hc. subst c. auto.
Qed.

(** No command marked configuring is ever among the watched commands:
    [parse_cmd_args] refuses [-c] together with [-f], and the default of
    lines 274-281 marks only commands that are not configuring.  Every entry
    of [watch_cmds] is the index of a command of the array. *)
Theorem configuring_commands_are_never_watched mypid argv cmds opts mem i :
  parse_argv mypid argv = Parsed (cmds, opts, mem) ->
  In i (snd (fst (select_watch_cmds cmds))) ->
  (i < length cmds)%nat /\ configuring (nth i cmds zero_cmd) = false.
Proof.
  intros Hparse Hin. apply parse_argv_keeps in Hparse as (_ & HF & _).
  assert (Hi : (i < length cmds)%nat /\
               (watch (nth i cmds zero_cmd) = true \/
                negb (configuring (nth i cmds zero_cmd)) = true)).
  { destruct (watch_set_derivation_order cmds) as [E | E]; rewrite E in Hin;
      unfold indices_where in Hin; apply filter_In in Hin as [Hseq Hp];
      apply in_seq in Hseq; (split; [lia | auto]). }
  destruct Hi as [Hlt [Hw | Hc]]; split; try exact Hlt.
  - rewrite Forall_forall in HF. destruct (HF (nth i cmds zero_cmd)) as [Hcw _].
    + apply nth_In, Hlt.
    + rewrite Hw, andb_true_r in Hcw. exact Hcw.
  - now apply negb_true_iff in Hc.
Qed.

Lemma configuring_commands_are_never_watched_witness :
  (1 < 3)%nat /\
  configuring (nth 1 [mkCmd (Some 2%nat) false true 0; mkCmd (Some 5%nat) true false 0;
                      mkCmd (Some 7%nat) false false 0] zero_cmd) = false.
Proof.
  apply (configuring_commands_are_never_watched 1 demo_argv
           [mkCmd (Some 2%nat) false true 0; mkCmd (Some 5%nat) true false 0;
            mkCmd (Some 7%nat) false false 0]
           (mkOpts false)
           [Some "smell-baron"; Some "-c"; Some "setup"; None; Some "-f";
            Some "server"; None; Some "worker"]%string
           1%nat).
  - reflexivity.
  - simpl. auto.
Defined.

(** ** Command lines read back *)

Lemma flagged_has_flag f g : flagged f g = true <-> has_flag f g.
Proof.
  unfold flagged, has_flag. rewrite existsb_exists. split.
  - intros (x & Hx & E). destruct f, x; try discriminate E; exact Hx.
  - intros H. exists f. split; [exact H | now destruct f].
Qed.

Lemma apply_options_exact mypid fl : forall opts cmd,
  (In FlagA fl -> mypid = 1) ->
  apply_options mypid (map flag_char fl) opts cmd
  = Parsed (mkOpts (signal_everything opts || existsb (flag_eqb FlagA) fl),
            mkCmd (args cmd) (watch cmd || existsb (flag_eqb FlagF) fl)
              (configuring cmd || existsb (flag_eqb FlagC) fl) (pid cmd)).
Proof.
  induction fl as [|f fl IH]; intros opts cmd Hinit.
  - cbn. rewrite !orb_false_r. destruct opts, cmd. reflexivity.
  - destruct f; cbn [map flag_char apply_options existsb flag_eqb].
    + assert (Ep : (mypid =? 1) = true)
        by (apply Z.eqb_eq, Hinit; now left).
      cbn. rewrite Ep. cbn.
      rewrite IH by (intros H; apply Hinit; now right).
      cbn. now rewrite orb_true_r.
    + cbn. rewrite IH by (intros H; apply Hinit; now right).
      cbn. now rewrite orb_true_r.
    + cbn. rewrite IH by (intros H; apply Hinit; now right).
      cbn. now rewrite orb_true_r.
Qed.

(** [parse_cmd_args] at the start of a group it has no reason to refuse. *)
Lemma parse_cmd_args_group_exact mypid opts pre g tail :
  well_formed g -> ~ refused mypid g ->
  parse_cmd_args mypid opts zero_cmd (pre ++ map Some (render_group g ++ tail)) (length pre)
    (length (pre ++ map Some (render_group g ++ tail)))
  = Parsed (mkOpts (signal_everything opts || flagged FlagA g), expected_cmd (length pre) g).
Proof.
  intros (Hflags & (w & ws & Hwords & Hw) & _) Hok.
  unfold parse_cmd_args.
  rewrite skipn_app_length, length_app, length_map.
  unfold render_group. rewrite Hwords, <- app_assoc, !map_app.
  replace (length pre + length (map flag_word (g_flags g) ++ (w :: ws) ++ tail)
           - length pre - 1)%nat
    with (length (map Some (map flag_word (g_flags g))) + length (ws ++ tail))%nat
    by (rewrite !length_app, !length_map; simpl; lia).
  rewrite firstn_app_length.
  rewrite getopt_returns_flags.
  2: exact Hflags.
  2:{ simpl. destruct (ws ++ tail); simpl; [now left | right; eauto]. }
  cbn [fst snd].
  rewrite apply_options_exact.
  2:{ intros HA. destruct (Z.eq_dec mypid 1) as [E | E]; [exact E|].
      exfalso. apply Hok. right. split; [exact E | exact HA]. }
  cbn [configuring watch zero_cmd orb args pid].
  fold (flagged FlagA g) (flagged FlagF g) (flagged FlagC g).
  destruct (flagged FlagC g && flagged FlagF g) eqn:Ecf.
  { exfalso. apply andb_true_iff in Ecf as [Ec Ef]. apply Hok. left.
    split; now apply flagged_has_flag. }
  unfold expected_cmd, set_args. cbn [args watch configuring pid].
  replace (length pre + (1 + length (g_flags g)) - 1)%nat
    with (length pre + length (g_flags g))%nat by lia.
  reflexivity.
Qed.

(** The loop of lines 241-254 from the executable of a group on, over
    groups it has no reason to refuse: it fills the array with the expected
    commands and puts a null pointer in the place of every separator. *)
Lemma parse_groups_exact mypid : forall gs g fuel pre opts done,
  Forall well_formed (g :: gs) ->
  Forall (fun g => ~ refused mypid g) (g :: gs) ->
  pre <> [] ->
  (length (render (g :: gs)) < fuel)%nat ->
  parse_separators fuel mypid (length (pre ++ map Some (render (g :: gs))))
    (pre ++ map Some (render (g :: gs)))
    (done ++ expected_cmd (length pre) g :: repeat zero_cmd (length gs))
    (mkOpts (signal_everything opts || flagged FlagA g)) (length done)
    (length pre + length (g_flags g))
  = Parsed (done ++ expected_cmds (length pre) (g :: gs),
            mkOpts (signal_everything opts || existsb (flagged FlagA) (g :: gs)),
            pre ++ render_mem (g :: gs)).
Proof.
  induction gs as [|g2 gs2 IH]; intros g fuel pre opts done Hwf Hok Hpre Hfuel.
  - inversion Hwf as [|? ? Hg _]; subst. destruct Hg as (_ & _ & Hnosep).
    cbn [render render_mem expected_cmds existsb repeat length] in *.
    rewrite orb_false_r. unfold render_group in *.
    rewrite length_app, length_map in Hfuel.
    set (pre1 := pre ++ map Some (map flag_word (g_flags g))).
    assert (Hmem : pre ++ map Some (map flag_word (g_flags g) ++ g_words g)
                   = pre1 ++ map Some (g_words g) ++ [])
      by (unfold pre1; rewrite map_app, app_nil_r, <- app_assoc; reflexivity).
    assert (Hl1 : length pre1 = (length pre + length (g_flags g))%nat)
      by (unfold pre1; rewrite length_app, !length_map; reflexivity).
    rewrite Hmem, <- Hl1.
    replace fuel with (length (g_words g) + S (fuel - length (g_words g) - 1))%nat by lia.
    rewrite parse_separators_walk;
      [|exact Hnosep | rewrite !length_app, length_map; cbn [length]; lia].
    cbn [parse_separators].
    assert (E : (length pre1 + length (g_words g)
                 <? length (pre1 ++ map Some (g_words g) ++ []))%nat = false).
    { apply Nat.ltb_ge. rewrite !length_app, length_map. cbn [length]. lia. }
    rewrite E. reflexivity.
  - inversion Hwf as [|? ? Hg Hwf']; subst. inversion Hok as [|? ? Hokg Hok']; subst.
    destruct Hg as (_ & _ & Hnosep).
    assert (Hwf2 : well_formed g2) by (inversion Hwf'; assumption).
    assert (Hok2 : ~ refused mypid g2) by (inversion Hok'; assumption).
    pose proof (render_length g2 gs2 Hwf2) as Hne.
    change (render (g :: g2 :: gs2)) with (render_group g ++ SEP :: render (g2 :: gs2)) in *.
    change (render_mem (g :: g2 :: gs2))
      with (map Some (render_group g) ++ None :: render_mem (g2 :: gs2)).
    change (expected_cmds (length pre) (g :: g2 :: gs2))
      with (expected_cmd (length pre) g
              :: expected_cmds (length pre + length (render_group g) + 1) (g2 :: gs2)).
    change (existsb (flagged FlagA) (g :: g2 :: gs2))
      with (flagged FlagA g || existsb (flagged FlagA) (g2 :: gs2)).
    change (length (g2 :: gs2)) with (S (length gs2)). cbn [repeat].
    set (tl2 := render (g2 :: gs2)) in *.
    set (c := expected_cmd (length pre) g).
    set (o1 := mkOpts (signal_everything opts || flagged FlagA g)).
    unfold render_group in *.
    rewrite !length_app in Hfuel. cbn [length] in Hfuel. rewrite length_map in Hfuel.
    set (pre1 := pre ++ map Some (map flag_word (g_flags g))).
    set (pre2 := pre1 ++ map Some (g_words g)).
    assert (Hl1 : length pre1 = (length pre + length (g_flags g))%nat)
      by (unfold pre1; rewrite length_app, !length_map; reflexivity).
    assert (Hl2 : length pre2 = (length pre1 + length (g_words g))%nat)
      by (unfold pre2; rewrite length_app, !length_map; reflexivity).
    assert (Hmem : pre ++ map Some ((map flag_word (g_flags g) ++ g_words g) ++ SEP :: tl2)
                   = pre1 ++ map Some (g_words g) ++ Some SEP :: map Some tl2)
      by (unfold pre1; rewrite !map_app, <- !app_assoc; reflexivity).
    rewrite Hmem, <- Hl1.
    set (args_end := length (pre1 ++ map Some (g_words g) ++ Some SEP :: map Some tl2)).
    assert (Hend : args_end = (length pre2 + S (length tl2))%nat).
    { unfold args_end. rewrite Hl2, !length_app, !length_map. cbn [length].
      rewrite length_map. lia. }
    clearbody args_end.
    replace fuel with (length (g_words g) + S (fuel - length (g_words g) - 1))%nat by lia.
    rewrite parse_separators_walk; [|exact Hnosep | lia].
    replace (pre1 ++ map Some (g_words g) ++ Some SEP :: map Some tl2)
      with (pre2 ++ Some SEP :: map Some tl2)
      by (unfold pre2; now rewrite <- app_assoc).
    rewrite <- Hl2.
    cbn [parse_separators].
    assert (E1 : (length pre2 <? args_end)%nat = true) by (apply Nat.ltb_lt; lia).
    rewrite E1, nth_middle, String.eqb_refl.
    assert (E2 : (length pre2 + 1 =? args_end)%nat = false) by (apply Nat.eqb_neq; lia).
    rewrite E2, upd_app_here.
    replace (done ++ c :: zero_cmd :: repeat zero_cmd (length gs2))
      with ((done ++ [c]) ++ zero_cmd :: repeat zero_cmd (length gs2))
      by (rewrite <- app_assoc; reflexivity).
    replace (S (length done)) with (length (done ++ [c]))
      by (rewrite length_app; cbn [length]; lia).
    rewrite nth_middle.
    replace (pre2 ++ None :: map Some tl2) with ((pre2 ++ [None]) ++ map Some tl2)
      by now rewrite <- app_assoc.
    replace (length pre2 + 1)%nat with (length (pre2 ++ [None]))
      by (rewrite length_app; reflexivity).
    assert (Hend' : args_end = length ((pre2 ++ [None]) ++ map Some tl2)).
    { rewrite Hend, !length_app, length_map. cbn [length]. lia. }
    rewrite Hend'.
    assert (Hpc : parse_cmd_args mypid o1 zero_cmd ((pre2 ++ [None]) ++ map Some tl2)
                    (length (pre2 ++ [None])) (length ((pre2 ++ [None]) ++ map Some tl2))
                  = Parsed (mkOpts (signal_everything o1 || flagged FlagA g2),
                            expected_cmd (length (pre2 ++ [None])) g2)).
    { unfold tl2. rewrite render_cons. now apply parse_cmd_args_group_exact. }
    rewrite Hpc. cbn [args expected_cmd]. rewrite upd_app_here.
    replace (S (length (pre2 ++ [None]) + length (g_flags g2) - 1))
      with (length (pre2 ++ [None]) + length (g_flags g2))%nat
      by (rewrite length_app; cbn [length]; lia).
    pose proof (IH g2 (fuel - length (g_words g) - 1)%nat (pre2 ++ [None]) o1 (done ++ [c])
                  Hwf' Hok') as HIH.
    fold tl2 in HIH.
    rewrite HIH; [|now destruct pre2 | lia].
    f_equal. f_equal; [f_equal|].
    + rewrite <- app_assoc. cbn [app]. do 3 f_equal.
      rewrite length_app, Hl2, Hl1, length_app, length_map. cbn [length]. lia.
    + unfold o1. cbn [signal_everything]. now rewrite orb_assoc.
    + unfold pre2, pre1. rewrite map_app, <- !app_assoc. reflexivity.
Qed.

Lemma flag_word_not_SEP fs : flag_word fs <> SEP.
Proof.
  unfold flag_word, SEP. intros H. injection H as H.
  destruct fs as [|f fs]; [discriminate H|]. destruct f; discriminate H.
Qed.

Lemma count_occ_render_group g :
  well_formed g -> count_occ string_dec (render_group g) SEP = 0%nat.
Proof.
  intros (_ & _ & Hnosep). apply count_occ_not_In. unfold render_group. intros Hin.
  apply in_app_or in Hin as [Hin | Hin].
  - apply in_map_iff in Hin as (fs & E & _). now apply flag_word_not_SEP in E.
  - rewrite Forall_forall in Hnosep. now apply (Hnosep SEP).
Qed.

(** The array has one command for each group. *)
Lemma count_occ_render gs :
  Forall well_formed gs -> count_occ string_dec (render gs) SEP = pred (length gs).
Proof.
  induction gs as [|g gs IH]; intros Hwf; [reflexivity|].
  inversion Hwf as [|? ? Hg Hwf']; subst.
  rewrite render_cons, count_occ_app, count_occ_render_group by exact Hg.
  destruct gs as [|g2 gs2]; [reflexivity|].
  cbn [group_tail]. rewrite count_occ_cons_eq by reflexivity.
  rewrite IH by exact Hwf'. reflexivity.
Qed.

Lemma parse_argv_render mypid prog gs :
  gs <> [] -> Forall well_formed gs -> Forall (fun g => ~ refused mypid g) gs ->
  parse_argv mypid (prog :: render gs)
  = Parsed (expected_cmds 1 gs, mkOpts (existsb (flagged FlagA) gs),
            Some prog :: render_mem gs).
Proof.
  destruct gs as [|g gs]; [congruence|]. intros _ Hwf Hok.
  assert (Hg : well_formed g) by (inversion Hwf; assumption).
  assert (Hokg : ~ refused mypid g) by (inversion Hok; assumption).
  unfold parse_argv. cbn [tl]. rewrite count_occ_render by exact Hwf.
  cbn [length pred repeat nth].
  change (map Some (prog :: render (g :: gs)))
    with ([Some prog] ++ map Some (render (g :: gs))).
  assert (Hlen : S (length (render (g :: gs)))
                 = length ([Some prog] ++ map Some (render (g :: gs))))
    by (rewrite length_app, length_map; reflexivity).
  rewrite Hlen.
  assert (Hpc : parse_cmd_args mypid (mkOpts false) zero_cmd
                  ([Some prog] ++ map Some (render (g :: gs))) 1
                  (length ([Some prog] ++ map Some (render (g :: gs))))
                = Parsed (mkOpts (signal_everything (mkOpts false) || flagged FlagA g),
                          expected_cmd (length [Some prog]) g)).
  { rewrite render_cons.
    apply (parse_cmd_args_group_exact mypid (mkOpts false) [Some prog] g (group_tail gs));
      assumption. }
  rewrite Hpc. cbn [args expected_cmd].
  change (upd 0 (expected_cmd (length [Some prog]) g) (zero_cmd :: repeat zero_cmd (length gs)))
    with ([] ++ expected_cmd (length [Some prog]) g :: repeat zero_cmd (length gs)).
  rewrite <- Hlen at 1.
  apply (parse_groups_exact mypid gs g (S (S (length (render (g :: gs))))) [Some prog]
           (mkOpts false) []); try assumption; [discriminate | lia].
Qed.

Lemma until_null_words ws tail :
  tail = [] \/ (exists t, tail = None :: t) ->
  until_null (map Some ws ++ tail) = ws.
Proof.
  intros Htail. induction ws as [|w ws IH]; cbn; [|now rewrite IH].
  destruct Htail as [-> | (t & ->)]; reflexivity.
Qed.

Lemma exec_vectors : forall gs pre,
  Forall2 (fun c g => exec_vector (pre ++ render_mem gs) c = Some (g_words g))
    (expected_cmds (length pre) gs) gs.
Proof.
  induction gs as [|g gs IH]; intros pre; [constructor|].
  cbn [expected_cmds]. constructor.
  - unfold exec_vector, expected_cmd. cbn [args option_map]. f_equal.
    assert (Hmem : exists tail, (tail = [] \/ exists t, tail = None :: t) /\
              pre ++ render_mem (g :: gs)
              = (pre ++ map Some (map flag_word (g_flags g))) ++ map Some (g_words g) ++ tail).
    { destruct gs as [|g2 gs2]; cbn [render_mem]; unfold render_group; rewrite map_app.
      - exists []. split; [now left|]. now rewrite app_nil_r, app_assoc.
      - eexists. split; [right; eauto|]. rewrite <- !app_assoc. reflexivity. }
    destruct Hmem as (tail & Htail & ->).
    replace (length pre + length (g_flags g))%nat
      with (length (pre ++ map Some (map flag_word (g_flags g))))
      by (rewrite length_app, !length_map; reflexivity).
    rewrite skipn_app_length. now apply until_null_words.
  - destruct gs as [|g2 gs2]; [constructor|].
    change (render_mem (g :: g2 :: gs2))
      with (map Some (render_group g) ++ None :: render_mem (g2 :: gs2)).
    replace (pre ++ map Some (render_group g) ++ None :: render_mem (g2 :: gs2))
      with ((pre ++ map Some (render_group g) ++ [None]) ++ render_mem (g2 :: gs2))
      by (rewrite <- !app_assoc; reflexivity).
    replace (length pre + length (render_group g) + 1)%nat
      with (length (pre ++ map Some (render_group g) ++ [None]))
      by (rewrite !length_app, length_map; cbn [length]; lia).
    apply IH.
Qed.

(** A command line made of well-formed groups, none of which
    [parse_cmd_args] has a reason to refuse, is accepted: the parser yields
    one command for each group, in order, marked watched exactly when the
    group carries [-f] and configuring exactly when it carries [-c], with no
    process id yet; [signal_everything] is set exactly when some group
    carries [-a]. *)
Theorem well_formed_command_line_is_accepted mypid prog gs :
  gs <> [] -> Forall well_formed gs -> Forall (fun g => ~ refused mypid g) gs ->
  exists cmds opts mem,
    parse_argv mypid (prog :: render gs) = Parsed (cmds, opts, mem) /\
    Forall2 (fun c g => watch c = flagged FlagF g /\ configuring c = flagged FlagC g /\
                        pid c = 0) cmds gs /\
    signal_everything opts = existsb (flagged FlagA) gs.
Proof.
  intros Hne Hwf Hok. eexists _, _, _.
  split; [apply parse_argv_render; assumption|]. split; [|reflexivity].
  clear. generalize 1%nat.
  induction gs as [|g gs IH]; intros n; cbn [expected_cmds]; constructor; auto.
Qed.

Lemma well_formed_command_line_is_accepted_witness :
  exists cmds opts mem,
    parse_argv 1 ("smell-baron"%string :: render demo_groups) = Parsed (cmds, opts, mem) /\
    Forall2 (fun c g => watch c = flagged FlagF g /\ configuring c = flagged FlagC g /\
                        pid c = 0) cmds demo_groups /\
    signal_everything opts = existsb (flagged FlagA) demo_groups.
Proof.
  apply (well_formed_command_line_is_accepted 1 "smell-baron"%string demo_groups).
  - discriminate.
  - repeat constructor; try discriminate; eexists _, _; split; reflexivity.
  - repeat constructor; intros [[H1 H2] | [H1 H2]];
      try (apply H1; reflexivity); cbv in H1, H2; intuition discriminate.
Defined.

(** For such a command line, the argument vector that [execvp] is given for
    a command is exactly the words of its group: [args] points at the
    executable, past the flag words, and the null pointer that replaced the
    following separator (or the end of [argv]) ends the vector. *)
Theorem every_command_gets_its_own_words mypid prog gs :
  gs <> [] -> Forall well_formed gs -> Forall (fun g => ~ refused mypid g) gs ->
  exists cmds opts mem,
    parse_argv mypid (prog :: render gs) = Parsed (cmds, opts, mem) /\
    Forall2 (fun c g => exec_vector mem c = Some (g_words g)) cmds gs.
Proof.
  intros Hne Hwf Hok. eexists _, _, _.
  split; [apply parse_argv_render; assumption|].
  apply (exec_vectors gs [Some prog]).
Qed.

Lemma every_command_gets_its_own_words_witness :
  exists cmds opts mem,
    parse_argv 1 ("smell-baron"%string :: render demo_groups) = Parsed (cmds, opts, mem) /\
    Forall2 (fun c g => exec_vector mem c = Some (g_words g)) cmds demo_groups.
Proof.
  apply (every_command_gets_its_own_words 1 "smell-baron"%string demo_groups).
  - discriminate.
  - repeat constructor; try discriminate; eexists _, _; split; reflexivity.
  - repeat constructor; intros [[H1 H2] | [H1 H2]];
      try (apply H1; reflexivity); cbv in H1, H2; intuition discriminate.
Defined.

(** ** Where [args] points *)

(** After parsing a command line of at least one word beyond the program
    name, the [args] of a command is the null pointer [calloc] left (the
    command was never parsed) or points at a word of [argv], past the
    program name: [execvp] is never handed a pointer outside of [argv]. *)
Theorem args_point_into_argv mypid argv cmds opts mem c a :
  (2 <= length argv)%nat ->
  parse_argv mypid argv = Parsed (cmds, opts, mem) ->
  In c cmds -> args c = Some a ->
  (1 <= a < length argv)%nat.
Proof.
  intros Hargc Hparse Hc Ha.
  assert (Hstep : forall (opts0 : Opts) cmds0 idx mem0 a0 opts' cmd',
            Forall (fun c => forall x, args c = Some x -> (1 <= x < length argv)%nat) cmds0 ->
            (1 <= a0 < length argv)%nat ->
            parse_cmd_args mypid opts0 (nth idx cmds0 zero_cmd) mem0 a0 (length argv)
            = Parsed (opts', cmd') ->
            Forall (fun c => forall x, args c = Some x -> (1 <= x < length argv)%nat)
              (upd idx cmd' cmds0)).
  { intros opts0 cmds0 idx mem0 a0 opts' cmd' HF Ha0 E.
    apply Forall_upd; [exact HF|]. intros x Hx.
    destruct (parse_cmd_args_result mypid opts0 (nth idx cmds0 zero_cmd) mem0 a0 (length argv))
      as [E' | (o & c' & k & E' & Hargs & Hk)]; rewrite E' in E; [discriminate|].
    injection E as <- <-. rewrite Hargs in Hx. injection Hx as <-. lia. }
  assert (HF : Forall (fun c => forall x, args c = Some x -> (1 <= x < length argv)%nat) cmds).
  { revert Hparse. unfold parse_argv.
    destruct (parse_cmd_args mypid (mkOpts false) _ (map Some argv) 1 (length argv))
      as [[opts1 cmd1]| | |] eqn:E; try discriminate.
    destruct (args cmd1); [|discriminate].
    apply (parse_separators_invariant
             (fun _ cmds0 =>
                Forall (fun c => forall x, args c = Some x -> (1 <= x < length argv)%nat)
                  cmds0)).
    - intros o c0 i m a0 o' c' HP Hr Hpc. eapply Hstep; eassumption.
    - eapply Hstep; [| | exact E]; [|lia].
      apply Forall_forall. intros c0 Hc0. apply repeat_spec in Hc0. subst c0.
      intros x Hx. discriminate Hx. }
  rewrite Forall_forall in HF. exact (HF c Hc a Ha).
Qed.

Lemma args_point_into_argv_witness : (1 <= 5 < length demo_argv)%nat.
Proof.
  apply (args_point_into_argv 1 demo_argv
           [mkCmd (Some 2%nat) false true 0; mkCmd (Some 5%nat) true false 0;
            mkCmd (Some 7%nat) false false 0]
           (mkOpts false)
           [Some "smell-baron"; Some "-c"; Some "setup"; None; Some "-f";
            Some "server"; None; Some "worker"]%string
           (mkCmd (Some 5%nat) true false 0) 5%nat).
  - simpl. lia.
  - reflexivity.
  - simpl. auto.
  - reflexivity.
Defined.

(** ** The last word *)

Lemma upd_app_l (A : Type) (x : A) l2 : forall n l1,
  (n < length l1)%nat -> upd n x (l1 ++ l2) = upd n x l1 ++ l2.
Proof.
  induction n as [|n IH]; intros [|a l1] Hn; simpl in Hn; try lia.
  - reflexivity.
  - cbn [app]. rewrite !upd_cons_S, IH by lia. reflexivity.
Qed.

(** [getopt] is given one word less than there are: [parse_cmd_args] does
    not look at the last word. *)
Lemma parse_cmd_args_last mypid opts cmd (m : memory) x y a :
  parse_cmd_args mypid opts cmd (m ++ [x]) a (S (length m))
  = parse_cmd_args mypid opts cmd (m ++ [y]) a (S (length m)).
Proof.
  assert (E : forall z, firstn (S (length m) - a - 1) (skipn a (m ++ [z]))
                        = firstn (length m - a) (skipn a m)).
  { intros z. replace (S (length m) - a - 1)%nat with (length m - a)%nat by lia.
    destruct (le_lt_dec a (length m)) as [Hle | Hgt].
    - rewrite skipn_app. replace (a - length m)%nat with 0%nat by lia. cbn [skipn].
      rewrite firstn_app, length_skipn.
      replace (length m - a - (length m - a))%nat with 0%nat by lia.
      cbn [firstn]. now rewrite app_nil_r.
    - replace (length m - a)%nat with 0%nat by lia. reflexivity. }
  unfold parse_cmd_args. now rewrite !E.
Qed.

Lemma parse_separators_last x y :
  x <> SEP -> y <> SEP ->
  forall fuel mypid (m : memory) cmds opts idx a,
    parsed_cmds (parse_separators fuel mypid (S (length m)) (m ++ [Some x]) cmds opts idx a)
    = parsed_cmds (parse_separators fuel mypid (S (length m)) (m ++ [Some y]) cmds opts idx a).
Proof.
  intros Hx Hy.
  induction fuel as [|fuel IH]; intros mypid m cmds opts idx a; [reflexivity|].
  cbn [parse_separators].
  destruct (a <? S (length m))%nat eqn:Elt; [|reflexivity].
  apply Nat.ltb_lt in Elt.
  destruct (Nat.eq_dec a (length m)) as [-> | Hne].
  - rewrite !nth_middle.
    apply String.eqb_neq in Hx, Hy. rewrite Hx, Hy. apply IH.
  - rewrite !app_nth1 by lia.
    destruct (nth a m None) as [word|]; [|reflexivity].
    destruct (String.eqb word SEP); [|apply IH].
    destruct (a + 1 =? S (length m))%nat; [reflexivity|].
    rewrite !upd_app_l by lia.
    rewrite <- (length_upd (option string) None a m).
    rewrite (parse_cmd_args_last mypid opts (nth (S idx) cmds zero_cmd) (upd a None m)
               (Some x) (Some y)).
    destruct (parse_cmd_args mypid opts (nth (S idx) cmds zero_cmd) (upd a None m ++ [Some y])
                (a + 1) (S (length (upd a None m)))) as [[opts1 cmd1]| | |]; try reflexivity.
    destruct (args cmd1); [apply IH | reflexivity].
Qed.

(** The last word of the command line is never read as flags: [getopt] is
    given one word less than there are.  Replacing the last word by any other
    word that is not the separator changes neither the commands nor the
    options; a command line that ends in [-f] runs a command of that name. *)
Theorem last_word_is_never_read_as_flags mypid ws x y :
  x <> SEP -> y <> SEP ->
  parsed_cmds (parse_argv mypid (ws ++ [x])) = parsed_cmds (parse_argv mypid (ws ++ [y])).
Proof.
  intros Hx Hy. unfold parse_argv.
  assert (Hcount : count_occ string_dec (tl (ws ++ [x])) SEP
                   = count_occ string_dec (tl (ws ++ [y])) SEP).
  { destruct ws as [|p ws]; [reflexivity|]. cbn [app tl].
    rewrite !count_occ_app. cbn [count_occ].
    destruct (string_dec x SEP); [congruence|].
    destruct (string_dec y SEP); [congruence|]. reflexivity. }
  rewrite Hcount, !length_app, !map_app. cbn [length map].
  replace (length ws + 1)%nat with (S (length (map Some ws)))
    by (rewrite length_map; lia).
  rewrite (parse_cmd_args_last mypid (mkOpts false) _ (map Some ws) (Some x) (Some y)).
  destruct (parse_cmd_args mypid (mkOpts false) _ (map Some ws ++ [Some y]) 1
              (S (length (map Some ws)))) as [[opts1 cmd1]| | |]; try reflexivity.
  destruct (args cmd1); [|reflexivity].
  now apply parse_separators_last.
Qed.

Lemma last_word_is_never_read_as_flags_witness :
  parsed_cmds (parse_argv 1 (["smell-baron"] ++ ["-f"]))%string
  = Parsed ([mkCmd (Some 1%nat) false false 0], mkOpts false).
Proof.
  rewrite (last_word_is_never_read_as_flags 1 ["smell-baron"%string] "-f"%string
             "server"%string); [reflexivity | discriminate | discriminate].
Defined.

(** ** A separator right after a separator *)

Lemma parse_separators_word fuel mypid args_end mem cmds opts idx arg_it word :
  (arg_it < args_end)%nat -> nth arg_it mem None = Some word ->
  String.eqb word SEP = false ->
  parse_separators (S fuel) mypid args_end mem cmds opts idx arg_it
  = parse_separators fuel mypid args_end mem cmds opts idx (S arg_it).
Proof.
  intros H1 H2 H3. cbn [parse_separators]. apply Nat.ltb_lt in H1.
  now rewrite H1, H2, H3.
Qed.

Lemma parse_separators_sep fuel mypid args_end mem cmds opts idx arg_it opts' cmd a :
  (arg_it + 1 < args_end)%nat -> nth arg_it mem None = Some SEP ->
  parse_cmd_args mypid opts (nth (S idx) cmds zero_cmd) (upd arg_it None mem)
    (arg_it + 1) args_end = Parsed (opts', cmd) ->
  args cmd = Some a ->
  parse_separators (S fuel) mypid args_end mem cmds opts idx arg_it
  = parse_separators fuel mypid args_end (upd arg_it None mem) (upd (S idx) cmd cmds)
      opts' (S idx) (S (a - 1)).
Proof.
  intros H1 H2 H3 H4. cbn [parse_separators].
  assert (E1 : (arg_it <? args_end)%nat = true) by (apply Nat.ltb_lt; lia).
  assert (E2 : (arg_it + 1 =? args_end)%nat = false) by (apply Nat.eqb_neq; lia).
  rewrite E1, H2, String.eqb_refl, E2, H3, H4. reflexivity.
Qed.

Lemma parse_separators_done fuel mypid args_end mem cmds opts idx arg_it :
  (args_end <= arg_it)%nat ->
  parse_separators (S fuel) mypid args_end mem cmds opts idx arg_it
  = Parsed (cmds, opts, mem).
Proof.
  intros H. cbn [parse_separators]. apply Nat.ltb_ge in H. now rewrite H.
Qed.

(** A separator that directly follows a separator is not read as a
    separator: [getopt] takes it for a word of flags (it starts with a dash),
    none of which the [switch] knows.  The array was sized by counting the
    separators, so its last command is never parsed: it is left as [calloc]
    made it, with a null [args]. *)
Theorem separator_after_separator_is_read_as_flags mypid prog a b :
  is_option_word a = false -> a <> SEP -> b <> SEP ->
  parse_argv mypid [prog; a; SEP; SEP; b]
  = Parsed ([mkCmd (Some 1%nat) false false 0; mkCmd (Some 4%nat) false false 0; zero_cmd],
            mkOpts false, [Some prog; Some a; None; Some SEP; Some b]).
Proof.
  intros Ha Hna Hnb.
  assert (Ea : String.eqb a SEP = false) by now apply String.eqb_neq.
  assert (Eb : String.eqb b SEP = false) by now apply String.eqb_neq.
  unfold parse_argv. cbn [tl count_occ].
  destruct (string_dec a SEP) as [E | _]; [congruence|].
  destruct (string_dec SEP SEP) as [_ | E]; [|congruence].
  destruct (string_dec b SEP) as [E | _]; [congruence|].
  cbn [repeat nth length map].
  assert (Hpc : parse_cmd_args mypid (mkOpts false) zero_cmd
                  [Some prog; Some a; Some SEP; Some SEP; Some b] 1 5
                = Parsed (mkOpts false, mkCmd (Some 1%nat) false false 0)).
  { unfold parse_cmd_args. cbn [skipn firstn Nat.sub getopt_returns]. rewrite Ha.
    reflexivity. }
  rewrite Hpc. cbn [args].
  rewrite (parse_separators_word 5 mypid 5 _ _ _ 0 1 a); [|lia | reflexivity | exact Ea].
  rewrite (parse_separators_sep 4 mypid 5 _ _ _ 0 2 (mkOpts false)
             (mkCmd (Some 4%nat) false false 0) 4);
    [|lia | reflexivity | reflexivity | reflexivity].
  rewrite (parse_separators_word 3 mypid 5 _ _ _ 1 4 b); [|lia | reflexivity | exact Eb].
  rewrite parse_separators_done by lia.
  reflexivity.
Qed.

Lemma separator_after_separator_is_read_as_flags_witness :
  parse_argv 1 ["smell-baron"; "server"; SEP; SEP; "worker"]%string
  = Parsed ([mkCmd (Some 1%nat) false false 0; mkCmd (Some 4%nat) false false 0; zero_cmd],
            mkOpts false,
            [Some "smell-baron"; Some "server"; None; Some SEP; Some "worker"]%string).
Proof.
  apply (separator_after_separator_is_read_as_flags 1 "smell-baron" "server" "worker")%string;
    [reflexivity | discriminate | discriminate].
Defined.

(** ** Unknown flags *)

(** An option character other than [a], [c] and [f] is no usage error:
    [getopt] returns ['?'] for it, the [switch] of lines 197-213 has no case
    for that, and parsing goes on as if the character were not there. *)
Theorem unknown_flags_are_ignored mypid cs opts cmd :
  apply_options mypid (map getopt_char cs) opts cmd
  = apply_options mypid (filter known_flag cs) opts cmd.
Proof.
  revert opts cmd. induction cs as [|c cs IH]; intros opts cmd; [reflexivity|].
  cbn [map filter]. unfold getopt_char at 1, known_flag at 1.
  destruct (Ascii.eqb c "a") eqn:Ea; cbn [orb].
  - cbn [apply_options]. rewrite Ea. destruct (negb (mypid =? 1)); [reflexivity | apply IH].
  - destruct (Ascii.eqb c "c") eqn:Ec; cbn [orb].
    + cbn [apply_options]. rewrite Ea, Ec. apply IH.
    + destruct (Ascii.eqb c "f") eqn:Ef.
      * cbn [apply_options]. rewrite Ea, Ec, Ef. apply IH.
      * cbn. apply IH.
Qed.

(** * More on whole runs *)

Lemma kill_not_launched t s cmds : ~ In (Kill t s) (launches cmds).
Proof. intros H. apply in_map_iff in H as (c & E & _). discriminate E. Qed.

Lemma kill_not_waited t s ws : ~ In (Kill t s) (map Waitpid ws).
Proof. intros H. apply in_map_iff in H as (c & E & _). discriminate E. Qed.

Lemma kill_not_installed t s : ~ In (Kill t s) installs.
Proof. intros [E | [E | [E | []]]]; discriminate E. Qed.

Lemma kill_in_shutdown t s opts :
  In (Kill t s) (shutdown opts) ->
  t = (if signal_everything opts then -1 else 0) /\ s = SIGTERM.
Proof.
  intros [E | [E | [E | [E | []]]]]; try discriminate E.
  injection E as <- <-. auto.
Qed.

(** A signal sent by [main] is the one of the shutdown of a run that went
    through both launch phases. *)
Lemma kill_reached w argv o st' t s :
  main w argv = (o, st') ->
  In (Kill t s) (trace st') ->
  exists cmds opts mem cmds2 cmds3 st2 st3 r ws ws1 ws2,
    parse_argv (my_pid w) argv = Parsed (cmds, opts, mem) /\
    same_commands cmds cmds2 /\
    trace st2 = installs ++ launches (filter configuring cmds2) ++ map Waitpid ws /\
    run_cmds cmds2 st2 = (Ret cmds3, st3) /\
    wait_for_requested_commands_to_exit cmds3 (snd (fst (select_watch_cmds cmds)))
      (running st3) (main_ticks (os st3)) = Some r /\
    trace st' = trace st3 ++ map Waitpid ws1 ++ shutdown opts ++ map Waitpid ws2 /\
    In (Kill t s) (shutdown opts).
Proof.
  intros E Hin. apply main_shape in E.
  destruct E as [(Hnil & _) | (cmds & opts & mem & _ & Hparse & E)].
  { rewrite Hnil in Hin. destruct Hin. }
  destruct E as [(_ & _ & HF) | (_ & [E | [E | E]])].
  - rewrite Forall_forall in HF. apply HF in Hin. discriminate Hin.
  - destruct E as (d & Hd & HF & _). rewrite Hd in Hin.
    apply in_app_or in Hin as [Hin | Hin]; [now apply kill_not_installed in Hin|].
    rewrite Forall_forall in HF. apply HF in Hin. destruct Hin.
  - destruct E as (cmds2 & ws & d & _ & Hd & HF & _). rewrite Hd in Hin.
    apply in_app_or in Hin as [Hin | Hin]; [now apply kill_not_installed in Hin|].
    apply in_app_or in Hin as [Hin | Hin]; [now apply kill_not_launched in Hin|].
    apply in_app_or in Hin as [Hin | Hin]; [now apply kill_not_waited in Hin|].
    rewrite Forall_forall in HF. apply HF in Hin. destruct Hin.
  - destruct E as (cmds2 & cmds3 & st2 & st3 & r & ws & ws1 & ws2
                   & Hsame & Ht2 & Hrun & Hr & Hd & _).
    exists cmds, opts, mem, cmds2, cmds3, st2, st3, r, ws, ws1, ws2.
    repeat (split; [assumption|]).
    pose proof (run_cmds_exact _ _ _ _ Hrun) as [Ht3 _].
    rewrite Hd, Ht3, Ht2 in Hin.
    apply in_app_or in Hin as [Hin | Hin].
    { apply in_app_or in Hin as [Hin | Hin].
      - apply in_app_or in Hin as [Hin | Hin]; [now apply kill_not_installed in Hin|].
        apply in_app_or in Hin as [Hin | Hin]; [now apply kill_not_launched in Hin|].
        now apply kill_not_waited in Hin.
      - now apply kill_not_launched in Hin. }
    apply in_app_or in Hin as [Hin | Hin]; [now apply kill_not_waited in Hin|].
    apply in_app_or in Hin as [Hin | Hin]; [exact Hin|].
    now apply kill_not_waited in Hin.
Qed.

(** The termination signal goes to every process of the system (target
    -1) only when the supervisor is process 1; from any other process it goes
    to the process group of the supervisor (target 0). *)
Theorem broadcast_to_every_process_only_as_init w argv t s :
  In (Kill t s) (trace (snd (main w argv))) ->
  t = 0 \/ (t = -1 /\ my_pid w = 1).
Proof.
  destruct (main w argv) as [o st'] eqn:E. cbn [snd]. intros Hin.
  destruct (kill_reached w argv o st' t s E Hin)
    as (cmds & opts & mem & cmds2 & cmds3 & st2 & st3 & r & ws & ws1 & ws2
        & Hparse & _ & _ & _ & _ & _ & Hkill).
  apply kill_in_shutdown in Hkill as [-> _].
  apply parse_argv_keeps in Hparse as (Hinit & _).
  destruct (signal_everything opts); auto.
Qed.

Lemma broadcast_to_every_process_only_as_init_witness :
  -1 = 0 \/ (-1 = -1 /\ my_pid init_world = 1).
Proof.
  apply (broadcast_to_every_process_only_as_init init_world init_argv (-1) SIGTERM).
  vm_compute. auto 20.
Defined.

(** ** Every command is launched once *)

Lemma filter_fork_launches cmds : filter is_fork (launches cmds) = launches cmds.
Proof. induction cmds as [|c cs IH]; simpl; [reflexivity | now rewrite IH]. Qed.

Lemma filter_fork_waits ws : filter is_fork (map Waitpid ws) = [].
Proof. induction ws as [|r ws IH]; simpl; [reflexivity | exact IH]. Qed.

Lemma run_cmds_frame cmds cmds' :
  Forall2 (fun c c' =>
             args c' = args c /\ configuring c' = configuring c /\ watch c' = watch c /\
             (configuring c = true -> c' = c) /\
             (configuring c = false -> pid c' <> 0)) cmds cmds' ->
  same_commands cmds cmds' /\ filter configuring cmds' = filter configuring cmds.
Proof.
  induction 1 as [|c c' l l' (Ha & Hc & Hw & Hsame & Hpid) _ [IH1 IH2]].
  - split; constructor.
  - split; [constructor; auto|]. cbn [filter]. rewrite Hc, IH2.
    destruct (configuring c) eqn:Ec; [|reflexivity]. now rewrite (Hsame eq_refl).
Qed.

Lemma filter_partition_perm (A : Type) (f : A -> bool) l :
  Permutation (filter f l ++ filter (fun x => negb (f x)) l) l.
Proof.
  induction l as [|a l IH]; simpl; [constructor|].
  destruct (f a); simpl.
  - now constructor.
  - apply Permutation_sym, Permutation_cons_app, Permutation_sym, IH.
Qed.

(** In a run that reaches the shutdown, [fork] has been called exactly
    once for every command of the command line: the calls of [fork] in the
    log are those for the commands marked configuring, in the order of the
    command line, followed by those for the other commands, in that order;
    together they are the commands of the array, each with the value [fork]
    returned for it. *)
Theorem every_command_is_launched_once w argv t s :
  In (Kill t s) (trace (snd (main w argv))) ->
  exists cmds opts mem cmds3,
    parse_argv (my_pid w) argv = Parsed (cmds, opts, mem) /\
    same_commands cmds cmds3 /\
    filter is_fork (trace (snd (main w argv)))
    = launches (filter configuring cmds3) ++ launches (filter main_cmd cmds3) /\
    Permutation (filter is_fork (trace (snd (main w argv)))) (launches cmds3).
Proof.
  destruct (main w argv) as [o st'] eqn:E. cbn [snd]. intros Hin.
  destruct (kill_reached w argv o st' t s E Hin)
    as (cmds & opts & mem & cmds2 & cmds3 & st2 & st3 & r & ws & ws1 & ws2
        & Hparse & Hsame & Ht2 & Hrun & _ & Hd & _).
  pose proof (run_cmds_exact _ _ _ _ Hrun) as [Ht3 HF].
  apply run_cmds_frame in HF as [Hsame3 Hconf].
  exists cmds, opts, mem, cmds3. split; [exact Hparse|].
  split; [eapply same_commands_trans; eassumption|].
  assert (Hforks : filter is_fork (trace st')
                   = launches (filter configuring cmds3) ++ launches (filter main_cmd cmds3)).
  { rewrite Hd, Ht3, Ht2, Hconf. rewrite !filter_app.
    rewrite !filter_fork_launches, !filter_fork_waits. cbn. now rewrite !app_nil_r. }
  split; [exact Hforks|].
  rewrite Hforks. unfold launches. rewrite <- map_app. apply Permutation_map.
  apply filter_partition_perm.
Qed.

Lemma every_command_is_launched_once_witness :
  exists cmds opts mem cmds3,
    parse_argv (my_pid demo_world) demo_argv = Parsed (cmds, opts, mem) /\
    same_commands cmds cmds3 /\
    filter is_fork (trace (snd (main demo_world demo_argv)))
    = launches (filter configuring cmds3) ++ launches (filter main_cmd cmds3) /\
    Permutation (filter is_fork (trace (snd (main demo_world demo_argv)))) (launches cmds3).
Proof.
  apply (every_command_is_launched_once demo_world demo_argv 0 SIGTERM).
  vm_compute. auto 20.
Defined.

(** ** The drain that ends *)

Lemma drain_done pre last post : forall st,
  Forall (fun r => no_child_left r = false) pre ->
  no_child_left last = true ->
  drain (map DrainWait pre ++ DrainWait last :: post) st
  = (Ret tt, post,
     mkProc (running st) (alarm_exit_code st) (trace st ++ map Waitpid (pre ++ [last]))
       (os st)).
Proof.
  induction pre as [|r pre IH]; intros st HF Hlast; cbn.
  - unfold no_child_left in Hlast. rewrite Hlast. reflexivity.
  - inversion HF as [|? ? Hr HF']; subst. unfold no_child_left in Hr.
    rewrite Hr, IH by assumption. cbn. now rewrite <- app_assoc.
Qed.

(** When [waitpid] reports that no child is left before SIGALRM is
    delivered, [main] returns the exit code of the watched-exit loop: the
    drain stops at the first such report, whatever [waitpid] returned before
    (exits of other children, interruptions), and nothing is logged after
    it. *)
Theorem clean_shutdown_returns_loop_code
    w argv cmds opts mem cmds2 cmds3 st1 st2 st3 r pre last post :
  (length argv =? 1)%nat = false ->
  parse_argv (my_pid w) argv = Parsed (cmds, opts, mem) ->
  install_term_and_int_handlers (init_proc w) = (Ret tt, st1) ->
  run_configure_cmds (fst (fst (select_watch_cmds cmds))) st1 = (Ret cmds2, st2) ->
  configure_signal w = false ->
  run_cmds cmds2 st2 = (Ret cmds3, st3) ->
  wait_for_requested_commands_to_exit cmds3 (snd (fst (select_watch_cmds cmds))) true
    (main_ticks (os st3)) = Some r ->
  drain_ticks (os st3) = map DrainWait pre ++ DrainWait last :: post ->
  Forall (fun x => no_child_left x = false) pre ->
  no_child_left last = true ->
  fst (main w argv) = Ret (Int (ret_code r)) /\
  exists ws,
    trace (snd (main w argv))
    = trace st3 ++ map Waitpid ws ++ shutdown opts ++ map Waitpid (pre ++ [last]).
Proof.
  intros Eargc Hparse Hinst Hconf Hsig Hrun Hloop Hdrain Hpre Hlast.
  pose proof (install_returns w st1 Hinst) as (-> & F1 & F2).
  pose proof (run_configure_cmds_spec _ _ _ _ Hconf)
    as (_ & _ & _ & d2 & (_ & R2 & S2) & _).
  pose proof (run_cmds_spec _ _ _ _ Hrun) as (_ & _ & _ & d3 & (_ & R3 & S3) & _).
  cbn [running os] in R2, S2.
  destruct (static_same_trans _ _ _ S2 S3) as (_ & Sf & _).
  destruct S2 as (_ & _ & Sc).
  assert (Hmain : exists st', main w argv = (Ret (Int (ret_code r)), st') /\
            exists ws, trace st'
                       = trace st3 ++ map Waitpid ws ++ shutdown opts
                           ++ map Waitpid (pre ++ [last])).
  { rewrite (main_parsed w argv cmds opts mem Eargc Hparse). unfold run_parsed.
    destruct (select_watch_cmds cmds) as [[cmds1 watch_cmds] n]. cbn [fst snd] in *.
    unfold bind. rewrite Hinst, Hconf. unfold deliver.
    rewrite Sc, Hsig, R2.
    unfold supervise_and_shut_down, bind. rewrite Hrun.
    unfold wait_for_requested_commands. rewrite R3, R2, Hloop.
    rewrite remove_spec by (cbn [os set_main_ticks sigaction_fails]; rewrite Sf; assumption).
    unfold alarm, kill, wait_for_all_processes_to_exit.
    cbn [log set_alarm_exit_code running alarm_exit_code trace os
         set_main_ticks drain_ticks].
    rewrite Hdrain, drain_done by assumption.
    eexists. split; [reflexivity|]. eexists.
    cbn [set_os set_alarm_exit_code log running alarm_exit_code trace os].
    unfold shutdown. rewrite <- !app_assoc. reflexivity. }
  destruct Hmain as (st' & Hmain & ws & Ht).
  rewrite Hmain. split; [reflexivity|]. exists ws. exact Ht.
Qed.

Lemma clean_shutdown_returns_loop_code_witness :
  fst (main demo_world demo_argv) = Ret (Int 2).
Proof.
  edestruct (clean_shutdown_returns_loop_code demo_world demo_argv
               [mkCmd (Some 2%nat) false true 0; mkCmd (Some 5%nat) true false 0;
                mkCmd (Some 7%nat) false false 0]
               (mkOpts false)
               [Some "smell-baron"; Some "-c"; Some "setup"; None; Some "-f";
                Some "server"; None; Some "worker"]%string
               [mkCmd (Some 2%nat) false true 100; mkCmd (Some 5%nat) true false 0;
                mkCmd (Some 7%nat) false false 0]
               [mkCmd (Some 2%nat) false true 100; mkCmd (Some 5%nat) true false 101;
                mkCmd (Some 7%nat) false false 102])
    with (r := mkReturn 2 AllExited [exit_with 101 2] [])
         (pre := [mkWait 102 15 0]) (last := no_more_children) (post := @nil drain_tick)
    as (H1 & _).
  - reflexivity.
  - reflexivity.
  - reflexivity.
  - reflexivity.
  - reflexivity.
  - reflexivity.
  - reflexivity.
  - reflexivity.
  - repeat constructor.
  - reflexivity.
  - exact H1.
Defined.

(** ** No child is left behind *)

(** When [main], given a command line, returns a value that was assigned
    (it does not exit through [on_alarm] or [perror_die], nor return the
    unassigned [error_code]), the last system call it made is a [waitpid]
    that reported that no child is left: the supervisor does not return from
    the main phase while it still has children. *)
Theorem main_returns_only_when_no_child_is_left w argv c :
  (length argv =? 1)%nat = false ->
  fst (main w argv) = Ret (Int c) ->
  exists calls last,
    trace (snd (main w argv)) = calls ++ [Waitpid last] /\ no_child_left last = true.
Proof.
  destruct (main w argv) as [o st'] eqn:E. cbn [fst snd]. intros Eargc Ho.
  unfold main in E. rewrite Eargc in E.
  destruct (parse_argv_ends (my_pid w) argv) as [Ep | ([[cmds opts] mem] & Ep)];
    rewrite Ep in E.
  { injection E as <- <-. discriminate Ho. }
  apply run_parsed_shape in E. subst o.
  destruct E as [(_ & Hbad & _) | (_ & [E | E])]; [discriminate Hbad | |].
  - destruct E as (d & _ & _ & [Hbad | [Hbad | (a & Hbad)]]); discriminate Hbad.
  - destruct E as (cmds2 & ws & st2 & _ & _ & F1 & F2 & Hsup).
    apply supervise_and_shut_down_shape in Hsup; [|exact F1 | exact F2].
    destruct Hsup as [(d & _ & _ & [Hbad | (a & Hbad)])
                     | (cmds3 & st3 & r & ws1 & ws2 & _ & _ & Ht & Hcase)];
      try discriminate Hbad.
    destruct Hcase as [[_ (before & last & -> & _ & Hlast)] | [Hbad | Hbad]];
      try discriminate Hbad.
    exists (trace st3 ++ map Waitpid ws1 ++ shutdown opts ++ map Waitpid before), last.
    split; [|exact Hlast].
    rewrite Ht, map_app, <- !app_assoc. reflexivity.
Qed.

Lemma main_returns_only_when_no_child_is_left_witness :
  exists calls last,
    trace (snd (main demo_world demo_argv)) = calls ++ [Waitpid last] /\
    no_child_left last = true.
Proof.
  apply (main_returns_only_when_no_child_is_left demo_world demo_argv 2); reflexivity.
Defined.

(** * What the configure phase reports is not looked at *)

Lemma agree_log a st st' : agree st st' -> agree (log a st) (log a st').
Proof.
  unfold agree, log, unwaited. cbn [running alarm_exit_code trace os].
  intros (H1 & H2 & H3 & H4). rewrite !filter_app, H3. tauto.
Qed.

Lemma agree_log_wait r r' st st' :
  agree st st' -> agree (log (Waitpid r) st) (log (Waitpid r') st').
Proof.
  unfold agree, log, unwaited. cbn [running alarm_exit_code trace os].
  intros (H1 & H2 & H3 & H4). rewrite !filter_app, H3. cbn. tauto.
Qed.

Lemma respects_ret (A : Type) (a : A) : respects (ret a).
Proof. intros st st' H. split; [reflexivity | exact H]. Qed.

Lemma respects_exit (A : Type) c : respects (@exit A c).
Proof. intros st st' H. split; [reflexivity | exact H]. Qed.

Lemma respects_bind (A B : Type) (m : M A) (k : A -> M B) :
  respects m -> (forall a, respects (k a)) -> respects (bind m k).
Proof.
  intros Hm Hk st st' Ha. unfold bind. destruct (Hm st st' Ha) as [Ho Hs].
  destruct (m st) as [o1 s1], (m st') as [o2 s2]. cbn [fst snd] in Ho, Hs. subst o2.
  destruct o1; cbn [fst snd]; auto. apply Hk. exact Hs.
Qed.

Lemma respects_sigaction s h : respects (sigaction s h).
Proof.
  intros st st' Ha. unfold sigaction. cbn [fst snd].
  assert (E : sigaction_fails (os st) s = sigaction_fails (os st') s)
    by (destruct Ha as (_ & _ & _ & _ & Hf & _); now rewrite Hf).
  rewrite E. split; [reflexivity | now apply agree_log].
Qed.

Lemma respects_alarm n : respects (alarm n).
Proof. intros st st' Ha. split; [reflexivity | now apply agree_log]. Qed.

Lemma respects_kill t s : respects (kill t s).
Proof. intros st st' Ha. split; [reflexivity | now apply agree_log]. Qed.

Lemma respects_fork : respects fork.
Proof.
  intros st st' Ha. unfold fork.
  assert (E : forks (os st) = forks (os st')) by apply Ha.
  rewrite E. destruct (forks (os st')) as [|p rest]; cbn [fst snd]; [auto|].
  split; [reflexivity|]. unfold agree in *. cbn. tauto.
Qed.

Lemma respects_run_proc argv : respects (run_proc argv).
Proof.
  unfold run_proc. apply respects_bind; [apply respects_fork|].
  intros p. destruct (negb (p =? 0)).
  - intros st st' Ha. split; [reflexivity | now apply agree_log].
  - intros st st' Ha. split; [reflexivity | exact Ha].
Qed.

Lemma respects_install : respects install_term_and_int_handlers.
Proof.
  unfold install_term_and_int_handlers, perror_die.
  repeat (apply respects_bind; [first [apply respects_sigaction
                                      | match goal with
                                        | |- respects (if ?b then _ else _) => destruct b
                                        end; [apply respects_exit | apply respects_ret]]
                               | intros ?]).
  match goal with |- respects (if ?b then _ else _) => destruct b end;
    [apply respects_exit | apply respects_ret].
Qed.

Lemma respects_remove : respects remove_term_and_int_handlers.
Proof.
  unfold remove_term_and_int_handlers.
  apply respects_bind; [apply respects_sigaction|]. intros [|]; [apply respects_ret|].
  apply respects_bind; [apply respects_sigaction|]. intros [|]; apply respects_ret.
Qed.

Lemma respects_start_configure_cmds cmds : forall n, respects (start_configure_cmds cmds n).
Proof.
  induction cmds as [|c cs IH]; intros n; cbn [start_configure_cmds]; [apply respects_ret|].
  destruct (negb (configuring c)).
  - apply respects_bind; [apply IH | intros r; apply respects_ret].
  - apply respects_bind; [apply respects_run_proc | intros p].
    apply respects_bind; [apply IH | intros r; apply respects_ret].
Qed.

Lemma respects_run_cmds cmds : respects (run_cmds cmds).
Proof.
  induction cmds as [|c cs IH]; cbn [run_cmds]; [apply respects_ret|].
  destruct (negb (configuring c)).
  - apply respects_bind; [apply respects_run_proc | intros p].
    apply respects_bind; [apply IH | intros r; apply respects_ret].
  - apply respects_bind; [apply IH | intros r; apply respects_ret].
Qed.

(** The configure phase looks at nothing of a return of [waitpid] but
    whether it reports that no child is left. *)
Lemma wait_until_no_children_agree ws : forall ws' st st',
  map no_child_left ws = map no_child_left ws' ->
  agree st st' ->
  fst (fst (wait_until_no_children ws st)) = fst (fst (wait_until_no_children ws' st')) /\
  map no_child_left (snd (fst (wait_until_no_children ws st)))
  = map no_child_left (snd (fst (wait_until_no_children ws' st'))) /\
  agree (snd (wait_until_no_children ws st)) (snd (wait_until_no_children ws' st')).
Proof.
  induction ws as [|r ws IH]; intros [|r' ws'] st st' Hmap Ha; try discriminate Hmap.
  - cbn. auto.
  - cbn [map] in Hmap. injection Hmap as Hr Hmap. cbn [wait_until_no_children].
    unfold no_child_left in Hr at 1 2. rewrite Hr.
    destruct ((w_ret r' =? -1) && (w_errno r' =? ECHILD)).
    + cbn [fst snd]. split; [reflexivity|]. split; [exact Hmap|]. now apply agree_log_wait.
    + apply IH; [exact Hmap | now apply agree_log_wait].
Qed.

Lemma respects_run_configure_cmds cmds : respects (run_configure_cmds cmds).
Proof.
  unfold run_configure_cmds. apply respects_bind; [apply respects_start_configure_cmds|].
  intros r. destruct (negb (snd r =? 0)); [|apply respects_ret].
  intros st st' Ha.
  destruct (wait_until_no_children_agree (configure_waits (os st)) (configure_waits (os st'))
              st st') as (Ho & Hrest & Hs); [apply Ha | exact Ha|].
  destruct (wait_until_no_children (configure_waits (os st)) st) as [[o1 rest1] s1].
  destruct (wait_until_no_children (configure_waits (os st')) st') as [[o2 rest2] s2].
  cbn [fst snd] in Ho, Hrest, Hs. subst o2.
  assert (Hset : agree (set_os (set_configure_waits (os s1) rest1) s1)
                   (set_os (set_configure_waits (os s2) rest2) s2)).
  { unfold agree in *. cbn. tauto. }
  destruct o1; cbn [fst snd]; auto.
Qed.

Lemma respects_wait_for_requested_commands cmds watch_cmds :
  respects (wait_for_requested_commands cmds watch_cmds).
Proof.
  intros st st' Ha. unfold wait_for_requested_commands.
  assert (Er : running st = running st') by apply Ha.
  assert (Et : main_ticks (os st) = main_ticks (os st')) by apply Ha.
  rewrite Er, Et.
  destruct (wait_for_requested_commands_to_exit cmds watch_cmds (running st')
              (main_ticks (os st'))) as [r|]; cbn [fst snd];
    (split; [reflexivity|]); unfold agree, unwaited in *;
    cbn [running alarm_exit_code trace os set_main_ticks my_pid sigaction_fails forks
         configure_waits configure_signal main_ticks drain_ticks];
    rewrite !filter_app;
    destruct Ha as (H1 & H2 & H3 & H4); rewrite H3; tauto.
Qed.

Lemma drain_agree ds : forall st st',
  agree st st' ->
  fst (drain ds st) = fst (drain ds st') /\ agree (snd (drain ds st)) (snd (drain ds st')).
Proof.
  induction ds as [|t ds IH]; intros st st' Ha; cbn [drain]; [auto|].
  destruct t as [r|].
  - destruct ((w_ret r =? -1) && (w_errno r =? ECHILD)).
    + cbn [fst snd]. split; [reflexivity | now apply agree_log].
    + apply IH. now apply agree_log.
  - cbn [fst snd run_on_alarm].
    assert (E : alarm_exit_code st = alarm_exit_code st') by apply Ha.
    rewrite E. auto.
Qed.

Lemma respects_wait_for_all_processes_to_exit code :
  respects (wait_for_all_processes_to_exit code).
Proof.
  intros st st' Ha. unfold wait_for_all_processes_to_exit.
  assert (Ha1 : agree (set_alarm_exit_code code st) (set_alarm_exit_code code st')).
  { unfold agree in *. cbn. tauto. }
  assert (Ed : drain_ticks (os (set_alarm_exit_code code st))
               = drain_ticks (os (set_alarm_exit_code code st'))) by apply Ha1.
  rewrite Ed.
  destruct (drain_agree (drain_ticks (os (set_alarm_exit_code code st')))
              _ _ Ha1) as [Ho Hs].
  destruct (drain _ (set_alarm_exit_code code st)) as [[o1 rest1] s1].
  destruct (drain _ (set_alarm_exit_code code st')) as [[o2 rest2] s2].
  cbn [fst snd] in *. injection Ho as -> ->.
  split; [reflexivity|]. unfold agree in *. cbn. tauto.
Qed.

Lemma respects_supervise_and_shut_down cmds watch_cmds opts :
  respects (supervise_and_shut_down cmds watch_cmds opts).
Proof.
  unfold supervise_and_shut_down.
  apply respects_bind; [apply respects_run_cmds | intros cmds'].
  apply respects_bind; [apply respects_wait_for_requested_commands | intros code].
  apply respects_bind; [apply respects_remove | intros _].
  apply respects_bind; [apply respects_alarm | intros _].
  apply respects_bind; [apply respects_kill | intros _].
  apply respects_bind; [apply respects_wait_for_all_processes_to_exit | intros _].
  apply respects_ret.
Qed.

Lemma respects_run_parsed cmds opts : respects (run_parsed cmds opts).
Proof.
  unfold run_parsed. destruct (select_watch_cmds cmds) as [[cmds1 watch_cmds] n].
  apply respects_bind; [apply respects_install | intros _].
  apply respects_bind; [apply respects_run_configure_cmds | intros cmds'].
  apply respects_bind.
  - intros st st' Ha. unfold deliver. cbn [fst snd].
    assert (E : configure_signal (os st) = configure_signal (os st')) by apply Ha.
    rewrite E. split; [reflexivity|].
    destruct (configure_signal (os st')); [|exact Ha].
    unfold agree in *. cbn. tauto.
  - intros _ st st' Ha.
    assert (E : running st = running st') by apply Ha. rewrite E.
    destruct (running st'); [now apply respects_supervise_and_shut_down|].
    now apply respects_ret.
Qed.

(** What [waitpid] reports during the configure phase, apart from the fact
    that no child is left, has no effect on the run: [run_configure_cmds]
    never reads the status word nor the process id.  Two runs that differ
    only there (a configure command that exits 0 in one and fails in the
    other, say) end the same way and make the same system calls, waits apart. *)
Theorem configure_exit_statuses_are_discarded w ws argv :
  map no_child_left ws = map no_child_left (configure_waits w) ->
  fst (main (set_configure_waits w ws) argv) = fst (main w argv) /\
  unwaited (trace (snd (main (set_configure_waits w ws) argv)))
  = unwaited (trace (snd (main w argv))).
Proof.
  intros Hws. unfold main. cbn [set_configure_waits my_pid].
  destruct (length argv =? 1)%nat; [split; reflexivity|].
  destruct (parse_argv (my_pid w) argv) as [[[cmds opts] mem]| | |]; try (split; reflexivity).
  destruct (respects_run_parsed cmds opts (init_proc (set_configure_waits w ws)) (init_proc w))
    as [Ho Hs].
  - unfold agree, init_proc. cbn. tauto.
  - split; [exact Ho | apply Hs].
Qed.

Lemma configure_exit_statuses_are_discarded_witness :
  fst (main (set_configure_waits demo_world [exit_with 100 7; no_more_children]) demo_argv)
  = fst (main demo_world demo_argv).
Proof.
  apply (configure_exit_statuses_are_discarded demo_world
           [exit_with 100 7; no_more_children] demo_argv).
  reflexivity.
Defined.
